(** * Mirror-curve: the grid graph, the curve tracer and enumerator, and the
      numeric playback helpers, embedded from the JavaScript sources.

    - [Grid] (logic/grid.js), [MirrorCurve] (logic/mirrorCurve.js),
      [findNextCurve] / [findAllCurves] (logic/curveFinder.js),
      [dispatch] (core/stateManager.js),
      [getPointAtDistance] (core/animationManager.js),
      [getSplinePoints] (drawing/spline.js).

    Conventions of the embedding.
    - A JavaScript [Map] is an association list in insertion order: [set] on
      a present key replaces the value in place, on an absent key appends.
    - A grid line id, the string [`${type}_${row}_${col}`], is the triple it
      is formatted from; [parseGridLineId] is the inverse of
      [generateGridLineId] on such strings.
    - Methods that mutate [this] take the grid and return the new grid.
    - Loop counters and grid dimensions are natural numbers; coordinates,
      distances and probabilities are exact rationals (rounding, NaN and
      infinities of IEEE doubles are outside the model). *)

From Stdlib Require Import String.
From Stdlib Require Import List Arith Bool Lia PeanoNat NArith ZArith QArith Qabs Permutation Sorted.
From Stdlib Require Import Qminmax Lqa.
Import ListNotations.

Close Scope Q_scope.
Open Scope nat_scope.

Set Implicit Arguments.

(** ** JavaScript [Map], insertion ordered *)

Module JsMap.
Section Defs.
Variables K V : Type.
Variable eqb : K -> K -> bool.

Definition t := list (K * V).

Definition empty : t := [].

Fixpoint get (m : t) (k : K) : option V :=
  match m with
  | [] => None
  | (k', v) :: m' => if eqb k k' then Some v else get m' k
  end.

Definition has (m : t) (k : K) : bool :=
  match get m k with Some _ => true | None => false end.

Fixpoint set (m : t) (k : K) (v : V) : t :=
  match m with
  | [] => [(k, v)]
  | (k', v') :: m' => if eqb k k' then (k', v) :: m' else (k', v') :: set m' k v
  end.

Definition keys (m : t) : list K := map fst m.
Definition values (m : t) : list V := map snd m.
Definition entries (m : t) : list (K * V) := m.

End Defs.
End JsMap.

(** ** Directions, ids and grid lines (logic/grid.js) *)

(** [static NW = 0; NE = 1; SW = 2; SE = 3]. *)
Inductive Direction : Type := NW | NE | SW | SE.

Definition Direction_code (d : Direction) : nat :=
  match d with NW => 0 | NE => 1 | SW => 2 | SE => 3 end.

Definition Direction_eqb (a b : Direction) : bool :=
  Nat.eqb (Direction_code a) (Direction_code b).

(** The id prefix, ['h'] or ['v']. *)
Inductive IdTag : Type := tag_h | tag_v.

Definition IdTag_eqb (a b : IdTag) : bool :=
  match a, b with
  | tag_h, tag_h | tag_v, tag_v => true
  | _, _ => false
  end.

Record GridLineId : Type := mkId { idTag : IdTag; idRow : nat; idCol : nat }.

Definition GridLineId_eqb (a b : GridLineId) : bool :=
  IdTag_eqb (idTag a) (idTag b) && Nat.eqb (idRow a) (idRow b)
  && Nat.eqb (idCol a) (idCol b).

Definition generateGridLineId (type : IdTag) (row col : nat) : GridLineId :=
  mkId type row col.

Definition parseGridLineId (id : GridLineId) : IdTag * nat * nat :=
  (idTag id, idRow id, idCol id).

(** The [type] field, ['horizontal'] or ['vertical']. *)
Inductive LineType : Type := horizontal | vertical.

(** The [connections] object, keyed by the four directions. *)
Record Connections : Type := mkConnections {
  connNW : option GridLineId;
  connNE : option GridLineId;
  connSW : option GridLineId;
  connSE : option GridLineId
}.

Definition conn_get (c : Connections) (d : Direction) : option GridLineId :=
  match d with
  | NW => connNW c | NE => connNE c | SW => connSW c | SE => connSE c
  end.

Definition conn_set (c : Connections) (d : Direction) (v : option GridLineId)
  : Connections :=
  match d with
  | NW => mkConnections v (connNE c) (connSW c) (connSE c)
  | NE => mkConnections (connNW c) v (connSW c) (connSE c)
  | SW => mkConnections (connNW c) (connNE c) v (connSE c)
  | SE => mkConnections (connNW c) (connNE c) (connSW c) v
  end.

Record GridLine : Type := mkGridLine {
  line_id : GridLineId;
  line_type : LineType;
  line_row : nat;
  line_col : nat;
  isMirror : bool;
  connections : Connections
}.

(** A JavaScript [Set] of directions, insertion ordered. *)
Definition DirSet := list Direction.

Definition DirSet_has (s : DirSet) (d : Direction) : bool :=
  existsb (Direction_eqb d) s.

Definition DirSet_add (s : DirSet) (d : Direction) : DirSet :=
  if DirSet_has s d then s else s ++ [d].

Record Grid : Type := mkGrid {
  rows : nat;
  cols : nat;
  gridLines : JsMap.t GridLineId GridLine;
  usedDirections : JsMap.t GridLineId DirSet
}.

Definition with_gridLines (g : Grid) (m : JsMap.t GridLineId GridLine) : Grid :=
  mkGrid (rows g) (cols g) m (usedDirections g).

Definition with_usedDirections (g : Grid) (u : JsMap.t GridLineId DirSet)
  : Grid :=
  mkGrid (rows g) (cols g) (gridLines g) u.

(** [getGridLine(id)]: [this.gridLines.get(id) || null]. *)
Definition getGridLine (g : Grid) (id : GridLineId) : option GridLine :=
  JsMap.get GridLineId_eqb (gridLines g) id.

(** [for (let i = lo; i < hi; i++) body], threading the state. *)
Definition for_range {S : Type} (lo hi : nat) (body : nat -> S -> S) (s : S)
  : S :=
  fold_left (fun acc i => body i acc) (seq lo (hi - lo)) s.

Definition newLine (type : LineType) (id : GridLineId) (row col : nat)
  : GridLine :=
  mkGridLine id type row col false (mkConnections None None None None).

(** [initializeGridLines()]: horizontal lines for [row <= rows], [col < cols],
    then vertical lines for [row < rows], [col <= cols]. *)
Definition initializeGridLines (g : Grid) : Grid :=
  let g1 :=
    for_range 0 (rows g + 1) (fun row g' =>
      for_range 0 (cols g) (fun col g'' =>
        let id := generateGridLineId tag_h row col in
        with_gridLines g''
          (JsMap.set GridLineId_eqb (gridLines g'') id
             (newLine horizontal id row col))) g') g in
  for_range 0 (rows g) (fun row g' =>
    for_range 0 (cols g + 1) (fun col g'' =>
      let id := generateGridLineId tag_v row col in
      with_gridLines g''
        (JsMap.set GridLineId_eqb (gridLines g'') id
           (newLine vertical id row col))) g') g1.

(** [setMirror(lineId, isMirror)]. *)
Definition line_setMirror (l : GridLine) (b : bool) : GridLine :=
  mkGridLine (line_id l) (line_type l) (line_row l) (line_col l) b
    (connections l).

Definition setMirror (g : Grid) (lineId : GridLineId) (b : bool) : Grid :=
  match getGridLine g lineId with
  | Some gridLine =>
      with_gridLines g
        (JsMap.set GridLineId_eqb (gridLines g) lineId
           (line_setMirror gridLine b))
  | None => g
  end.

(** [placeBoundaryMirrors()]. *)
Definition placeBoundaryMirrors (g : Grid) : Grid :=
  let g1 := for_range 0 (cols g) (fun col g' =>
              setMirror g' (generateGridLineId tag_h 0 col) true) g in
  let g2 := for_range 0 (cols g) (fun col g' =>
              setMirror g' (generateGridLineId tag_h (rows g) col) true) g1 in
  let g3 := for_range 0 (rows g) (fun row g' =>
              setMirror g' (generateGridLineId tag_v row 0) true) g2 in
  for_range 0 (rows g) (fun row g' =>
    setMirror g' (generateGridLineId tag_v row (cols g)) true) g3.

Definition line_setConnection (l : GridLine) (d : Direction) (id : GridLineId)
  : GridLine :=
  mkGridLine (line_id l) (line_type l) (line_row l) (line_col l) (isMirror l)
    (conn_set (connections l) d (Some id)).

(** The body of the loop of [computeConnections()] for one grid line. *)
Definition computeConnections_line (nrows ncols : nat) (gridLine : GridLine)
  : GridLine :=
  let row := line_row gridLine in
  let col := line_col gridLine in
  match line_type gridLine with
  | horizontal =>
      let l1 := if (0 <=? col) && (0 <? row)
                then line_setConnection gridLine NW
                       (generateGridLineId tag_v (row - 1) col)
                else gridLine in
      let l2 := if (0 <? row)
                then line_setConnection l1 NE
                       (generateGridLineId tag_v (row - 1) (col + 1))
                else l1 in
      let l3 := if (0 <=? col) && (row <? nrows)
                then line_setConnection l2 SW
                       (generateGridLineId tag_v row col)
                else l2 in
      if (row <? nrows)
      then line_setConnection l3 SE (generateGridLineId tag_v row (col + 1))
      else l3
  | vertical =>
      let l1 := if (0 <=? row) && (0 <? col)
                then line_setConnection gridLine NW
                       (generateGridLineId tag_h row (col - 1))
                else gridLine in
      let l2 := if (0 <=? row) && (col <? ncols)
                then line_setConnection l1 NE
                       (generateGridLineId tag_h row col)
                else l1 in
      let l3 := if (row <? nrows) && (0 <? col)
                then line_setConnection l2 SW
                       (generateGridLineId tag_h (row + 1) (col - 1))
                else l2 in
      if (row <? nrows) && (col <? ncols)
      then line_setConnection l3 SE (generateGridLineId tag_h (row + 1) col)
      else l3
  end.

(** [computeConnections()]: every line object of the map is updated in
    place; keys and order are untouched. *)
Definition computeConnections (g : Grid) : Grid :=
  with_gridLines g
    (map (fun e => (fst e, computeConnections_line (rows g) (cols g) (snd e)))
       (gridLines g)).

(** [isBoundaryGridLine(gridLine)]. *)
Definition isBoundaryGridLine (g : Grid) (gridLine : option GridLine) : bool :=
  match gridLine with
  | None => false
  | Some l =>
      match line_type l with
      | horizontal => Nat.eqb (line_row l) 0 || Nat.eqb (line_row l) (rows g)
      | vertical => Nat.eqb (line_col l) 0 || Nat.eqb (line_col l) (cols g)
      end
  end.

(** [this.usedDirections.get(id).add(direction)], for a present key. *)
Definition used_add (u : JsMap.t GridLineId DirSet) (id : GridLineId)
  (d : Direction) : JsMap.t GridLineId DirSet :=
  match JsMap.get GridLineId_eqb u id with
  | Some s => JsMap.set GridLineId_eqb u id (DirSet_add s d)
  | None => u
  end.

(** The directions pre-seeded on a boundary line. *)
Definition seedBoundary (g : Grid) (u : JsMap.t GridLineId DirSet)
  (e : GridLineId * GridLine) : JsMap.t GridLineId DirSet :=
  let (id, gridLine) := e in
  if negb (isBoundaryGridLine g (Some gridLine)) then u
  else
    match line_type gridLine with
    | horizontal =>
        if Nat.eqb (line_row gridLine) 0
        then used_add (used_add u id NW) id NE
        else if Nat.eqb (line_row gridLine) (rows g)
        then used_add (used_add u id SW) id SE
        else u
    | vertical =>
        if Nat.eqb (line_col gridLine) 0
        then used_add (used_add u id SW) id NW
        else if Nat.eqb (line_col gridLine) (cols g)
        then used_add (used_add u id NE) id SE
        else u
    end.

(** [initializeUsedDirections()]. *)
Definition initializeUsedDirections (g : Grid) : Grid :=
  let u1 := fold_left (fun u e => JsMap.set GridLineId_eqb u (fst e) [])
              (JsMap.entries (gridLines g)) (usedDirections g) in
  with_usedDirections g
    (fold_left (seedBoundary g) (JsMap.entries (gridLines g)) u1).

(** [new Grid(rows, cols)]. *)
Definition newGrid (nrows ncols : nat) : Grid :=
  let g0 := mkGrid nrows ncols (JsMap.empty _ _) (JsMap.empty _ _) in
  initializeUsedDirections
    (placeBoundaryMirrors (computeConnections (initializeGridLines g0))).

(** The outcome of [getAdjacentGridLine]: a returned id or [null], or the
    thrown [Error("Curve left the grid")].  The test that [direction] is one
    of the four constants always passes for a [Direction]. *)
Inductive Adjacent : Type :=
| AdjReturn (id : option GridLineId)
| AdjLeftGrid.

Definition getAdjacentGridLine (g : Grid) (lineId : GridLineId)
  (direction : Direction) : Adjacent :=
  match getGridLine g lineId with
  | None => AdjReturn None
  | Some gridLine =>
      match conn_get (connections gridLine) direction with
      | None => AdjLeftGrid
      | Some nextLineId => AdjReturn (Some nextLineId)
      end
  end.

(** [getReflectedDirection(gridLineId, incomingDirection)]; the [default]
    branches of its switches are not reachable for a [Direction]. *)
Definition getReflectedDirection (g : Grid) (gridLineId : GridLineId)
  (incomingDirection : Direction) : Direction :=
  match getGridLine g gridLineId with
  | None => incomingDirection
  | Some gridLine =>
      if negb (isMirror gridLine) then incomingDirection
      else
        match line_type gridLine with
        | horizontal =>
            match incomingDirection with
            | NW => SW | NE => SE | SW => NW | SE => NE
            end
        | vertical =>
            match incomingDirection with
            | NW => NE | NE => NW | SW => SE | SE => SW
            end
        end
  end.

(** [markDirectionUsed], [isDirectionUsed], [getUnusedDirections],
    [resetUsedDirections], [isEdgeDirection], [getMirrorCount]. *)
Definition markDirectionUsed (g : Grid) (gridLineId : GridLineId)
  (direction : Direction) : Grid :=
  if JsMap.has GridLineId_eqb (usedDirections g) gridLineId
  then with_usedDirections g (used_add (usedDirections g) gridLineId direction)
  else g.

Definition isDirectionUsed (g : Grid) (gridLineId : GridLineId)
  (direction : Direction) : bool :=
  match JsMap.get GridLineId_eqb (usedDirections g) gridLineId with
  | None => false
  | Some s => DirSet_has s direction
  end.

Definition allDirections : list Direction := [NW; NE; SW; SE].

Definition getUnusedDirections (g : Grid) (gridLineId : GridLineId)
  : list Direction :=
  match getGridLine g gridLineId,
        JsMap.get GridLineId_eqb (usedDirections g) gridLineId with
  | Some _, Some usedDirs =>
      filter (fun dir => if DirSet_has usedDirs dir then false else true)
        allDirections
  | _, _ => []
  end.

Definition resetUsedDirections (g : Grid) : Grid := initializeUsedDirections g.

Definition isEdgeDirection (g : Grid) (gridLineId : GridLineId)
  (direction : Direction) : bool :=
  match getGridLine g gridLineId with
  | None => true
  | Some gridLine =>
      match conn_get (connections gridLine) direction with
      | None => true
      | Some _ => false
      end
  end.

Definition getMirrorCount (g : Grid) : nat :=
  length (filter isMirror (JsMap.values (gridLines g))).

(** [randomizeMirrors(p)].  [Math.random()] is an oracle: its [k]-th call
    returns [random k].  The result is the grid as the call leaves it and
    whether the call threw. *)
Inductive Completion : Type :=
| Normal
| Threw (message : String.string).

Definition randomizeMirrors_step (p : Q) (random : nat -> Q)
  (st : Grid * nat) (e : GridLineId * GridLine) : Grid * nat :=
  let (g, k) := st in
  let id := fst e in
  let '(type, row, col) := parseGridLineId id in
  let isBoundary :=
    (IdTag_eqb type tag_h && (Nat.eqb row 0 || Nat.eqb row (rows g)))
    || (IdTag_eqb type tag_v && (Nat.eqb col 0 || Nat.eqb col (cols g))) in
  if isBoundary then (g, k)
  else if Qlt_le_dec (random k) p
       then (setMirror g id (negb (isMirror (snd e))), S k)
       else (g, S k).

Definition randomizeMirrors (p : Q) (random : nat -> Q) (g : Grid)
  : Completion * Grid :=
  if Qlt_le_dec p 0%Q then (Threw "Probability must be between 0 and 1"%string, g)
  else if Qlt_le_dec 1%Q p then (Threw "Probability must be between 0 and 1"%string, g)
  else
    (Normal,
     fst (fold_left (randomizeMirrors_step p random)
            (JsMap.entries (gridLines g)) (g, 0))).

(** ** Curves (logic/mirrorCurve.js) *)

Record MirrorCurve : Type := mkCurve {
  curve_gridLines : list GridLine;
  curve_directions : list Direction;
  isClosed : bool;
  leftGrid : bool;
  exitPoint : option GridLine;
  exitDirection : option Direction
}.

(** [new MirrorCurve(startGridLine, initialDirection)]. *)
Definition newMirrorCurve (startGridLine : GridLine)
  (initialDirection : Direction) : MirrorCurve :=
  mkCurve [startGridLine] [initialDirection] false false None None.

(** [addSegment(nextGridLine, nextDirection)]. *)
Definition addSegment (c : MirrorCurve) (nextGridLine : GridLine)
  (nextDirection : Direction) : MirrorCurve :=
  mkCurve (curve_gridLines c ++ [nextGridLine])
    (curve_directions c ++ [nextDirection])
    (isClosed c) (leftGrid c) (exitPoint c) (exitDirection c).

Definition set_isClosed (c : MirrorCurve) : MirrorCurve :=
  mkCurve (curve_gridLines c) (curve_directions c) true (leftGrid c)
    (exitPoint c) (exitDirection c).

Definition set_leftGrid (c : MirrorCurve) (p : GridLine) (d : Direction)
  : MirrorCurve :=
  mkCurve (curve_gridLines c) (curve_directions c) (isClosed c) true
    (Some p) (Some d).

Definition MAX_SEGMENTS : N := 1000000.

(** How a call of [buildCurve] ends: it returns a boolean; or the curve has
    no start line or no start direction, which the constructor excludes (a
    [TypeError] escapes from reading [gridLines[0].id]); or the model's loop
    budget is used up before the loop ends. *)
Inductive BuildOutcome : Type :=
| Returned (success : bool)
| Escaped
| OutOfFuel.

(** The direction opposite to the one the tracer arrived along, as computed
    in the loop body from [currentDirection]. *)
Definition oppositeOf (currentDirection : Direction) : Direction :=
  match currentDirection with
  | NW => SE
  | SE => NW
  | NE => SW
  | SW => NE
  end.

(** What one pass through the body of the [while] loop of [buildCurve]
    does: it returns from [buildCurve], or goes on to the next iteration
    with the updated grid, curve, current line and current direction. *)
Inductive LoopStep : Type :=
| Return (success : bool) (c : MirrorCurve) (g : Grid)
| Continue (g : Grid) (c : MirrorCurve) (currentGridLine : GridLine)
    (currentDirection : Direction).

(** The body of the loop: the [try] block and its [catch]. *)
Definition buildCurve_body (g : Grid) (c : MirrorCurve)
  (currentGridLine : GridLine) (currentDirection : Direction) : LoopStep :=
  match getAdjacentGridLine g (line_id currentGridLine) currentDirection with
  | AdjLeftGrid =>
      Return true (set_leftGrid c currentGridLine currentDirection) g
  | AdjReturn None => Return false c g
  | AdjReturn (Some nextLineId) =>
      match getGridLine g nextLineId with
      | None => Return false c g
      | Some nextGridLine =>
          let nextDirection :=
            if isMirror nextGridLine
            then getReflectedDirection g nextLineId currentDirection
            else currentDirection in
          let c1 := addSegment c nextGridLine nextDirection in
          let g1 := markDirectionUsed g nextLineId nextDirection in
          let oppositeDirection := oppositeOf currentDirection in
          let g2 := markDirectionUsed g1 nextLineId oppositeDirection in
          if (2 <? length (curve_gridLines c1))
             && GridLineId_eqb (line_id nextGridLine)
                  (line_id (hd nextGridLine (curve_gridLines c1)))
             && Direction_eqb nextDirection
                  (hd nextDirection (curve_directions c1))
          then Return true (set_isClosed c1) g2
          else Continue g2 c1 nextGridLine nextDirection
      end
  end.

(** The [while (this.gridLines.length < MAX_SEGMENTS)] loop of
    [buildCurve]; [fuel] bounds the number of iterations of the model. *)
Fixpoint buildCurve_loop (fuel : nat) (g : Grid) (c : MirrorCurve)
  (currentGridLine : GridLine) (currentDirection : Direction)
  : BuildOutcome * MirrorCurve * Grid :=
  if negb (N.of_nat (length (curve_gridLines c)) <? MAX_SEGMENTS)%N
  then (Returned false, c, g)
  else
    match fuel with
    | O => (OutOfFuel, c, g)
    | S fuel' =>
        match buildCurve_body g c currentGridLine currentDirection with
        | Return success c' g' => (Returned success, c', g')
        | Continue g' c' nextGridLine nextDirection =>
            buildCurve_loop fuel' g' c' nextGridLine nextDirection
        end
    end.

(** [buildCurve(grid)]. *)
Definition buildCurve (fuel : nat) (c : MirrorCurve) (g : Grid)
  : BuildOutcome * MirrorCurve * Grid :=
  match curve_gridLines c, curve_directions c with
  | currentGridLine :: _, currentDirection :: _ =>
      let g1 := markDirectionUsed g (line_id currentGridLine) currentDirection
      in buildCurve_loop fuel g1 c currentGridLine currentDirection
  | _, _ => (Escaped, c, g)
  end.

(** ** Enumeration (logic/curveFinder.js) *)

(** The [for ... of grid.gridLines.entries()] loop of [findNextCurve], over
    the entries still to visit. *)
Fixpoint findNextCurve_scan (fuel : nat)
  (entries : list (GridLineId * GridLine)) (g : Grid)
  : option (option MirrorCurve * Grid) :=
  match entries with
  | [] => Some (None, g)
  | (id, gridLine) :: rest =>
      match getUnusedDirections g id with
      | [] => findNextCurve_scan fuel rest g
      | direction :: _ =>
          let curve := newMirrorCurve gridLine direction in
          match buildCurve fuel curve g with
          | (Returned true, curve', g') => Some (Some curve', g')
          | (Returned false, _, g') => findNextCurve_scan fuel rest g'
          | (Escaped, _, g') => findNextCurve_scan fuel rest g'
          | (OutOfFuel, _, _) => None
          end
      end
  end.

(** [findNextCurve(grid)]; the budget of every [buildCurve] is the number
    of iterations [MAX_SEGMENTS] allows. *)
Definition findNextCurve (g : Grid) : option (option MirrorCurve * Grid) :=
  findNextCurve_scan (N.to_nat MAX_SEGMENTS) (JsMap.entries (gridLines g)) g.

(** The [while ((curve = findNextCurve(grid)) !== null)] loop of
    [findAllCurves]; [None] when [fuel] iterations do not finish it. *)
Fixpoint findAllCurves_loop (fuel : nat) (g : Grid) (curves : list MirrorCurve)
  : option (list MirrorCurve * Grid) :=
  match fuel with
  | O => None
  | S fuel' =>
      match findNextCurve g with
      | None => None
      | Some (None, g') => Some (curves, g')
      | Some (Some curve, g') => findAllCurves_loop fuel' g' (curves ++ [curve])
      end
  end.

(** [findAllCurves(grid)]. *)
Definition findAllCurves (fuel : nat) (g : Grid)
  : option (list MirrorCurve * Grid) :=
  findAllCurves_loop fuel (resetUsedDirections g) [].

(** ** The state container (core/stateManager.js) *)

Record State : Type := mkState {
  grid : Grid;
  curves : list MirrorCurve;
  showMirrors : bool;
  showGridLines : bool;
  showGridPoints : bool;
  showCenterDots : bool;
  animationSpeed : Q;
  animationStyle : String.string
}.

Definition with_grid (s : State) (g : Grid) : State :=
  mkState g (curves s) (showMirrors s) (showGridLines s) (showGridPoints s)
    (showCenterDots s) (animationSpeed s) (animationStyle s).

Definition with_curves (s : State) (cs : list MirrorCurve) : State :=
  mkState (grid s) cs (showMirrors s) (showGridLines s) (showGridPoints s)
    (showCenterDots s) (animationSpeed s) (animationStyle s).

Definition with_animationSpeed (s : State) (v : Q) : State :=
  mkState (grid s) (curves s) (showMirrors s) (showGridLines s)
    (showGridPoints s) (showCenterDots s) v (animationStyle s).

(** The actions of [dispatch(action, payload)] with their payloads.
    [RANDOM] carries the oracle of [Math.random]; [ALL_CURVES] the budget of
    the enumeration loop. *)
Inductive Action : Type :=
| UPDATE_GRID (payload_rows payload_cols : nat)
| TOGGLE_MIRRORS (show : bool)
| TOGGLE_GRID_LINES (show : bool)
| TOGGLE_GRID_DOTS (show : bool)
| TOGGLE_CENTER_DOTS (show : bool)
| SET_ANIMATION_SPEED (speed : Q)
| SET_ANIMATION_STYLE (style : String.string)
| SET_ANIMATION_DURATION (duration : Q)
| RANDOM (random : nat -> Q)
| NEXT_CURVE (payload : option MirrorCurve)
| ALL_CURVES (fuel : nat)
| RESET
| REDRAW
| TOGGLE_MIRROR (gridLineId : GridLineId)
| UNKNOWN (action : String.string).

(** [dispatch(action, payload)]; the dynamically imported enumerator calls
    of [NEXT_CURVE] and [ALL_CURVES] are run to completion, [None] when
    they do not finish within the budget. *)
Definition dispatch (a : Action) (s : State) : option State :=
  match a with
  | UPDATE_GRID r c => Some (with_curves (with_grid s (newGrid r c)) [])
  | TOGGLE_MIRRORS show =>
      Some (mkState (grid s) (curves s) show (showGridLines s)
              (showGridPoints s) (showCenterDots s) (animationSpeed s)
              (animationStyle s))
  | TOGGLE_GRID_LINES show =>
      Some (mkState (grid s) (curves s) (showMirrors s) show
              (showGridPoints s) (showCenterDots s) (animationSpeed s)
              (animationStyle s))
  | TOGGLE_GRID_DOTS show =>
      Some (mkState (grid s) (curves s) (showMirrors s) (showGridLines s)
              show (showCenterDots s) (animationSpeed s) (animationStyle s))
  | TOGGLE_CENTER_DOTS show =>
      Some (mkState (grid s) (curves s) (showMirrors s) (showGridLines s)
              (showGridPoints s) show (animationSpeed s) (animationStyle s))
  | SET_ANIMATION_SPEED speed => Some (with_animationSpeed s speed)
  | SET_ANIMATION_STYLE style =>
      Some (mkState (grid s) (curves s) (showMirrors s) (showGridLines s)
              (showGridPoints s) (showCenterDots s) (animationSpeed s) style)
  | SET_ANIMATION_DURATION duration =>
      Some (with_animationSpeed s (500 / (duration / 1000))%Q)
  | RANDOM random =>
      let '(_, g') := randomizeMirrors (15 # 100) random (grid s) in
      Some (with_curves (with_grid s g') [])
  | NEXT_CURVE (Some _) => Some s
  | NEXT_CURVE None =>
      match findNextCurve (grid s) with
      | Some (_, g') => Some (with_grid s g')
      | None => None
      end
  | ALL_CURVES fuel =>
      match findAllCurves fuel (grid s) with
      | Some (_, g') => Some (with_grid s g')
      | None => None
      end
  | RESET | REDRAW =>
      Some (with_curves (with_grid s (resetUsedDirections (grid s))) [])
  | TOGGLE_MIRROR gridLineId =>
      match getGridLine (grid s) gridLineId with
      | Some line =>
          if negb (isBoundaryGridLine (grid s) (Some line))
          then Some (with_curves
                       (with_grid s
                          (setMirror (grid s) gridLineId
                             (negb (isMirror line)))) [])
          else Some s
      | None => Some s
      end
  | UNKNOWN _ => Some s
  end.

(** ** Arc-length sampling (core/animationManager.js) *)

Record Point : Type := mkPoint { px : Q; py : Q }.

Record Sample : Type := mkSample {
  point : option Point;  (* [None] is [undefined] *)
  segmentIndex : nat
}.

Section PathAnimator.

(** [Math.sqrt]. *)
Variable sqrt : Q -> Q.

Definition origin : Point := mkPoint 0 0.

Definition segmentLengthOf (a b : Point) : Q :=
  let dx := (px b - px a)%Q in
  let dy := (py b - py a)%Q in
  sqrt (dx * dx + dy * dy)%Q.

(** [calculatePathLength(points)]; [isClosed] is
    [currentCurve && currentCurve.isClosed]. *)
Definition calculatePathLength (points : list Point) (isClosed : bool) : Q :=
  if length points <? 2 then 0%Q
  else
    let len :=
      fold_left (fun acc i =>
          (acc + segmentLengthOf (nth (i - 1) points origin)
                   (nth i points origin))%Q)
        (seq 1 (length points - 1)) 0%Q in
    if isClosed && (1 <? length points)
    then (len + segmentLengthOf (nth (length points - 1) points origin)
                  (nth 0 points origin))%Q
    else len.

(** The [for (let i = 1; i < points.length; i++)] loop of
    [getPointAtDistance] over the indices still to visit: the sample
    returned from inside the loop, or the distance travelled at its end. *)
Fixpoint getPointAtDistance_loop (points : list Point) (targetDistance : Q)
  (indices : list nat) (distanceTraveled : Q) : Sample + Q :=
  match indices with
  | [] => inr distanceTraveled
  | i :: rest =>
      let p0 := nth (i - 1) points origin in
      let p1 := nth i points origin in
      let dx := (px p1 - px p0)%Q in
      let dy := (py p1 - py p0)%Q in
      let segmentLength := sqrt (dx * dx + dy * dy)%Q in
      if Qle_bool targetDistance (distanceTraveled + segmentLength)%Q
      then
        let remainingDistance := (targetDistance - distanceTraveled)%Q in
        let ratio := (remainingDistance / segmentLength)%Q in
        inl (mkSample
               (Some (mkPoint (px p0 + ratio * dx)%Q (py p0 + ratio * dy)%Q))
               (i - 1))
      else
        getPointAtDistance_loop points targetDistance rest
          (distanceTraveled + segmentLength)%Q
  end.

(** [getPointAtDistance(points, targetDistance, isClosed)]. *)
Definition getPointAtDistance (points : list Point) (targetDistance : Q)
  (isClosed : bool) : Sample :=
  if (length points <? 2) || Qle_bool targetDistance 0
  then mkSample (nth_error points 0) 0
  else
    match getPointAtDistance_loop points targetDistance
            (seq 1 (length points - 1)) 0%Q with
    | inl s => s
    | inr distanceTraveled =>
        let last := nth (length points - 1) points origin in
        let first := nth 0 points origin in
        let dx := (px first - px last)%Q in
        let dy := (py first - py last)%Q in
        let segmentLength := sqrt (dx * dx + dy * dy)%Q in
        if isClosed && (1 <? length points)
           && Qle_bool targetDistance (distanceTraveled + segmentLength)%Q
        then
          let remainingDistance := (targetDistance - distanceTraveled)%Q in
          let ratio := (remainingDistance / segmentLength)%Q in
          mkSample
            (Some (mkPoint (px last + ratio * dx)%Q (py last + ratio * dy)%Q))
            (length points - 1)
        else
          mkSample (Some (if isClosed then first else last))
            (length points - 1)
    end.

(** The sampling step of [animatePath(progress)]:
    [getPointAtDistance(pathPoints, progress * totalLength, isClosed)] with
    [totalLength = calculatePathLength(pathPoints)]. *)
Definition pointAtProgress (points : list Point) (progress : Q)
  (isClosed : bool) : Sample :=
  let totalLength := calculatePathLength points isClosed in
  let currentDistance := (progress * totalLength)%Q in
  getPointAtDistance points currentDistance isClosed.

End PathAnimator.

(** ** Spline interpolation (drawing/spline.js) *)

Definition Q_of_nat (n : nat) : Q := inject_Z (Z.of_nat n).

(** [segmentSubdivision(P0, P1, M0, M1, subdivisions)]. *)
Definition segmentSubdivision (P0 P1 M0 M1 : Point) (subdivisions : nat)
  : list Point :=
  map (fun j =>
         let t := (Q_of_nat j / Q_of_nat subdivisions)%Q in
         let t2 := (t * t)%Q in
         let t3 := (t2 * t)%Q in
         let h00 := (2 * t3 - 3 * t2 + 1)%Q in
         let h10 := (t3 - 2 * t2 + t)%Q in
         let h01 := (- (2) * t3 + 3 * t2)%Q in
         let h11 := (t3 - t2)%Q in
         mkPoint
           (h00 * px P0 + h10 * px M0 + h01 * px P1 + h11 * px M1)%Q
           (h00 * py P0 + h10 * py M0 + h01 * py P1 + h11 * py M1)%Q)
      (seq 0 subdivisions).

(** [(i + k) % numPoints] on array indices, for [k] possibly [-1]. *)
Definition index_mod (i : nat) (k : Z) (numPoints : nat) : nat :=
  Z.to_nat (Z.rem (Z.of_nat i + k) (Z.of_nat numPoints)).

(** [alreadyClosed]: first and last point within [0.001] on both axes. *)
Definition alreadyClosed (rawPoints : list Point) : bool :=
  let N := length rawPoints in
  let first := nth 0 rawPoints origin in
  let last := nth (N - 1) rawPoints origin in
  (1 <? N)
  && (if Qlt_le_dec (Qabs (px first - px last)) (1 # 1000) then true else false)
  && (if Qlt_le_dec (Qabs (py first - py last)) (1 # 1000) then true else false).

Definition effectivePointsOf (rawPoints : list Point) : list Point :=
  if alreadyClosed rawPoints
  then firstn (length rawPoints - 1) rawPoints
  else rawPoints.

(** The tangent loop of [getSplinePoints]. *)
Definition tangentsOf (effectivePoints : list Point) (tension : Q)
  : list Point :=
  let numPoints := length effectivePoints in
  map (fun i =>
         let prev :=
           nth (index_mod i (-1 + Z.of_nat numPoints) numPoints)
             effectivePoints origin in
         let next := nth (index_mod i 1 numPoints) effectivePoints origin in
         mkPoint (((px next - px prev) * (1 - tension)) / 2)%Q
                 (((py next - py prev) * (1 - tension)) / 2)%Q)
      (seq 0 numPoints).

(** [getSplinePoints(rawPoints, tension, subdivisions)]. *)
Definition getSplinePoints (rawPoints : list Point) (tension : Q)
  (subdivisions : nat) : list Point :=
  let N := length rawPoints in
  if N <? 2 then rawPoints
  else
    let effectivePoints := effectivePointsOf rawPoints in
    let numPoints := length effectivePoints in
    let tangents := tangentsOf effectivePoints tension in
    let curve :=
      flat_map (fun i =>
          let P0 := nth i effectivePoints origin in
          let P1 := nth (index_mod i 1 numPoints) effectivePoints origin in
          let M0 := nth i tangents origin in
          let M1 := nth (index_mod i 1 numPoints) tangents origin in
          segmentSubdivision P0 P1 M0 M1 subdivisions)
        (seq 0 numPoints) in
    if alreadyClosed rawPoints
    then curve ++ [mkPoint (px (nth 0 effectivePoints origin))
                     (py (nth 0 effectivePoints origin))]
    else curve.

Unset Implicit Arguments.

(** ** Specification-side definitions *)

(** The ids [initializeGridLines] creates, in creation order. *)
Definition horizontalIds (nrows ncols : nat) : list GridLineId :=
  flat_map (fun row => map (fun col => mkId tag_h row col) (seq 0 ncols))
    (seq 0 (nrows + 1)).

Definition verticalIds (nrows ncols : nat) : list GridLineId :=
  flat_map (fun row => map (fun col => mkId tag_v row col) (seq 0 (ncols + 1)))
    (seq 0 nrows).

Definition allIds (nrows ncols : nat) : list GridLineId :=
  horizontalIds nrows ncols ++ verticalIds nrows ncols.

Definition typeOfTag (t : IdTag) : LineType :=
  match t with tag_h => horizontal | tag_v => vertical end.

(** The id names a line of the [nrows] by [ncols] grid. *)
Definition validId (nrows ncols : nat) (id : GridLineId) : Prop :=
  match idTag id with
  | tag_h => idRow id <= nrows /\ idCol id < ncols
  | tag_v => idRow id < nrows /\ idCol id <= ncols
  end.

(** The id names a line on the outer boundary. *)
Definition boundaryId (nrows ncols : nat) (id : GridLineId) : bool :=
  match idTag id with
  | tag_h => Nat.eqb (idRow id) 0 || Nat.eqb (idRow id) nrows
  | tag_v => Nat.eqb (idCol id) 0 || Nat.eqb (idCol id) ncols
  end.

(** The line object stored under [id] once connections are computed. *)
Definition lineOf (nrows ncols : nat) (id : GridLineId) : GridLine :=
  computeConnections_line nrows ncols
    (newLine (typeOfTag (idTag id)) id (idRow id) (idCol id)).

(** The geometric opposite of a direction: NW <-> SE, NE <-> SW. *)
Definition opposite (d : Direction) : Direction :=
  match d with NW => SE | SE => NW | NE => SW | SW => NE end.

(** Every stored line the grid itself classifies as boundary is a mirror. *)
Definition boundaryLinesAreMirrors (g : Grid) : Prop :=
  forall id l,
    getGridLine g id = Some l ->
    isBoundaryGridLine g (Some l) = true -> isMirror l = true.

(** A sequence of [dispatch] calls. *)
Fixpoint dispatchAll (actions : list Action) (s : State) : option State :=
  match actions with
  | [] => Some s
  | a :: rest =>
      match dispatch a s with
      | Some s' => dispatchAll rest s'
      | None => None
      end
  end.

(** The module-level [state] before any action, with the grid given. *)
Definition initialState (g : Grid) : State :=
  mkState g [] true false false true (3900 / 2)%Q "curved"%string.

(** A rational stand-in for [Math.sqrt], exact on squares of integers; it
    instantiates the square root when examples are run. *)
Definition sqrtQ (q : Q) : Q := inject_Z (Z.sqrt (Qnum q / Zpos (Qden q))).

(** Equality of points up to equality of rationals. *)
Definition pointEq (a b : Point) : Prop := (px a == px b /\ py a == py b)%Q.

(** The tangent of point [i] from the neighbours [prev] and [next]. *)
Definition tangentFrom (prev next : Point) (tension : Q) : Point :=
  mkPoint (((px next - px prev) * (1 - tension)) / 2)%Q
          (((py next - py prev) * (1 - tension)) / 2)%Q.

(** Following the spec's words for an open sequence: tangents from
    edge-clamped neighbours ([prev] of the first point is the first point,
    [next] of the last point is the last point). *)
Definition clampedTangentsOf (points : list Point) (tension : Q) : list Point :=
  let n := length points in
  map (fun i =>
         tangentFrom (nth (i - 1) points origin)
           (nth (Nat.min (i + 1) (n - 1)) points origin) tension)
      (seq 0 n).

(** Following the spec's words for an open sequence: the samples of the
    segments between consecutive input points, then the last input point. *)
Definition openSamplesOf (points : list Point) (tension : Q)
  (subdivisions : nat) : list Point :=
  let n := length points in
  let tangents := clampedTangentsOf points tension in
  flat_map (fun i =>
      segmentSubdivision (nth i points origin) (nth (i + 1) points origin)
        (nth i tangents origin) (nth (i + 1) tangents origin) subdivisions)
    (seq 0 (n - 1))
  ++ [nth (n - 1) points origin].

(** The behaviour claimed for open input. *)
Definition openSplineClaim (rawPoints : list Point) (tension : Q)
  (subdivisions : nat) : Prop :=
  Forall2 pointEq (tangentsOf (effectivePointsOf rawPoints) tension)
    (clampedTangentsOf rawPoints tension)
  /\ Forall2 pointEq (getSplinePoints rawPoints tension subdivisions)
       (openSamplesOf rawPoints tension subdivisions).

(** The grids of the claims: [new Grid(nrows, ncols)] followed by any
    [setMirror] calls on interior lines and any marking of directions. *)
Inductive InteriorConfig (nrows ncols : nat) : Grid -> Prop :=
| config_new : InteriorConfig nrows ncols (newGrid nrows ncols)
| config_setMirror g id b :
    InteriorConfig nrows ncols g ->
    boundaryId nrows ncols id = false ->
    InteriorConfig nrows ncols (setMirror g id b)
| config_mark g id d :
    InteriorConfig nrows ncols g ->
    InteriorConfig nrows ncols (markDirectionUsed g id d)
| config_reset g :
    InteriorConfig nrows ncols g ->
    InteriorConfig nrows ncols (resetUsedDirections g).

(** [a] is scanned before [b]: horizontal lines before vertical ones, and
    row-major within each orientation. *)
Definition scanBefore (a b : GridLineId) : Prop :=
  match idTag a, idTag b with
  | tag_h, tag_v => True
  | tag_v, tag_h => False
  | _, _ => idRow a < idRow b \/ (idRow a = idRow b /\ idCol a < idCol b)
  end.

(** The reverse-side pair of every step but the first: the line of the
    step with the opposite of the direction the curve arrived along (the
    direction of the step before). *)
Fixpoint reverseSidesOf (steps : list (GridLineId * Direction))
  : list (GridLineId * Direction) :=
  match steps with
  | [] => []
  | s :: rest =>
      match rest with
      | [] => []
      | s1 :: _ => (fst s1, opposite (snd s)) :: reverseSidesOf rest
      end
  end.

(** The neighbour [computeConnections] stores, by case on orientation,
    direction and position. *)
Definition neighbor (nrows ncols : nat) (id : GridLineId) (d : Direction)
  : option GridLineId :=
  let row := idRow id in
  let col := idCol id in
  match idTag id, d with
  | tag_h, NW => if 0 <? row then Some (mkId tag_v (row - 1) col) else None
  | tag_h, NE => if 0 <? row then Some (mkId tag_v (row - 1) (col + 1)) else None
  | tag_h, SW => if row <? nrows then Some (mkId tag_v row col) else None
  | tag_h, SE => if row <? nrows then Some (mkId tag_v row (col + 1)) else None
  | tag_v, NW => if 0 <? col then Some (mkId tag_h row (col - 1)) else None
  | tag_v, NE => if col <? ncols then Some (mkId tag_h row col) else None
  | tag_v, SW =>
      if (row <? nrows) && (0 <? col)
      then Some (mkId tag_h (row + 1) (col - 1)) else None
  | tag_v, SE =>
      if (row <? nrows) && (col <? ncols)
      then Some (mkId tag_h (row + 1) col) else None
  end.

(** What every stored line of a constructed grid looks like. *)
Definition lineShape (nrows ncols : nat) (id : GridLineId) (l : GridLine)
  : Prop :=
  line_id l = id
  /\ line_type l = typeOfTag (idTag id)
  /\ line_row l = idRow id
  /\ line_col l = idCol id
  /\ connections l = connections (lineOf nrows ncols id).

Record GridShape (g : Grid) : Prop := mkGridShape {
  shape_keys : JsMap.keys (gridLines g) = allIds (rows g) (cols g);
  shape_lines : forall id l,
      getGridLine g id = Some l -> lineShape (rows g) (cols g) id l
}.

Definition BoundaryMirrors (g : Grid) : Prop :=
  forall id l,
    getGridLine g id = Some l ->
    boundaryId (rows g) (cols g) id = true -> isMirror l = true.

Definition UsedShape (g : Grid) : Prop :=
  JsMap.keys (usedDirections g) = allIds (rows g) (cols g).

Definition entryOf (f : GridLineId -> GridLine) (id : GridLineId)
  : GridLineId * GridLine := (id, f id).

Definition freshLine (id : GridLineId) : GridLine :=
  newLine (typeOfTag (idTag id)) id (idRow id) (idCol id).

Definition memId (id : GridLineId) (ids : list GridLineId) : bool :=
  existsb (GridLineId_eqb id) ids.

Definition setMirrorsTrue (ids : list GridLineId) (g : Grid) : Grid :=
  fold_left (fun acc id => setMirror acc id true) ids g.

(** The ids [placeBoundaryMirrors] visits, in order. *)
Definition boundaryVisits (nrows ncols : nat) : list GridLineId :=
  map (fun col => mkId tag_h 0 col) (seq 0 ncols)
  ++ map (fun col => mkId tag_h nrows col) (seq 0 ncols)
  ++ map (fun row => mkId tag_v row 0) (seq 0 nrows)
  ++ map (fun row => mkId tag_v row ncols) (seq 0 nrows).

(** The line stored under [id] by [new Grid(nrows, ncols)]. *)
Definition builtLine (nrows ncols : nat) (id : GridLineId) : GridLine :=
  if memId id (boundaryVisits nrows ncols)
  then line_setMirror (lineOf nrows ncols id) true
  else lineOf nrows ncols id.

Definition sameLines (g g' : Grid) : Prop :=
  rows g' = rows g /\ cols g' = cols g /\ gridLines g' = gridLines g.

Definition GoodGrid (g : Grid) : Prop := GridShape g /\ BoundaryMirrors g.

Definition flagsClear (c : MirrorCurve) : Prop :=
  isClosed c = false /\ leftGrid c = false.

Definition flagsAfter (out : BuildOutcome) (c : MirrorCurve) : Prop :=
  match out with
  | Returned true =>
      (isClosed c = true /\ leftGrid c = false)
      \/ (isClosed c = false /\ leftGrid c = true)
  | _ => isClosed c = false /\ leftGrid c = false
  end.

(** The directions [initializeUsedDirections] adds for one line, in order. *)
Definition seedDirs (g : Grid) (l : GridLine) : list Direction :=
  if negb (isBoundaryGridLine g (Some l)) then []
  else
    match line_type l with
    | horizontal =>
        if Nat.eqb (line_row l) 0 then [NW; NE]
        else if Nat.eqb (line_row l) (rows g) then [SW; SE] else []
    | vertical =>
        if Nat.eqb (line_col l) 0 then [SW; NW]
        else if Nat.eqb (line_col l) (cols g) then [NE; SE] else []
    end.

(** The pairs pre-seeded as used, by id. *)
Definition seededb (nrows ncols : nat) (id : GridLineId) (d : Direction) : bool :=
  match idTag id with
  | tag_h =>
      if Nat.eqb (idRow id) 0 then DirSet_has [NW; NE] d
      else if Nat.eqb (idRow id) nrows then DirSet_has [SW; SE] d else false
  | tag_v =>
      if Nat.eqb (idCol id) 0 then DirSet_has [SW; NW] d
      else if Nat.eqb (idCol id) ncols then DirSet_has [NE; SE] d else false
  end.

Definition addAll (ds : list Direction) (s : DirSet) : DirSet :=
  fold_left DirSet_add ds s.

Definition WellFormed (g : Grid) : Prop :=
  GridShape g /\ BoundaryMirrors g /\ UsedShape g.

Definition TraceState : Type := (GridLineId * Direction)%type.

(** Reflection by orientation tag and mirror flag. *)
Definition reflectDir (t : IdTag) (m : bool) (d : Direction) : Direction :=
  if m then
    match t with
    | tag_h => match d with NW => SW | NE => SE | SW => NW | SE => NE end
    | tag_v => match d with NW => NE | NE => NW | SW => SE | SE => SW end
    end
  else d.

Definition mirOf (g : Grid) (id : GridLineId) : bool :=
  match getGridLine g id with
  | Some l => isMirror l
  | None => true
  end.

Definition usedState (g : Grid) (s : TraceState) : bool :=
  isDirectionUsed g (fst s) (snd s).

Definition TraceState_eqb (a b : TraceState) : bool :=
  GridLineId_eqb (fst a) (fst b) && Direction_eqb (snd a) (snd b).

(** The steps of a curve: the id of each line with the direction taken. *)
Definition stepsOf (c : MirrorCurve) : list TraceState :=
  combine (map line_id (curve_gridLines c)) (curve_directions c).

(** The pairs a curve uses up: its steps after the first (the closing step
    repeats the first) and their reverse sides. *)
Definition marksOf (c : MirrorCurve) : list TraceState :=
  tl (stepsOf c) ++ reverseSidesOf (stepsOf c).

(** A closed curve: it ends on its first step and repeats no other. *)
Definition closedCurve (c : MirrorCurve) : Prop :=
  isClosed c = true /\ leftGrid c = false
  /\ NoDup (tl (stepsOf c))
  /\ match stepsOf c with
     | [] => False
     | s :: rest => rest <> [] /\ last rest s = s
     end.

(** The steps of all the curves, the pairs claim C1 counts as covered. *)
Definition coveredBySteps (curves : list MirrorCurve) : list TraceState :=
  flat_map stepsOf curves.

(** The states a trace can be in: a line of the grid and a direction that
    is not pre-seeded on it. *)
Definition inU (nrows ncols : nat) (s : TraceState) : Prop :=
  validId nrows ncols (fst s) /\ seededb nrows ncols (fst s) (snd s) = false.

(** One step of the walk under the mirror flags [mir]: move to the
    neighbour, reflect there. *)
Definition nextState (nrows ncols : nat) (mir : GridLineId -> bool)
  (s : TraceState) : TraceState :=
  match neighbor nrows ncols (fst s) (snd s) with
  | Some id' => (id', reflectDir (idTag id') (mir id') (snd s))
  | None => s
  end.

(** The state of the same walk run backwards through the same line: the
    line, and the opposite of the direction of arrival. *)
Definition reverseSide (mir : GridLineId -> bool) (s : TraceState)
  : TraceState :=
  (fst s, opposite (reflectDir (idTag (fst s)) (mir (fst s)) (snd s))).

Definition walk (nrows ncols : nat) (mir : GridLineId -> bool) (k : nat)
  (s : TraceState) : TraceState :=
  Nat.iter k (nextState nrows ncols mir) s.

(** All the (line, direction) pairs of the grid. *)
Definition allStates (nrows ncols : nat) : list TraceState :=
  list_prod (allIds nrows ncols) allDirections.

(** What a trace from [s0] marks with its steps [i], ..., [i + k - 1]: the
    states of the walk and their reverse sides. *)
Definition markedBy (nrows ncols : nat) (G : Grid) (s0 x : TraceState)
  (i k : nat) : bool :=
  existsb (fun j =>
             TraceState_eqb x (walk nrows ncols (mirOf G) j s0)
             || TraceState_eqb x
                  (reverseSide (mirOf G) (walk nrows ncols (mirOf G) j s0)))
    (seq i k).

(** The number of pairs not yet used. *)
Definition unusedCount (nrows ncols : nat) (g : Grid) : nat :=
  length (filter (fun x => negb (usedState g x)) (allStates nrows ncols)).

(** The state of the enumeration loop on the lines of [G]: the pairs used so
    far are the pre-seeded ones and the marks of the curves found so far. *)
Record Enum (nrows ncols : nat) (G g : Grid) (found : list MirrorCurve)
  : Prop := mkEnum {
  enum_lines : sameLines G g;
  enum_keys : UsedShape g;
  enum_nodup : NoDup (flat_map marksOf found);
  enum_used : forall x,
      validId nrows ncols (fst x) ->
      (usedState g x = true
       <-> seededb nrows ncols (fst x) (snd x) = true
           \/ In x (flat_map marksOf found));
  enum_inU : forall x, In x (flat_map marksOf found) -> inU nrows ncols x;
  enum_next : forall x,
      In x (flat_map marksOf found) ->
      In (nextState nrows ncols (mirOf G) x) (flat_map marksOf found);
  enum_rev : forall x,
      In x (flat_map marksOf found) ->
      In (reverseSide (mirOf G) x) (flat_map marksOf found);
  enum_closed : Forall closedCurve found
}.

(** ** Definitions for the further properties *)

(** The segments of a curve: each line with the direction taken from it. *)
Definition segmentsOf (c : MirrorCurve) : list (GridLine * Direction) :=
  combine (curve_gridLines c) (curve_directions c).

(** Every element is related to the one after it. *)
Fixpoint chain {A : Type} (R : A -> A -> Prop) (l : list A) : Prop :=
  match l with
  | [] => True
  | a :: t => match t with [] => True | b :: _ => R a b end /\ chain R t
  end.

(** One step of a trace on the lines of [g]: the connection of the first
    line along its direction names a stored line, the second line, and the
    second direction is the first one, reflected if the second line is a
    mirror. *)
Definition followsGrid (g : Grid) (a b : GridLine * Direction) : Prop :=
  exists k,
    getAdjacentGridLine g (line_id (fst a)) (snd a) = AdjReturn (Some k)
    /\ getGridLine g k = Some (fst b)
    /\ snd b = (if isMirror (fst b)
                then getReflectedDirection g k (snd a) else snd a).

(** The state of the loop of [buildCurve] started on the grid [g0] from
    the line [l0] in the direction [d0]. *)
Record LoopInv (g0 : Grid) (l0 : GridLine) (d0 : Direction) (g : Grid)
  (c : MirrorCurve) (cur : GridLine) (dir : Direction) : Prop := mkLoopInv {
  li_same : sameLines g0 g;
  li_len : length (curve_directions c) = length (curve_gridLines c);
  li_hd : hd_error (segmentsOf c) = Some (l0, d0);
  li_last : last (segmentsOf c) (l0, d0) = (cur, dir);
  li_chain : chain (followsGrid g0) (segmentsOf c);
  li_bound : (N.of_nat (length (curve_gridLines c)) <= MAX_SEGMENTS)%N;
  li_flags : isClosed c = false /\ leftGrid c = false
             /\ exitPoint c = None /\ exitDirection c = None;
  li_used : forall id x,
      isDirectionUsed g0 id x = true -> isDirectionUsed g id x = true
}.

(** What holds of the curve and the grid when [buildCurve] returns. *)
Record BuildPost (g0 : Grid) (l0 : GridLine) (d0 : Direction)
  (c : MirrorCurve) (g : Grid) : Prop := mkBuildPost {
  bp_same : sameLines g0 g;
  bp_len : length (curve_directions c) = length (curve_gridLines c);
  bp_hd : hd_error (segmentsOf c) = Some (l0, d0);
  bp_chain : chain (followsGrid g0) (segmentsOf c);
  bp_bound : (N.of_nat (length (curve_gridLines c)) <= MAX_SEGMENTS)%N;
  bp_used : forall id x,
      isDirectionUsed g0 id x = true -> isDirectionUsed g id x = true;
  bp_left : leftGrid c = true ->
            isClosed c = false
            /\ exitPoint c = Some (fst (last (segmentsOf c) (l0, d0)))
            /\ exitDirection c = Some (snd (last (segmentsOf c) (l0, d0)))
            /\ isEdgeDirection g0
                 (line_id (fst (last (segmentsOf c) (l0, d0))))
                 (snd (last (segmentsOf c) (l0, d0))) = true;
  bp_closed : isClosed c = true ->
              leftGrid c = false
              /\ exitPoint c = None /\ exitDirection c = None
              /\ 2 < length (curve_gridLines c)
              /\ line_id (fst (last (segmentsOf c) (l0, d0))) = line_id l0
              /\ snd (last (segmentsOf c) (l0, d0)) = d0;
  bp_open : leftGrid c = false -> exitPoint c = None /\ exitDirection c = None
}.

(** The sample of one segment at parameter [t]: the cubic Hermite blend of
    [segmentSubdivision]. *)
Definition hermiteAt (P0 P1 M0 M1 : Point) (t : Q) : Point :=
  let t2 := (t * t)%Q in
  let t3 := (t2 * t)%Q in
  let h00 := (2 * t3 - 3 * t2 + 1)%Q in
  let h10 := (t3 - 2 * t2 + t)%Q in
  let h01 := (- (2) * t3 + 3 * t2)%Q in
  let h11 := (t3 - t2)%Q in
  mkPoint
    (h00 * px P0 + h10 * px M0 + h01 * px P1 + h11 * px M1)%Q
    (h00 * py P0 + h10 * py M0 + h01 * py P1 + h11 * py M1)%Q.

(** ** Path points (core/animationManager.js) *)

(** The midpoint of a grid line for cells of [cellW] by [cellH]:
    [(line.col + 0.5) * cellW], [line.row * cellH] for a horizontal line,
    [line.col * cellW], [(line.row + 0.5) * cellH] for a vertical one (the
    code repeats this computation in each of its maps). *)
Definition midpointOf (line : GridLine) (cellW cellH : Q) : Point :=
  match line_type line with
  | horizontal =>
      mkPoint ((Q_of_nat (line_col line) + (1 # 2)) * cellW)%Q
              (Q_of_nat (line_row line) * cellH)%Q
  | vertical =>
      mkPoint (Q_of_nat (line_col line) * cellW)%Q
              ((Q_of_nat (line_row line) + (1 # 2)) * cellH)%Q
  end.

(** The helper point of the line at [index]: the midpoint, moved by [d]
    away from a mirror on the side given by [curve.directions[index]]
    ([None] when the index has no direction: no branch applies). *)
Definition helperPointOf (d : Q) (line : GridLine)
  (direction : option Direction) (cellW cellH : Q) : Point :=
  let m := midpointOf line cellW cellH in
  if isMirror line then
    match line_type line with
    | vertical =>
        match direction with
        | Some NE | Some SE => mkPoint (px m + d)%Q (py m)
        | Some NW | Some SW => mkPoint (px m - d)%Q (py m)
        | None => m
        end
    | horizontal =>
        match direction with
        | Some NE | Some NW => mkPoint (px m) (py m - d)%Q
        | Some SE | Some SW => mkPoint (px m) (py m + d)%Q
        | None => m
        end
    end
  else m.

(** [calculateCurvedPoints(curve, cellW, cellH)], for a curve object. *)
Definition calculateCurvedPoints (curve : MirrorCurve) (cellW cellH : Q)
  : list Point :=
  if Nat.eqb (length (curve_gridLines curve)) 0 then []
  else
    let d := (Qmin cellW cellH / 8)%Q in
    map (fun il =>
           helperPointOf d (snd il)
             (nth_error (curve_directions curve) (fst il)) cellW cellH)
      (combine (seq 0 (length (curve_gridLines curve)))
         (curve_gridLines curve)).

(** [calculatePathPoints(curve, cellW, cellH, style)]; a missing style is
    the empty string. *)
Definition calculatePathPoints (curve : MirrorCurve) (cellW cellH : Q)
  (style : String.string) : list Point :=
  if Nat.eqb (length (curve_gridLines curve)) 0 then []
  else if String.eqb style EmptyString || String.eqb style "jagged"%string
  then map (fun line => midpointOf line cellW cellH) (curve_gridLines curve)
  else if String.eqb style "curved"%string
  then getSplinePoints (calculateCurvedPoints curve cellW cellH) (5 # 100) 10
  else map (fun line => midpointOf line cellW cellH) (curve_gridLines curve).

(** A curve with at least four segments and a direction for every line. *)
Definition wellSized (c : MirrorCurve) : Prop :=
  5 <= length (curve_gridLines c)
  /\ length (curve_directions c) = length (curve_gridLines c).

(** The number of calls of [Math.random] that [randomizeMirrors] makes
    before it reaches the line [id]: one for every line before it, in the
    order of [ids], that is not on the boundary. *)
Fixpoint drawsBefore (nrows ncols : nat) (ids : list GridLineId)
  (id : GridLineId) : nat :=
  match ids with
  | [] => 0
  | k :: rest =>
      if GridLineId_eqb k id then 0
      else (if boundaryId nrows ncols k then 0 else 1)
           + drawsBefore nrows ncols rest id
  end.

(** The mirror flag [randomizeMirrors(p)] leaves on a line whose flag was
    [m], when the draw for that line is [draw]. *)
Definition randomizedFlag (nrows ncols : nat) (p draw : Q) (id : GridLineId)
  (m : bool) : bool :=
  if boundaryId nrows ncols id then m
  else if Qlt_le_dec draw p then negb m else m.

(** ** The animation queue (core/animationManager.js)

    The module-level variables are the fields of [Animator]; every exported
    function takes the state and returns the new state with the events it
    emits and the browser calls it makes, in order.  The handle that
    [requestAnimationFrame] returns, the timestamp of a frame and what
    [getState()] holds (the cell size of the layout, undefined before the
    first layout, and the animation style) are arguments.  [animationStep]
    is outside the model, [None], where the JavaScript arithmetic leaves the
    rationals: an undefined cell size (NaN coordinates), or a division by a
    zero speed or a zero path length (an infinity or NaN). *)

Module Anim.

(** The object [generateCompletedCurve] builds: [{...curve, isCompleted:
    true}], with [curvedStyle: true] and [points] added for the curved
    style. *)
Record CompletedCurve : Type := mkCompletedCurve {
  sourceCurve : MirrorCurve;
  curvedStyle : bool;
  curvePoints : option (list Point)
}.

(** What the module sends out: the events it emits, the call of the
    completion callback, and its calls of the browser's frame functions. *)
Inductive Event : Type :=
| clearAnimationPath
| updateAnimationPath (partialPoints : list (option Point))
    (style : String.string)
| addCompletedCurve (c : CompletedCurve)
| callComplete (cb : nat)
| requestAnimationFrame
| cancelAnimationFrame (h : option nat).

Record Animator : Type := mkAnimator {
  queue : list MirrorCurve;
  completeCallback : option nat;
  isAnimating : bool;
  animationFrame : option nat;
  currentCurve : option MirrorCurve;
  animationStartTime : Q;
  animationSpeed : Q;
  currentPathLength : Q
}.

(** The module as loaded. *)
Definition initial : Animator := mkAnimator [] None false None None 0 200 0.

(** [if (animationFrame)]: a handle is a non-zero number. *)
Definition truthyHandle (h : option nat) : bool :=
  match h with Some (S _) => true | _ => false end.

Definition enqueueCurve (curve : MirrorCurve) (a : Animator) : Animator :=
  mkAnimator (queue a ++ [curve]) (completeCallback a) (isAnimating a)
    (animationFrame a) (currentCurve a) (animationStartTime a)
    (animationSpeed a) (currentPathLength a).

Definition onComplete (cb : option nat) (a : Animator) : Animator :=
  mkAnimator (queue a) cb (isAnimating a) (animationFrame a) (currentCurve a)
    (animationStartTime a) (animationSpeed a) (currentPathLength a).

Definition isCurrentlyAnimating (a : Animator) : bool := isAnimating a.

Definition setAnimationSpeed (speed : Q) (a : Animator) : Animator :=
  mkAnimator (queue a) (completeCallback a) (isAnimating a) (animationFrame a)
    (currentCurve a) (animationStartTime a) speed (currentPathLength a).

Definition getAnimationSpeed (a : Animator) : Q := animationSpeed a.

(** [generateCompletedCurve(curve, style, cellW, cellH)]. *)
Definition generateCompletedCurve (curve : MirrorCurve)
  (style : String.string) (cellW cellH : Q) : CompletedCurve :=
  if String.eqb style "curved"
  then mkCompletedCurve curve true
         (Some (calculatePathPoints curve cellW cellH "curved"))
  else mkCompletedCurve curve false None.

(** [startAnimation()]; [h] is the handle of the frame it requests. *)
Definition startAnimation (h : nat) (a : Animator) : Animator * list Event :=
  if isAnimating a then (a, [])
  else
    match queue a with
    | [] => (a, [])
    | curve :: rest =>
        (mkAnimator rest (completeCallback a) true (Some h) (Some curve) 0
           (animationSpeed a) 0,
         [clearAnimationPath; requestAnimationFrame])
    end.

(** [cancelAnimation()]. *)
Definition cancelAnimation (a : Animator) : Animator * list Event :=
  (mkAnimator [] (completeCallback a) false (animationFrame a)
     (currentCurve a) (animationStartTime a) (animationSpeed a)
     (currentPathLength a),
   if truthyHandle (animationFrame a)
   then [cancelAnimationFrame (animationFrame a)] else []).

(** [clearAllAnimations()]. *)
Definition clearAllAnimations (a : Animator) : Animator * list Event :=
  (mkAnimator [] (completeCallback a) false (animationFrame a) None 0
     (animationSpeed a) 0,
   (if truthyHandle (animationFrame a)
    then [cancelAnimationFrame (animationFrame a)] else [])
   ++ [clearAnimationPath]).

Section Frames.

(** [Math.sqrt]. *)
Variable sqrt : Q -> Q.

(** [animatePath(progress)]: the event it emits, if any. *)
Definition animatePath (progress : Q) (cellSize : option Q)
  (style : String.string) (a : Animator) : list Event :=
  match currentCurve a with
  | None => []
  | Some curve =>
      match cellSize with
      | None => []
      | Some size =>
          if Qeq_bool size 0 then []
          else
            let pathPoints := calculatePathPoints curve size size style in
            if length pathPoints <? 2 then []
            else
              let totalLength :=
                calculatePathLength sqrt pathPoints (isClosed curve) in
              if Qle_bool totalLength 0 then []
              else
                let currentDistance := (progress * totalLength)%Q in
                let s := getPointAtDistance sqrt pathPoints currentDistance
                           (isClosed curve) in
                [updateAnimationPath
                   (map Some (firstn (segmentIndex s + 1) pathPoints)
                    ++ [point s])
                   style]
      end
  end.

(** [animationStep(timestamp)]; [h] is the handle of the frame it requests,
    if it requests one. *)
Definition animationStep (timestamp : Q) (cellSize : option Q)
  (style : String.string) (h : nat) (a : Animator)
  : option (Animator * list Event) :=
  match isAnimating a, currentCurve a with
  | true, Some curve =>
      match cellSize with
      | None => None
      | Some size =>
          let a1 :=
            if Qeq_bool (animationStartTime a) 0
            then mkAnimator (queue a) (completeCallback a) (isAnimating a)
                   (animationFrame a) (currentCurve a) timestamp
                   (animationSpeed a)
                   (calculatePathLength sqrt
                      (calculatePathPoints curve size size style)
                      (isClosed curve))
            else a in
          if Qeq_bool (animationSpeed a1) 0
             || Qeq_bool (currentPathLength a1) 0
          then None
          else
            let elapsed := (timestamp - animationStartTime a1)%Q in
            let calculatedDuration :=
              (currentPathLength a1 / animationSpeed a1 * 1000)%Q in
            let progress := Qmin (elapsed / calculatedDuration) 1 in
            let drawn := animatePath progress cellSize style a1 in
            if Qle_bool 1 progress
            then
              let completedCurve :=
                generateCompletedCurve curve style size size in
              let sent :=
                drawn ++ [addCompletedCurve completedCurve; clearAnimationPath]
              in
              match queue a1 with
              | next :: rest =>
                  Some (mkAnimator rest (completeCallback a1) (isAnimating a1)
                          (Some h) (Some next) 0 (animationSpeed a1) 0,
                        sent ++ [requestAnimationFrame])
              | [] =>
                  Some (mkAnimator [] (completeCallback a1) false
                          (animationFrame a1) (currentCurve a1)
                          (animationStartTime a1) (animationSpeed a1)
                          (currentPathLength a1),
                        sent ++ [cancelAnimationFrame (animationFrame a1)]
                        ++ match completeCallback a1 with
                           | Some cb => [callComplete cb]
                           | None => []
                           end)
              end
            else
              Some (mkAnimator (queue a1) (completeCallback a1)
                      (isAnimating a1) (Some h) (currentCurve a1)
                      (animationStartTime a1) (animationSpeed a1)
                      (currentPathLength a1),
                    drawn ++ [requestAnimationFrame])
      end
  | _, _ =>
      Some (mkAnimator (queue a) (completeCallback a) false (animationFrame a)
              (currentCurve a) (animationStartTime a) (animationSpeed a)
              (currentPathLength a),
            [cancelAnimationFrame (animationFrame a)])
  end.

(** A call of the module from outside: by the state container, by a
    control, or by the browser for a requested frame. *)
Inductive Call : Type :=
| EnqueueCurve (curve : MirrorCurve)
| StartAnimation (h : nat)
| AnimationStep (timestamp : Q) (cellSize : option Q) (style : String.string)
    (h : nat)
| OnComplete (cb : option nat)
| SetAnimationSpeed (speed : Q)
| CancelAnimation
| ClearAllAnimations.

Definition call (c : Call) (a : Animator) : option (Animator * list Event) :=
  match c with
  | EnqueueCurve curve => Some (enqueueCurve curve a, [])
  | StartAnimation h => Some (startAnimation h a)
  | AnimationStep timestamp cellSize style h =>
      animationStep timestamp cellSize style h a
  | OnComplete cb => Some (onComplete cb a, [])
  | SetAnimationSpeed speed => Some (setAnimationSpeed speed a, [])
  | CancelAnimation => Some (cancelAnimation a)
  | ClearAllAnimations => Some (clearAllAnimations a)
  end.

(** A sequence of calls, with everything sent out, in order. *)
Fixpoint calls (cs : list Call) (a : Animator)
  : option (Animator * list Event) :=
  match cs with
  | [] => Some (a, [])
  | c :: rest =>
      match call c a with
      | None => None
      | Some (a1, sent1) =>
          match calls rest a1 with
          | None => None
          | Some (a2, sent2) => Some (a2, sent1 ++ sent2)
          end
      end
  end.

End Frames.


(** The curves of the [addCompletedCurve] events, in order. *)
Definition completedIn (sent : list Event) : list MirrorCurve :=
  flat_map (fun e => match e with
                     | addCompletedCurve c => [sourceCurve c]
                     | _ => []
                     end) sent.



End Anim.

(** The state in which nothing is animated and nothing waits. *)
Definition idleAnimator (a : Anim.Animator) : Prop :=
  Anim.queue a = [] /\ Anim.isAnimating a = false.

(** An event that shows or completes no curve and calls no callback. *)
Definition quietEvent (e : Anim.Event) : Prop :=
  match e with
  | Anim.clearAnimationPath | Anim.cancelAnimationFrame _ => True
  | _ => False
  end.

Definition isEnqueue (c : Anim.Call) : bool :=
  match c with Anim.EnqueueCurve _ => true | _ => false end.

(** ** Basic facts: equality tests and maps *)

Ltac splits := repeat match goal with |- _ /\ _ => split end.

Lemma Direction_eqb_eq (a b : Direction) : Direction_eqb a b = true <-> a = b.
Proof. destruct a, b; cbv; split; congruence. Qed.

Lemma Direction_eqb_refl (a : Direction) : Direction_eqb a a = true.
Proof. now apply Direction_eqb_eq. Qed.

Lemma Direction_eqb_neq (a b : Direction) : Direction_eqb a b = false <-> a <> b.
Proof.
  rewrite <- Direction_eqb_eq. destruct (Direction_eqb a b); split; congruence.
Qed.

Lemma IdTag_eqb_eq (a b : IdTag) : IdTag_eqb a b = true <-> a = b.
Proof. destruct a, b; cbv; split; congruence. Qed.

Lemma GridLineId_eqb_eq (a b : GridLineId) : GridLineId_eqb a b = true <-> a = b.
Proof.
  destruct a as [ta ra ca], b as [tb rb cb]; unfold GridLineId_eqb; simpl.
  rewrite !andb_true_iff, IdTag_eqb_eq, !Nat.eqb_eq.
  split; [intros [[-> ->] ->]; reflexivity | intros H; inversion H; auto].
Qed.

Lemma GridLineId_eqb_refl (a : GridLineId) : GridLineId_eqb a a = true.
Proof. now apply GridLineId_eqb_eq. Qed.

Lemma GridLineId_eqb_neq (a b : GridLineId) :
  GridLineId_eqb a b = false <-> a <> b.
Proof.
  rewrite <- GridLineId_eqb_eq.
  destruct (GridLineId_eqb a b); split; congruence.
Qed.

Lemma GridLineId_eq_dec (a b : GridLineId) : {a = b} + {a <> b}.
Proof.
  destruct (GridLineId_eqb a b) eqn:E.
  - left; now apply GridLineId_eqb_eq.
  - right; now apply GridLineId_eqb_neq.
Qed.

Lemma Direction_eq_dec (a b : Direction) : {a = b} + {a <> b}.
Proof. decide equality. Qed.

Section JsMapFacts.
Variables K V : Type.
Variable eqb : K -> K -> bool.
Hypothesis eqb_eq : forall a b, eqb a b = true <-> a = b.

Let get := JsMap.get (V:=V) eqb.
Let set := JsMap.set (V:=V) eqb.

Lemma eqb_refl' (a : K) : eqb a a = true.
Proof. now apply eqb_eq. Qed.

Lemma get_set_same (m : JsMap.t K V) k v : get (set m k v) k = Some v.
Proof.
  induction m as [|[k' v'] m IH]; simpl.
  - now rewrite eqb_refl'.
  - destruct (eqb k k') eqn:E; simpl; rewrite E; auto.
Qed.

Lemma get_set_other (m : JsMap.t K V) k k' v :
  k <> k' -> get (set m k v) k' = get m k'.
Proof.
  intros Hne. induction m as [|[k0 v0] m IH]; simpl.
  - destruct (eqb k' k) eqn:E; auto. apply eqb_eq in E; congruence.
  - destruct (eqb k k0) eqn:E; simpl.
    + apply eqb_eq in E; subst k0.
      destruct (eqb k' k) eqn:E'; auto. apply eqb_eq in E'; congruence.
    + now rewrite IH.
Qed.

Lemma get_set (m : JsMap.t K V) k k' v :
  get (set m k v) k' = if eqb k' k then Some v else get m k'.
Proof.
  destruct (eqb k' k) eqn:E.
  - apply eqb_eq in E; subst; apply get_set_same.
  - apply get_set_other. intros ->. now rewrite eqb_refl' in E.
Qed.

Lemma get_None_notin (m : JsMap.t K V) k :
  get m k = None <-> ~ In k (JsMap.keys m).
Proof.
  induction m as [|[k' v'] m IH]; simpl.
  - tauto.
  - destruct (eqb k k') eqn:E.
    + apply eqb_eq in E; subst. split; [discriminate | tauto].
    + rewrite IH. split; [|tauto]. intros H [->|H']; auto.
      now rewrite eqb_refl' in E.
Qed.

Lemma get_Some_in (m : JsMap.t K V) k v : get m k = Some v -> In (k, v) m.
Proof.
  induction m as [|[k' v'] m IH]; simpl; [discriminate|].
  destruct (eqb k k') eqn:E.
  - apply eqb_eq in E; subst. intros [= ->]; auto.
  - auto.
Qed.

Lemma in_get_Some (m : JsMap.t K V) k v :
  NoDup (JsMap.keys m) -> In (k, v) m -> get m k = Some v.
Proof.
  induction m as [|[k' v'] m IH]; simpl; [tauto|].
  intros Hnd [H|H].
  - inversion H; subst. now rewrite eqb_refl'.
  - inversion Hnd as [|? ? Hnot Hnd']; subst.
    destruct (eqb k k') eqn:E.
    + apply eqb_eq in E; subst. exfalso; apply Hnot.
      change k' with (fst (k', v)). now apply in_map.
    + auto.
Qed.

Lemma keys_set_present (m : JsMap.t K V) k v :
  In k (JsMap.keys m) -> JsMap.keys (set m k v) = JsMap.keys m.
Proof.
  induction m as [|[k' v'] m IH]; simpl; [tauto|].
  intros H. destruct (eqb k k') eqn:E; simpl; auto.
  f_equal. apply IH. destruct H as [->|H]; auto.
  now rewrite eqb_refl' in E.
Qed.

Lemma set_absent (m : JsMap.t K V) k v :
  ~ In k (JsMap.keys m) -> set m k v = m ++ [(k, v)].
Proof.
  induction m as [|[k' v'] m IH]; simpl; auto.
  intros H. destruct (eqb k k') eqn:E.
  - apply eqb_eq in E; subst; tauto.
  - f_equal. apply IH. tauto.
Qed.

Lemma fold_set_fresh (kvs m : JsMap.t K V) :
  NoDup (JsMap.keys (m ++ kvs)) ->
  fold_left (fun acc kv => set acc (fst kv) (snd kv)) kvs m = m ++ kvs.
Proof.
  revert m. induction kvs as [|[k v] kvs IH]; intros m Hnd; simpl.
  - now rewrite app_nil_r.
  - rewrite set_absent.
    + rewrite IH; rewrite <- app_assoc; auto.
    + unfold JsMap.keys in Hnd. rewrite map_app in Hnd. simpl in Hnd.
      apply NoDup_remove_2 in Hnd. intros Hin. apply Hnd.
      apply in_or_app; now left.
Qed.

End JsMapFacts.

Arguments get_set_same {K V eqb} eqb_eq m k v.
Arguments get_set_other {K V eqb} eqb_eq m k k' v _.
Arguments get_set {K V eqb} eqb_eq m k k' v.
Arguments get_None_notin {K V eqb} eqb_eq m k.
Arguments get_Some_in {K V eqb} eqb_eq m k [v] _.
Arguments in_get_Some {K V eqb} eqb_eq m k v _ _.
Arguments keys_set_present {K V eqb} eqb_eq m k v _.
Arguments set_absent {K V eqb} eqb_eq m k v _.
Arguments fold_set_fresh {K V eqb} eqb_eq kvs m _.

(** ** Reflection (claim C3) *)

(** C3. For a grid line [e] stored under [id]: if [e] is not a mirror the
    reflected direction is the incoming one; a horizontal mirror swaps
    NW <-> SW and NE <-> SE; a vertical mirror swaps NW <-> NE and SW <-> SE;
    and any other line (of any grid, at any row and column) with the same
    orientation and mirror flag reflects every direction the same way. *)
Theorem getReflectedDirection_orientation_only :
  forall (g : Grid) (id : GridLineId) (e : GridLine),
    getGridLine g id = Some e ->
    (isMirror e = false ->
       forall d, getReflectedDirection g id d = d)
    /\ (isMirror e = true -> line_type e = horizontal ->
          getReflectedDirection g id NW = SW
          /\ getReflectedDirection g id SW = NW
          /\ getReflectedDirection g id NE = SE
          /\ getReflectedDirection g id SE = NE)
    /\ (isMirror e = true -> line_type e = vertical ->
          getReflectedDirection g id NW = NE
          /\ getReflectedDirection g id NE = NW
          /\ getReflectedDirection g id SW = SE
          /\ getReflectedDirection g id SE = SW)
    /\ (forall (g' : Grid) (id' : GridLineId) (e' : GridLine),
          getGridLine g' id' = Some e' ->
          line_type e' = line_type e ->
          isMirror e' = isMirror e ->
          forall d,
            getReflectedDirection g' id' d = getReflectedDirection g id d).
Proof.
  intros g id e He. unfold getReflectedDirection. rewrite He.
  repeat split.
  - intros Hm d. now rewrite Hm.
  - rewrite H, H0; reflexivity.
  - rewrite H, H0; reflexivity.
  - rewrite H, H0; reflexivity.
  - rewrite H, H0; reflexivity.
  - rewrite H, H0; reflexivity.
  - rewrite H, H0; reflexivity.
  - rewrite H, H0; reflexivity.
  - rewrite H, H0; reflexivity.
  - intros g' id' e' He' Ht Hm d. rewrite He', Ht, Hm. reflexivity.
Qed.

(** ** The constructed grid *)

Lemma lineOf_conn nrows ncols id d :
  conn_get (connections (lineOf nrows ncols id)) d = neighbor nrows ncols id d.
Proof.
  destruct id as [t row col]. unfold lineOf, neighbor, computeConnections_line.
  destruct t, d; simpl;
    repeat match goal with
           | |- context [?a <? ?b] => destruct (a <? b)
           end; reflexivity.
Qed.

Lemma in_horizontalIds nrows ncols id :
  In id (horizontalIds nrows ncols) <->
  idTag id = tag_h /\ idRow id <= nrows /\ idCol id < ncols.
Proof.
  unfold horizontalIds. rewrite in_flat_map. split.
  - intros (row & Hrow & Hin). apply in_map_iff in Hin.
    destruct Hin as (col & <- & Hcol). apply in_seq in Hrow, Hcol. simpl.
    split; [reflexivity | lia].
  - intros (Ht & Hr & Hc). exists (idRow id). split; [apply in_seq; lia|].
    apply in_map_iff. exists (idCol id). split; [|apply in_seq; lia].
    destruct id; simpl in *; now subst.
Qed.

Lemma in_verticalIds nrows ncols id :
  In id (verticalIds nrows ncols) <->
  idTag id = tag_v /\ idRow id < nrows /\ idCol id <= ncols.
Proof.
  unfold verticalIds. rewrite in_flat_map. split.
  - intros (row & Hrow & Hin). apply in_map_iff in Hin.
    destruct Hin as (col & <- & Hcol). apply in_seq in Hrow, Hcol. simpl.
    split; [reflexivity | lia].
  - intros (Ht & Hr & Hc). exists (idRow id). split; [apply in_seq; lia|].
    apply in_map_iff. exists (idCol id). split; [|apply in_seq; lia].
    destruct id; simpl in *; now subst.
Qed.

Lemma in_allIds nrows ncols id :
  In id (allIds nrows ncols) <-> validId nrows ncols id.
Proof.
  unfold allIds, validId. rewrite in_app_iff, in_horizontalIds, in_verticalIds.
  destruct (idTag id); intuition congruence.
Qed.

Lemma NoDup_flat_map_disjoint (A B : Type) (f : A -> list B) (l : list A) :
  NoDup l ->
  (forall a, In a l -> NoDup (f a)) ->
  (forall a a' b, In a l -> In a' l -> In b (f a) -> In b (f a') -> a = a') ->
  NoDup (flat_map f l).
Proof.
  induction l as [|a l IH]; simpl; intros Hnd Hf Hdisj; [constructor|].
  inversion Hnd as [|? ? Hnotin Hnd']; subst.
  apply NoDup_app; repeat split.
  - apply Hf; auto.
  - apply IH; auto. intros; eapply Hdisj; eauto.
  - intros b Hb Hb'. apply in_flat_map in Hb'. destruct Hb' as (a' & Ha' & Hb').
    assert (a = a') by (eapply Hdisj; eauto). subst; auto.
Qed.

Lemma NoDup_rowcol_ids (t : IdTag) (rowsL colsL : list nat) :
  NoDup rowsL -> NoDup colsL ->
  NoDup (flat_map (fun row => map (fun col => mkId t row col) colsL) rowsL).
Proof.
  intros Hr Hc. apply NoDup_flat_map_disjoint; auto.
  - intros row _. apply Finite.Injective_map_NoDup; auto.
    intros c1 c2 H; now inversion H.
  - intros r1 r2 b _ _ H1 H2. apply in_map_iff in H1, H2.
    destruct H1 as (c1 & <- & _), H2 as (c2 & H2 & _). now inversion H2.
Qed.

Lemma NoDup_allIds nrows ncols : NoDup (allIds nrows ncols).
Proof.
  unfold allIds. apply NoDup_app; repeat split.
  - apply NoDup_rowcol_ids; apply seq_NoDup.
  - apply NoDup_rowcol_ids; apply seq_NoDup.
  - intros id H1 H2. apply in_horizontalIds in H1. apply in_verticalIds in H2.
    destruct H1 as [H1 _], H2 as [H2 _]. congruence.
Qed.

(** The nested creation loops visit the ids in the order of [allIds]. *)
Lemma for_range_nested (S : Type) (n m : nat) (f : nat -> nat -> S -> S) (s : S) :
  for_range 0 n (fun row s' => for_range 0 m (fun col s'' => f row col s'') s') s
  = fold_left (fun acc rc => f (fst rc) (snd rc) acc)
      (flat_map (fun row => map (fun col => (row, col)) (seq 0 m)) (seq 0 n)) s.
Proof.
  unfold for_range. rewrite !Nat.sub_0_r.
  generalize (seq 0 n) as rowsL. intros rowsL; revert s.
  induction rowsL as [|row rowsL IH]; intros s; simpl; auto.
  rewrite fold_left_app, <- IH. f_equal.
  generalize (seq 0 m) as colsL. intros colsL; revert s.
  induction colsL as [|col colsL IHc]; intros s; simpl; auto.
Qed.

Lemma fold_create_lines (t : IdTag) (L : list (nat * nat)) (g : Grid) :
  gridLines
    (fold_left (fun acc rc =>
        let id := generateGridLineId t (fst rc) (snd rc) in
        with_gridLines acc
          (JsMap.set GridLineId_eqb (gridLines acc) id
             (newLine (typeOfTag t) id (fst rc) (snd rc)))) L g)
  = fold_left (fun acc kv => JsMap.set GridLineId_eqb acc (fst kv) (snd kv))
      (map (fun rc => entryOf freshLine (mkId t (fst rc) (snd rc))) L)
      (gridLines g)
  /\ rows (fold_left (fun acc rc =>
        let id := generateGridLineId t (fst rc) (snd rc) in
        with_gridLines acc
          (JsMap.set GridLineId_eqb (gridLines acc) id
             (newLine (typeOfTag t) id (fst rc) (snd rc)))) L g) = rows g
  /\ cols (fold_left (fun acc rc =>
        let id := generateGridLineId t (fst rc) (snd rc) in
        with_gridLines acc
          (JsMap.set GridLineId_eqb (gridLines acc) id
             (newLine (typeOfTag t) id (fst rc) (snd rc)))) L g) = cols g
  /\ usedDirections (fold_left (fun acc rc =>
        let id := generateGridLineId t (fst rc) (snd rc) in
        with_gridLines acc
          (JsMap.set GridLineId_eqb (gridLines acc) id
             (newLine (typeOfTag t) id (fst rc) (snd rc)))) L g)
     = usedDirections g.
Proof.
  revert g. induction L as [|[r c] L IH]; intros g; simpl; auto.
  destruct (IH (with_gridLines g
                  (JsMap.set GridLineId_eqb (gridLines g)
                     (generateGridLineId t r c)
                     (newLine (typeOfTag t) (generateGridLineId t r c) r c))))
    as (H1 & H2 & H3 & H4).
  simpl in *. rewrite H1, H2, H3, H4. auto.
Qed.

Lemma map_rowcol_ids (t : IdTag) (rowsL colsL : list nat) :
  map (fun rc => entryOf freshLine (mkId t (fst rc) (snd rc)))
    (flat_map (fun row => map (fun col => (row, col)) colsL) rowsL)
  = map (entryOf freshLine)
      (flat_map (fun row => map (fun col => mkId t row col) colsL) rowsL).
Proof.
  induction rowsL as [|row rowsL IH]; simpl; auto.
  rewrite !map_app, IH, !map_map. reflexivity.
Qed.

Lemma keys_entryOf f ids : JsMap.keys (map (entryOf f) ids) = ids.
Proof.
  unfold JsMap.keys. rewrite map_map. simpl. apply map_id.
Qed.

Lemma initializeGridLines_empty nrows ncols u :
  let g := initializeGridLines (mkGrid nrows ncols (JsMap.empty _ _) u) in
  gridLines g = map (entryOf freshLine) (allIds nrows ncols)
  /\ rows g = nrows /\ cols g = ncols /\ usedDirections g = u.
Proof.
  set (g0 := mkGrid nrows ncols (JsMap.empty _ _) u).
  unfold initializeGridLines.
  rewrite !for_range_nested.
  change (rows g0) with nrows. change (cols g0) with ncols.
  pose proof (fold_create_lines tag_h
    (flat_map (fun row => map (fun col => (row, col)) (seq 0 ncols))
       (seq 0 (nrows + 1))) g0) as (H1 & H2 & H3 & H4).
  cbn [typeOfTag] in *.
  set (g1 := fold_left _ _ g0) in *.
  pose proof (fold_create_lines tag_v
    (flat_map (fun row => map (fun col => (row, col)) (seq 0 (ncols + 1)))
       (seq 0 nrows)) g1) as (K1 & K2 & K3 & K4).
  cbn [typeOfTag] in *.
  set (g2 := fold_left _ _ g1) in *.
  cbn zeta. rewrite K1, K2, K3, K4, H1, H2, H3, H4.
  subst g0; cbn [gridLines rows cols usedDirections].
  repeat split; auto.
  rewrite !map_rowcol_ids.
  assert (Hnd := NoDup_allIds nrows ncols). unfold allIds in Hnd.
  fold (horizontalIds nrows ncols). fold (verticalIds nrows ncols).
  unfold JsMap.empty.
  rewrite (@fold_set_fresh _ _ _ GridLineId_eqb_eq
             (map (entryOf freshLine) (horizontalIds nrows ncols)) []).
  2:{ rewrite app_nil_l, keys_entryOf. now apply NoDup_app_remove_r in Hnd. }
  rewrite app_nil_l.
  rewrite (@fold_set_fresh _ _ _ GridLineId_eqb_eq).
  2:{ rewrite <- map_app, keys_entryOf. exact Hnd. }
  unfold allIds. now rewrite map_app.
Qed.

Lemma for_range_map (S : Type) (n : nat) (f : nat -> GridLineId)
  (op : S -> GridLineId -> S) (s : S) :
  for_range 0 n (fun i acc => op acc (f i)) s
  = fold_left op (map f (seq 0 n)) s.
Proof.
  unfold for_range. rewrite Nat.sub_0_r.
  generalize (seq 0 n) as L. intros L; revert s.
  induction L as [|i L IH]; intros s; simpl; auto.
Qed.

Lemma keys_map_snd (f : GridLineId * GridLine -> GridLine) m :
  JsMap.keys (map (fun e => (fst e, f e)) m) = JsMap.keys m.
Proof. unfold JsMap.keys. rewrite map_map. reflexivity. Qed.

Lemma get_map_snd (f : GridLine -> GridLine) (m : JsMap.t GridLineId GridLine) id :
  JsMap.get GridLineId_eqb (map (fun e => (fst e, f (snd e))) m) id
  = option_map f (JsMap.get GridLineId_eqb m id).
Proof.
  induction m as [|[k v] m IH]; simpl; auto.
  destruct (GridLineId_eqb id k); auto.
Qed.

Lemma memId_In id ids : memId id ids = true <-> In id ids.
Proof.
  unfold memId. rewrite existsb_exists. split.
  - intros (k & Hk & E). apply GridLineId_eqb_eq in E. now subst.
  - intros H. exists id. split; auto. apply GridLineId_eqb_refl.
Qed.

Lemma get_entryOf f ids id :
  JsMap.get GridLineId_eqb (map (entryOf f) ids) id
  = if memId id ids then Some (f id) else None.
Proof.
  induction ids as [|k ids IH]; simpl; auto.
  destruct (GridLineId_eqb id k) eqn:E; simpl; auto.
  apply GridLineId_eqb_eq in E; now subst.
Qed.

(** *** [setMirror] *)

Lemma setMirror_rows g id b : rows (setMirror g id b) = rows g.
Proof. unfold setMirror. destruct (getGridLine g id); reflexivity. Qed.

Lemma setMirror_cols g id b : cols (setMirror g id b) = cols g.
Proof. unfold setMirror. destruct (getGridLine g id); reflexivity. Qed.

Lemma setMirror_used g id b : usedDirections (setMirror g id b) = usedDirections g.
Proof. unfold setMirror. destruct (getGridLine g id); reflexivity. Qed.

Lemma setMirror_keys g id b :
  JsMap.keys (gridLines (setMirror g id b)) = JsMap.keys (gridLines g).
Proof.
  unfold setMirror, getGridLine.
  destruct (JsMap.get GridLineId_eqb (gridLines g) id) eqn:E; auto.
  simpl. apply (keys_set_present GridLineId_eqb_eq).
  destruct (in_dec GridLineId_eq_dec id (JsMap.keys (gridLines g))); auto.
  apply (get_None_notin GridLineId_eqb_eq) in n. congruence.
Qed.

Lemma setMirror_get g id b id' :
  getGridLine (setMirror g id b) id'
  = if GridLineId_eqb id' id
    then option_map (fun l => line_setMirror l b) (getGridLine g id)
    else getGridLine g id'.
Proof.
  unfold setMirror, getGridLine.
  destruct (JsMap.get GridLineId_eqb (gridLines g) id) eqn:E; simpl.
  - apply (get_set GridLineId_eqb_eq).
  - destruct (GridLineId_eqb id' id) eqn:E'; auto.
    apply GridLineId_eqb_eq in E'; subst. exact E.
Qed.

Lemma setMirrorsTrue_proj ids g :
  rows (setMirrorsTrue ids g) = rows g
  /\ cols (setMirrorsTrue ids g) = cols g
  /\ usedDirections (setMirrorsTrue ids g) = usedDirections g
  /\ JsMap.keys (gridLines (setMirrorsTrue ids g)) = JsMap.keys (gridLines g).
Proof.
  revert g. induction ids as [|a ids IH]; intros g; simpl; auto.
  destruct (IH (setMirror g a true)) as (H1 & H2 & H3 & H4).
  unfold setMirrorsTrue in *.
  rewrite H1, H2, H3, H4, setMirror_rows, setMirror_cols, setMirror_used,
    setMirror_keys. auto.
Qed.

Lemma setMirrorsTrue_get ids g id :
  getGridLine (setMirrorsTrue ids g) id
  = option_map (fun l => if memId id ids then line_setMirror l true else l)
      (getGridLine g id).
Proof.
  revert g. induction ids as [|a ids IH]; intros g.
  - simpl. destruct (getGridLine g id); reflexivity.
  - change (setMirrorsTrue (a :: ids) g)
      with (setMirrorsTrue ids (setMirror g a true)).
    rewrite IH, setMirror_get. simpl.
    destruct (GridLineId_eqb id a) eqn:E; simpl.
    + apply GridLineId_eqb_eq in E; subst a.
      destruct (getGridLine g id) as [l|]; simpl; auto.
      destruct (memId id ids); reflexivity.
    + destruct (getGridLine g id) as [l|]; simpl; auto.
Qed.

Lemma placeBoundaryMirrors_visits g :
  placeBoundaryMirrors g = setMirrorsTrue (boundaryVisits (rows g) (cols g)) g.
Proof.
  unfold placeBoundaryMirrors, boundaryVisits, setMirrorsTrue, generateGridLineId.
  rewrite !fold_left_app.
  rewrite <- !(@for_range_map Grid _ _ (fun acc id => setMirror acc id true)).
  reflexivity.
Qed.

Lemma in_boundaryVisits nrows ncols id :
  validId nrows ncols id ->
  (In id (boundaryVisits nrows ncols) <-> boundaryId nrows ncols id = true).
Proof.
  unfold validId, boundaryId, boundaryVisits. destruct id as [t row col]; simpl.
  rewrite !in_app_iff, !in_map_iff.
  intros Hv. split.
  - intros [H|[H|[H|H]]]; destruct H as (k & Hk & Hin); inversion Hk; subst;
      rewrite ?Nat.eqb_refl, ?orb_true_r; reflexivity.
  - destruct t; rewrite orb_true_iff, !Nat.eqb_eq; intros [->| ->].
    + left. exists col. split; auto. apply in_seq; lia.
    + right; left. exists col. split; auto. apply in_seq; lia.
    + right; right; left. exists row. split; auto. apply in_seq; lia.
    + right; right; right. exists row. split; auto. apply in_seq; lia.
Qed.

Lemma lineShape_setMirror nrows ncols id l b :
  lineShape nrows ncols id l -> lineShape nrows ncols id (line_setMirror l b).
Proof. unfold lineShape; simpl; auto. Qed.

Lemma lineOf_shape nrows ncols id : lineShape nrows ncols id (lineOf nrows ncols id).
Proof.
  unfold lineShape, lineOf, computeConnections_line, freshLine.
  destruct id as [t row col]; destruct t; simpl;
    repeat match goal with
           | |- context [?a <? ?b] => destruct (a <? b)
           end; simpl; auto.
Qed.

Lemma getGridLine_valid g id l :
  GridShape g -> getGridLine g id = Some l -> validId (rows g) (cols g) id.
Proof.
  intros [Hk _] H. apply in_allIds. rewrite <- Hk.
  destruct (in_dec GridLineId_eq_dec id (JsMap.keys (gridLines g))); auto.
  apply (get_None_notin GridLineId_eqb_eq) in n. unfold getGridLine in H.
  congruence.
Qed.

Lemma valid_getGridLine g id :
  GridShape g -> validId (rows g) (cols g) id ->
  exists l, getGridLine g id = Some l.
Proof.
  intros [Hk _] H. apply in_allIds in H. rewrite <- Hk in H.
  unfold getGridLine. destruct (JsMap.get GridLineId_eqb (gridLines g) id) eqn:E.
  - eauto.
  - apply (get_None_notin GridLineId_eqb_eq) in E. contradiction.
Qed.

Lemma GridShape_NoDup g : GridShape g -> NoDup (JsMap.keys (gridLines g)).
Proof. intros [Hk _]. rewrite Hk. apply NoDup_allIds. Qed.

Lemma GridShape_entry g id l :
  GridShape g -> In (id, l) (gridLines g) -> getGridLine g id = Some l.
Proof.
  intros Hs Hin. apply (in_get_Some GridLineId_eqb_eq); auto.
  now apply GridShape_NoDup.
Qed.

Lemma setMirror_shape g id b : GridShape g -> GridShape (setMirror g id b).
Proof.
  intros Hs. destruct Hs as [Hk Hl]. constructor.
  - now rewrite setMirror_keys, setMirror_rows, setMirror_cols.
  - intros id' l. rewrite setMirror_get, setMirror_rows, setMirror_cols.
    destruct (GridLineId_eqb id' id) eqn:E.
    + apply GridLineId_eqb_eq in E; subst.
      destruct (getGridLine g id) eqn:G; simpl; [|discriminate].
      intros [= <-]. apply lineShape_setMirror; auto.
    + auto.
Qed.

(** *** [computeConnections] and [placeBoundaryMirrors] on the fresh lines *)

Lemma computeConnections_fresh g ids :
  gridLines g = map (entryOf freshLine) ids ->
  gridLines (computeConnections g)
  = map (entryOf (lineOf (rows g) (cols g))) ids.
Proof.
  intros H. unfold computeConnections. simpl. rewrite H, map_map.
  apply map_ext. intros id. reflexivity.
Qed.

Lemma initializeUsedDirections_proj g :
  rows (initializeUsedDirections g) = rows g
  /\ cols (initializeUsedDirections g) = cols g
  /\ gridLines (initializeUsedDirections g) = gridLines g.
Proof. unfold initializeUsedDirections; simpl; auto. Qed.

Lemma newGrid_lines nrows ncols :
  let g := newGrid nrows ncols in
  rows g = nrows /\ cols g = ncols
  /\ JsMap.keys (gridLines g) = allIds nrows ncols
  /\ forall id,
       getGridLine g id
       = if memId id (allIds nrows ncols)
         then Some (builtLine nrows ncols id) else None.
Proof.
  unfold newGrid.
  destruct (initializeGridLines_empty nrows ncols (JsMap.empty _ _))
    as (H1 & H2 & H3 & H4).
  set (g1 := initializeGridLines _) in *.
  pose proof (computeConnections_fresh g1 _ H1) as H5.
  set (g2 := computeConnections g1) in *.
  assert (R2 : rows g2 = nrows) by (subst g2; simpl; auto).
  assert (C2 : cols g2 = ncols) by (subst g2; simpl; auto).
  rewrite H2, H3 in H5.
  rewrite placeBoundaryMirrors_visits, R2, C2.
  destruct (setMirrorsTrue_proj (boundaryVisits nrows ncols) g2)
    as (P1 & P2 & P3 & P4).
  destruct (initializeUsedDirections_proj
              (setMirrorsTrue (boundaryVisits nrows ncols) g2))
    as (Q1 & Q2 & Q3).
  cbn zeta. unfold getGridLine. rewrite Q1, Q2, Q3, P1, P2, P4, H5.
  repeat split; auto.
  - apply keys_entryOf.
  - intros id. fold (getGridLine (setMirrorsTrue (boundaryVisits nrows ncols) g2) id).
    rewrite setMirrorsTrue_get. unfold getGridLine. rewrite H5, get_entryOf.
    destruct (memId id (allIds nrows ncols)); reflexivity.
Qed.

Lemma builtLine_shape nrows ncols id : lineShape nrows ncols id (builtLine nrows ncols id).
Proof.
  unfold builtLine. destruct (memId _ _).
  - apply lineShape_setMirror, lineOf_shape.
  - apply lineOf_shape.
Qed.

Lemma newGrid_shape nrows ncols : GridShape (newGrid nrows ncols).
Proof.
  destruct (newGrid_lines nrows ncols) as (R & C & K & G).
  constructor.
  - now rewrite R, C.
  - intros id l. rewrite G, R, C. destruct (memId _ _); [|discriminate].
    intros [= <-]. apply builtLine_shape.
Qed.

Lemma newGrid_boundary nrows ncols : BoundaryMirrors (newGrid nrows ncols).
Proof.
  destruct (newGrid_lines nrows ncols) as (R & C & K & G).
  intros id l. rewrite G, R, C.
  destruct (memId id (allIds nrows ncols)) eqn:Hin; [|discriminate].
  intros [= <-] Hb. unfold builtLine.
  apply memId_In, in_allIds in Hin. apply (in_boundaryVisits _ _ _ Hin) in Hb.
  apply memId_In in Hb. now rewrite Hb.
Qed.

(** ** Connections stay inside the grid (claim C10) *)

Lemma neighbor_valid nrows ncols id d target :
  validId nrows ncols id ->
  neighbor nrows ncols id d = Some target ->
  validId nrows ncols target.
Proof.
  destruct id as [t row col]. unfold validId, neighbor; simpl.
  destruct t, d; simpl; intros Hv;
    repeat match goal with
           | |- context [?a <? ?b] => destruct (Nat.ltb_spec a b); simpl
           end; intros [= <-]; simpl; lia.
Qed.

Lemma GridShape_conn g id l d :
  GridShape g -> getGridLine g id = Some l ->
  conn_get (connections l) d = neighbor (rows g) (cols g) id d.
Proof.
  intros Hs Hl. destruct (shape_lines g Hs _ _ Hl) as (_ & _ & _ & _ & Hc).
  rewrite Hc. apply lineOf_conn.
Qed.

(** C10. In the grid built by [new Grid(nrows, ncols)] with [nrows >= 1] and
    [ncols >= 1], every non-null connection id stored on a grid line is the
    id of a line present in [gridLines]; hence [getAdjacentGridLine] on a
    stored line either signals the grid exit, exactly when the stored
    connection is null, or returns the id of an existing line. *)
Theorem computeConnections_targets_exist :
  forall nrows ncols,
    1 <= nrows -> 1 <= ncols ->
    let g := newGrid nrows ncols in
    forall id line d,
      In (id, line) (gridLines g) ->
      (forall target,
          conn_get (connections line) d = Some target ->
          exists line', getGridLine g target = Some line')
      /\ (getAdjacentGridLine g id d = AdjLeftGrid
          /\ conn_get (connections line) d = None
          \/ exists target line',
               getAdjacentGridLine g id d = AdjReturn (Some target)
               /\ conn_get (connections line) d = Some target
               /\ getGridLine g target = Some line').
Proof.
  intros nrows ncols _ _ g id line d Hin.
  pose proof (newGrid_shape nrows ncols) as Hs. fold g in Hs.
  pose proof (GridShape_entry g _ _ Hs Hin) as Hget.
  assert (Hex : forall target,
             conn_get (connections line) d = Some target ->
             exists line', getGridLine g target = Some line').
  { intros target Hc. apply valid_getGridLine; auto.
    rewrite (GridShape_conn g id line d Hs Hget) in Hc.
    eapply neighbor_valid; eauto. eapply getGridLine_valid; eauto. }
  split; auto.
  unfold getAdjacentGridLine. rewrite Hget.
  destruct (conn_get (connections line) d) as [target|] eqn:Hc.
  - right. destruct (Hex target eq_refl) as [line' Hl']. eauto.
  - left; auto.
Qed.

Lemma computeConnections_targets_exist_witness :
  let g := newGrid 2 3 in
  let id := mkId tag_h 1 2 in
  let line := builtLine 2 3 id in
  In (id, line) (gridLines g)
  /\ (forall target,
        conn_get (connections line) NE = Some target ->
        exists line', getGridLine g target = Some line')
  /\ (getAdjacentGridLine g id NE = AdjLeftGrid
      /\ conn_get (connections line) NE = None
      \/ exists target line',
           getAdjacentGridLine g id NE = AdjReturn (Some target)
           /\ conn_get (connections line) NE = Some target
           /\ getGridLine g target = Some line').
Proof.
  intros g id line.
  assert (Hin : In (id, line) (gridLines g)).
  { apply (get_Some_in GridLineId_eqb_eq). vm_compute. reflexivity. }
  split; [exact Hin|].
  apply (computeConnections_targets_exist 2 3); [lia | lia | exact Hin].
Defined.

Lemma getReflectedDirection_orientation_only_witness :
  let g := newGrid 1 1 in
  let id := mkId tag_h 0 0 in
  let e := builtLine 1 1 id in
  getGridLine g id = Some e
  /\ ((isMirror e = false -> forall d, getReflectedDirection g id d = d)
      /\ (isMirror e = true -> line_type e = horizontal ->
            getReflectedDirection g id NW = SW
            /\ getReflectedDirection g id SW = NW
            /\ getReflectedDirection g id NE = SE
            /\ getReflectedDirection g id SE = NE)
      /\ (isMirror e = true -> line_type e = vertical ->
            getReflectedDirection g id NW = NE
            /\ getReflectedDirection g id NE = NW
            /\ getReflectedDirection g id SW = SE
            /\ getReflectedDirection g id SE = SW)
      /\ (forall (g' : Grid) (id' : GridLineId) (e' : GridLine),
            getGridLine g' id' = Some e' ->
            line_type e' = line_type e ->
            isMirror e' = isMirror e ->
            forall d,
              getReflectedDirection g' id' d = getReflectedDirection g id d)).
Proof.
  intros g id e.
  assert (He : getGridLine g id = Some e) by (vm_compute; reflexivity).
  split; [exact He|].
  exact (getReflectedDirection_orientation_only g id e He).
Defined.

(** ** Operations that leave the lines alone *)

Lemma sameLines_refl g : sameLines g g.
Proof. unfold sameLines; auto. Qed.

Lemma sameLines_trans g1 g2 g3 :
  sameLines g1 g2 -> sameLines g2 g3 -> sameLines g1 g3.
Proof. unfold sameLines; intros (a & b & c) (d & e & f); repeat split; congruence. Qed.

Lemma sameLines_get g g' id : sameLines g g' -> getGridLine g' id = getGridLine g id.
Proof. unfold sameLines, getGridLine; intros (_ & _ & ->); reflexivity. Qed.

Lemma markDirectionUsed_sameLines g id d : sameLines g (markDirectionUsed g id d).
Proof.
  unfold markDirectionUsed, sameLines.
  destruct (JsMap.has _ _ _); simpl; auto.
Qed.

Lemma initializeUsedDirections_sameLines g :
  sameLines g (initializeUsedDirections g).
Proof. unfold sameLines, initializeUsedDirections; simpl; auto. Qed.

Lemma buildCurve_body_sameLines g c l d :
  match buildCurve_body g c l d with
  | Return _ _ g' => sameLines g g'
  | Continue g' _ _ _ => sameLines g g'
  end.
Proof.
  unfold buildCurve_body.
  destruct (getAdjacentGridLine g (line_id l) d) as [[nextLineId|]|];
    try apply sameLines_refl.
  destruct (getGridLine g nextLineId) as [nextGridLine|];
    [|apply sameLines_refl].
  cbv zeta.
  match goal with
  | |- context [markDirectionUsed (markDirectionUsed g ?i ?a) ?j ?b] =>
      assert (Hs : sameLines g (markDirectionUsed (markDirectionUsed g i a) j b))
        by (eapply sameLines_trans; apply markDirectionUsed_sameLines)
  end.
  destruct (_ && _ && _); exact Hs.
Qed.

Lemma buildCurve_loop_sameLines fuel :
  forall g c l d out c' g',
    buildCurve_loop fuel g c l d = (out, c', g') -> sameLines g g'.
Proof.
  induction fuel as [|fuel IH]; intros g c l d out c' g'; simpl.
  - destruct (negb _); intros [= _ _ <-]; apply sameLines_refl.
  - destruct (negb _); [intros [= _ _ <-]; apply sameLines_refl|].
    pose proof (buildCurve_body_sameLines g c l d) as Hb.
    destruct (buildCurve_body g c l d) as [b c1 g1|g1 c1 l1 d1].
    + intros [= _ _ <-]. exact Hb.
    + intros H. apply IH in H. eapply sameLines_trans; eauto.
Qed.

Lemma buildCurve_sameLines fuel c g out c' g' :
  buildCurve fuel c g = (out, c', g') -> sameLines g g'.
Proof.
  unfold buildCurve.
  destruct (curve_gridLines c) as [|l ls];
    [intros [= _ _ <-]; apply sameLines_refl|].
  destruct (curve_directions c) as [|d ds];
    [intros [= _ _ <-]; apply sameLines_refl|].
  intros H. apply buildCurve_loop_sameLines in H.
  eapply sameLines_trans; [apply markDirectionUsed_sameLines | exact H].
Qed.

Lemma findNextCurve_scan_sameLines fuel entries :
  forall g r g',
    findNextCurve_scan fuel entries g = Some (r, g') -> sameLines g g'.
Proof.
  induction entries as [|[id gridLine] rest IH]; intros g r g'; simpl.
  - intros [= _ <-]; apply sameLines_refl.
  - destruct (getUnusedDirections g id) as [|direction ds]; [apply IH|].
    destruct (buildCurve fuel (newMirrorCurve gridLine direction) g)
      as [[out c1] g1] eqn:B.
    apply buildCurve_sameLines in B.
    destruct out as [[|]| |].
    + intros [= _ <-]; exact B.
    + intros H; apply IH in H; eapply sameLines_trans; eauto.
    + intros H; apply IH in H; eapply sameLines_trans; eauto.
    + discriminate.
Qed.

Lemma findNextCurve_sameLines g r g' :
  findNextCurve g = Some (r, g') -> sameLines g g'.
Proof. apply findNextCurve_scan_sameLines. Qed.

Lemma findAllCurves_loop_sameLines fuel :
  forall g cs r g',
    findAllCurves_loop fuel g cs = Some (r, g') -> sameLines g g'.
Proof.
  induction fuel as [|fuel IH]; intros g cs r g'; simpl; [discriminate|].
  destruct (findNextCurve g) as [[[c|] g1]|] eqn:F; [| |discriminate].
  - intros H. apply IH in H. apply findNextCurve_sameLines in F.
    eapply sameLines_trans; eauto.
  - intros [= _ <-]. eapply findNextCurve_sameLines; eauto.
Qed.

Lemma findAllCurves_sameLines fuel g r g' :
  findAllCurves fuel g = Some (r, g') -> sameLines g g'.
Proof.
  unfold findAllCurves, resetUsedDirections. intros H.
  apply findAllCurves_loop_sameLines in H.
  eapply sameLines_trans; [apply initializeUsedDirections_sameLines | exact H].
Qed.

Lemma sameLines_shape g g' : sameLines g g' -> GridShape g -> GridShape g'.
Proof.
  intros (R & C & L) [Hk Hl]. constructor.
  - now rewrite L, R, C.
  - intros id l. unfold getGridLine. rewrite L, R, C. apply Hl.
Qed.

Lemma sameLines_boundary g g' :
  sameLines g g' -> BoundaryMirrors g -> BoundaryMirrors g'.
Proof.
  intros (R & C & L) H id l. unfold getGridLine. rewrite L, R, C. apply H.
Qed.

Lemma isBoundary_shape g id l :
  GridShape g -> getGridLine g id = Some l ->
  isBoundaryGridLine g (Some l) = boundaryId (rows g) (cols g) id.
Proof.
  intros Hs Hl. destruct (shape_lines g Hs id l Hl) as (_ & Ht & Hr & Hc & _).
  unfold isBoundaryGridLine, boundaryId. rewrite Ht, Hr, Hc.
  destruct (idTag id); reflexivity.
Qed.

(** *** [randomizeMirrors] *)

Lemma randomizeMirrors_step_inv p random st e :
  let st' := randomizeMirrors_step p random st e in
  rows (fst st') = rows (fst st)
  /\ cols (fst st') = cols (fst st)
  /\ usedDirections (fst st') = usedDirections (fst st)
  /\ JsMap.keys (gridLines (fst st')) = JsMap.keys (gridLines (fst st))
  /\ (GridShape (fst st) -> GridShape (fst st'))
  /\ forall id, boundaryId (rows (fst st)) (cols (fst st)) id = true ->
       getGridLine (fst st') id = getGridLine (fst st) id.
Proof.
  destruct st as [g k], e as [id l]. cbv zeta.
  unfold randomizeMirrors_step, parseGridLineId. cbn [fst snd].
  destruct (_ || _) eqn:B.
  { cbn [fst]. splits; auto. }
  assert (Hnb : boundaryId (rows g) (cols g) id = false).
  { unfold boundaryId. destruct (idTag id); cbn [IdTag_eqb andb] in B.
    - now rewrite orb_false_r in B.
    - exact B. }
  destruct (Qlt_le_dec (random k) p); cbn [fst]; [|splits; auto].
  rewrite setMirror_rows, setMirror_cols, setMirror_used, setMirror_keys.
  splits; auto.
  - apply setMirror_shape.
  - intros id' Hb. rewrite setMirror_get.
    destruct (GridLineId_eqb id' id) eqn:E; auto.
    apply GridLineId_eqb_eq in E; subst. congruence.
Qed.

Lemma randomizeMirrors_fold_inv p random entries :
  forall st,
    let st' := fold_left (randomizeMirrors_step p random) entries st in
    rows (fst st') = rows (fst st)
    /\ cols (fst st') = cols (fst st)
    /\ usedDirections (fst st') = usedDirections (fst st)
    /\ JsMap.keys (gridLines (fst st')) = JsMap.keys (gridLines (fst st))
    /\ (GridShape (fst st) -> GridShape (fst st'))
    /\ forall id, boundaryId (rows (fst st)) (cols (fst st)) id = true ->
         getGridLine (fst st') id = getGridLine (fst st) id.
Proof.
  induction entries as [|e entries IH]; intros st; simpl.
  - splits; auto.
  - destruct (randomizeMirrors_step_inv p random st e) as (R & C & U & K & S & B).
    destruct (IH (randomizeMirrors_step p random st e))
      as (R' & C' & U' & K' & S' & B').
    cbn zeta in *. rewrite R', C', U', K', R, C, U, K. splits; auto.
    intros id Hb. rewrite B'; [apply B; auto|]. now rewrite R, C.
Qed.

Lemma randomizeMirrors_inv p random g c g' :
  randomizeMirrors p random g = (c, g') ->
  rows g' = rows g /\ cols g' = cols g
  /\ (GridShape g -> GridShape g')
  /\ forall id, boundaryId (rows g) (cols g) id = true ->
       getGridLine g' id = getGridLine g id.
Proof.
  unfold randomizeMirrors.
  destruct (Qlt_le_dec p 0); [intros [= _ <-]; auto|].
  destruct (Qlt_le_dec 1 p); [intros [= _ <-]; auto|].
  intros [= _ <-].
  destruct (randomizeMirrors_fold_inv p random (JsMap.entries (gridLines g)) (g, 0))
    as (R & C & U & K & S & B).
  cbn [fst] in *. auto.
Qed.

(** ** Boundary mirrors (claims C5 and C8) *)

Lemma GoodGrid_newGrid nrows ncols : GoodGrid (newGrid nrows ncols).
Proof. split; [apply newGrid_shape | apply newGrid_boundary]. Qed.

Lemma GoodGrid_sameLines g g' : sameLines g g' -> GoodGrid g -> GoodGrid g'.
Proof.
  intros H [A B]. split; [eapply sameLines_shape | eapply sameLines_boundary]; eauto.
Qed.

Lemma GoodGrid_boundaryLines g : GoodGrid g -> boundaryLinesAreMirrors g.
Proof.
  intros [Hs Hb] id l Hl Hbd. rewrite (isBoundary_shape g id l Hs Hl) in Hbd.
  eapply Hb; eauto.
Qed.

Lemma GoodGrid_randomize p random g c g' :
  randomizeMirrors p random g = (c, g') -> GoodGrid g -> GoodGrid g'.
Proof.
  intros H [Hs Hb]. destruct (randomizeMirrors_inv p random g c g' H)
    as (R & C & S & B).
  split; auto. intros id l Hl Hbd. rewrite R, C in Hbd.
  rewrite (B id Hbd) in Hl. eapply Hb; eauto.
Qed.

Lemma GoodGrid_toggle g id l :
  GoodGrid g -> getGridLine g id = Some l ->
  isBoundaryGridLine g (Some l) = false ->
  GoodGrid (setMirror g id (negb (isMirror l))).
Proof.
  intros [Hs Hb] Hl Hnb. split; [now apply setMirror_shape|].
  rewrite (isBoundary_shape g id l Hs Hl) in Hnb.
  intros id' l'. rewrite setMirror_get, setMirror_rows, setMirror_cols.
  destruct (GridLineId_eqb id' id) eqn:E.
  - apply GridLineId_eqb_eq in E; subst. congruence.
  - apply Hb.
Qed.

Lemma dispatch_GoodGrid a s s' :
  GoodGrid (grid s) -> dispatch a s = Some s' -> GoodGrid (grid s').
Proof.
  intros Hg. destruct a; unfold dispatch; try (intros [= <-]; simpl; auto; fail).
  - intros [= <-]; simpl. apply GoodGrid_newGrid.
  - destruct (randomizeMirrors (15 # 100) random (grid s)) as [c g'] eqn:R.
    intros [= <-]; simpl. eapply GoodGrid_randomize; eauto.
  - destruct payload; [intros [= <-]; auto|].
    destruct (findNextCurve (grid s)) as [[r g']|] eqn:F; [|discriminate].
    intros [= <-]; simpl. eapply GoodGrid_sameLines; eauto.
    eapply findNextCurve_sameLines; eauto.
  - destruct (findAllCurves fuel (grid s)) as [[r g']|] eqn:F; [|discriminate].
    intros [= <-]; simpl. eapply GoodGrid_sameLines; eauto.
    eapply findAllCurves_sameLines; eauto.
  - intros [= <-]; simpl. eapply GoodGrid_sameLines; eauto.
    apply initializeUsedDirections_sameLines.
  - intros [= <-]; simpl. eapply GoodGrid_sameLines; eauto.
    apply initializeUsedDirections_sameLines.
  - destruct (getGridLine (grid s) gridLineId) as [line|] eqn:L;
      [|intros [= <-]; auto].
    destruct (isBoundaryGridLine (grid s) (Some line)) eqn:B; simpl.
    + intros [= <-]; auto.
    + intros [= <-]; simpl. now apply GoodGrid_toggle.
Qed.

Lemma dispatchAll_GoodGrid actions :
  forall s s', GoodGrid (grid s) -> dispatchAll actions s = Some s' ->
               GoodGrid (grid s').
Proof.
  induction actions as [|a rest IH]; intros s s' Hg; simpl.
  - intros [= <-]; auto.
  - destruct (dispatch a s) as [s1|] eqn:D; [|discriminate].
    apply IH. eapply dispatch_GoodGrid; eauto.
Qed.

(** On a grid of the constructed shape whose boundary lines are mirrors,
    the line at every boundary position is stored, is a mirror and is
    classified as boundary by [isBoundaryGridLine]. *)
Lemma GoodGrid_boundary_stored g id :
  GoodGrid g -> validId (rows g) (cols g) id ->
  boundaryId (rows g) (cols g) id = true ->
  exists line,
    getGridLine g id = Some line /\ isMirror line = true
    /\ isBoundaryGridLine g (Some line) = true.
Proof.
  intros [Hs Hb] Hv Hbd.
  destruct (valid_getGridLine g id Hs Hv) as [line Hl].
  exists line. splits; auto.
  - eapply Hb; eauto.
  - now rewrite (isBoundary_shape g id line Hs Hl).
Qed.

(** C5. For [nrows >= 1] and [ncols >= 1], the line at every boundary
    position (horizontal in row 0 or row [nrows], vertical in column 0 or
    column [ncols]) of the constructed grid is stored and is a mirror.  The
    same holds, for the dimensions of the grid at hand, in every state
    reached by any sequence of [dispatch] actions: the line at every boundary
    position is stored, is a mirror, is what [isBoundaryGridLine] classifies
    as boundary, [TOGGLE_MIRROR] on it changes nothing, and
    [randomizeMirrors], for any probability and any random draws, leaves it
    as it is.  [isBoundaryGridLine] holds of a stored line exactly at the
    boundary positions. *)
Theorem boundary_mirrors_preserved :
  forall nrows ncols,
    1 <= nrows -> 1 <= ncols ->
    (forall id,
        validId nrows ncols id -> boundaryId nrows ncols id = true ->
        exists line,
          getGridLine (newGrid nrows ncols) id = Some line
          /\ isMirror line = true)
    /\ boundaryLinesAreMirrors (newGrid nrows ncols)
    /\ forall s0 actions s,
         grid s0 = newGrid nrows ncols ->
         dispatchAll actions s0 = Some s ->
         (forall id,
             validId (rows (grid s)) (cols (grid s)) id ->
             boundaryId (rows (grid s)) (cols (grid s)) id = true ->
             exists line,
               getGridLine (grid s) id = Some line
               /\ isMirror line = true
               /\ isBoundaryGridLine (grid s) (Some line) = true
               /\ dispatch (TOGGLE_MIRROR id) s = Some s
               /\ forall p random c g',
                    randomizeMirrors p random (grid s) = (c, g') ->
                    getGridLine g' id = Some line)
         /\ (forall id line,
                getGridLine (grid s) id = Some line ->
                validId (rows (grid s)) (cols (grid s)) id
                /\ isBoundaryGridLine (grid s) (Some line)
                   = boundaryId (rows (grid s)) (cols (grid s)) id)
         /\ boundaryLinesAreMirrors (grid s)
         /\ (forall id line,
                getGridLine (grid s) id = Some line ->
                isBoundaryGridLine (grid s) (Some line) = true ->
                dispatch (TOGGLE_MIRROR id) s = Some s)
         /\ (forall p random c g' id line,
                randomizeMirrors p random (grid s) = (c, g') ->
                getGridLine (grid s) id = Some line ->
                isBoundaryGridLine (grid s) (Some line) = true ->
                getGridLine g' id = Some line /\ isMirror line = true).
Proof.
  intros nrows ncols _ _. splits.
  - intros id Hv Hb.
    destruct (newGrid_lines nrows ncols) as (R & C & _).
    destruct (GoodGrid_boundary_stored (newGrid nrows ncols) id
                (GoodGrid_newGrid nrows ncols)) as (line & Hl & Hm & _);
      [now rewrite R, C | now rewrite R, C | eauto].
  - apply GoodGrid_boundaryLines, GoodGrid_newGrid.
  - intros s0 actions s H0 Hrun.
    assert (Hg : GoodGrid (grid s)).
    { eapply dispatchAll_GoodGrid; eauto. rewrite H0. apply GoodGrid_newGrid. }
    splits.
    + intros id Hv Hb.
      destruct (GoodGrid_boundary_stored (grid s) id Hg Hv Hb)
        as (line & Hl & Hm & Hbl).
      exists line. splits; auto.
      * unfold dispatch. now rewrite Hl, Hbl.
      * intros p random c g' Hr.
        destruct (randomizeMirrors_inv p random (grid s) c g' Hr)
          as (_ & _ & _ & B).
        now rewrite (B id Hb).
    + intros id line Hl. destruct Hg as [Hs _]. split.
      * eapply getGridLine_valid; eauto.
      * now apply isBoundary_shape.
    + now apply GoodGrid_boundaryLines.
    + intros id line Hl Hb. unfold dispatch. now rewrite Hl, Hb.
    + intros p random c g' id line Hr Hl Hb.
      destruct (randomizeMirrors_inv p random (grid s) c g' Hr) as (_ & _ & _ & B).
      destruct Hg as [Hs Hbm].
      pose proof Hb as Hb'. rewrite (isBoundary_shape _ id line Hs Hl) in Hb'.
      rewrite (B id Hb'). split; auto. eapply Hbm; eauto.
Qed.

Lemma boundary_mirrors_preserved_witness :
  let s0 := initialState (newGrid 2 2) in
  let random := fun k : nat => (Z.of_nat k # 10)%Q in
  let actions :=
    [TOGGLE_MIRROR (mkId tag_h 1 0); RANDOM random;
     TOGGLE_MIRROR (mkId tag_v 0 0); ALL_CURVES 10; RESET] in
  (exists line,
      getGridLine (newGrid 2 2) (mkId tag_v 1 2) = Some line
      /\ isMirror line = true)
  /\ exists s,
       dispatchAll actions s0 = Some s
       /\ exists line,
            getGridLine (grid s) (mkId tag_h 2 1) = Some line
            /\ isMirror line = true
            /\ isBoundaryGridLine (grid s) (Some line) = true
            /\ dispatch (TOGGLE_MIRROR (mkId tag_h 2 1)) s = Some s
            /\ forall p random' c g',
                 randomizeMirrors p random' (grid s) = (c, g') ->
                 getGridLine g' (mkId tag_h 2 1) = Some line.
Proof.
  intros s0 random actions.
  destruct (boundary_mirrors_preserved 2 2) as (H1 & _ & H2); [lia | lia |].
  split.
  - apply (H1 (mkId tag_v 1 2)); [unfold validId; simpl; lia | reflexivity].
  - destruct (dispatchAll actions s0) as [s|] eqn:E.
    + exists s. split; [reflexivity|].
      destruct (H2 s0 actions s eq_refl E) as (Hpos & _).
      assert (R : rows (grid s) = 2 /\ cols (grid s) = 2).
      { vm_compute in E. injection E as <-. split; reflexivity. }
      destruct R as [R C].
      apply (Hpos (mkId tag_h 2 1)); rewrite R, C;
        [unfold validId; simpl; lia | reflexivity].
    + vm_compute in E. discriminate E.
Defined.

(** C8. [randomizeMirrors(p)] throws whenever [p < 0] or [p > 1], leaving the
    grid exactly as it was; for [0 <= p <= 1] it returns normally and the line
    stored under every boundary id is unchanged, whatever the random draws. *)
Theorem randomizeMirrors_range_and_boundary :
  forall (p : Q) (random : nat -> Q) (g : Grid),
    ((p < 0 \/ 1 < p)%Q ->
       randomizeMirrors p random g
       = (Threw "Probability must be between 0 and 1"%string, g))
    /\ ((0 <= p /\ p <= 1)%Q ->
          fst (randomizeMirrors p random g) = Normal
          /\ (forall id,
                 boundaryId (rows g) (cols g) id = true ->
                 getGridLine (snd (randomizeMirrors p random g)) id
                 = getGridLine g id)
          /\ (GridShape g ->
              forall id line,
                getGridLine g id = Some line ->
                isBoundaryGridLine g (Some line) = true ->
                getGridLine (snd (randomizeMirrors p random g)) id = Some line)).
Proof.
  intros p random g. split.
  - intros H. unfold randomizeMirrors.
    destruct (Qlt_le_dec p 0) as [|Hp0]; [reflexivity|].
    destruct (Qlt_le_dec 1 p) as [|Hp1]; [reflexivity|].
    destruct H as [H|H]; exfalso.
    + apply (Qlt_irrefl 0). eapply Qle_lt_trans; eauto.
    + apply (Qlt_irrefl 1). eapply Qlt_le_trans; eauto.
  - intros [H0 H1].
    destruct (randomizeMirrors p random g) as [c g'] eqn:R.
    pose proof (randomizeMirrors_inv p random g c g' R) as (_ & _ & _ & B).
    cbn [fst snd]. splits.
    + unfold randomizeMirrors in R.
      destruct (Qlt_le_dec p 0) as [Hlt|_].
      { exfalso. apply (Qlt_irrefl 0). eapply Qle_lt_trans; eauto. }
      destruct (Qlt_le_dec 1 p) as [Hlt|_].
      { exfalso. apply (Qlt_irrefl 1). eapply Qlt_le_trans; eauto. }
      now inversion R.
    + exact B.
    + intros Hs id line Hl Hb. rewrite (isBoundary_shape g id line Hs Hl) in Hb.
      now rewrite (B id Hb).
Qed.

Lemma randomizeMirrors_range_and_boundary_witness :
  let g := newGrid 2 2 in
  let random := fun k : nat => (Z.of_nat k # 10)%Q in
  randomizeMirrors (3 # 2) random g
  = (Threw "Probability must be between 0 and 1"%string, g)
  /\ randomizeMirrors (- (1 # 2)) random g
     = (Threw "Probability must be between 0 and 1"%string, g)
  /\ fst (randomizeMirrors (1 # 2) random g) = Normal
  /\ (forall id,
         boundaryId (rows g) (cols g) id = true ->
         getGridLine (snd (randomizeMirrors (1 # 2) random g)) id
         = getGridLine g id).
Proof.
  intros g random. splits.
  - apply (randomizeMirrors_range_and_boundary (3 # 2) random g).
    right. reflexivity.
  - apply (randomizeMirrors_range_and_boundary (- (1 # 2)) random g).
    left. reflexivity.
  - apply (randomizeMirrors_range_and_boundary (1 # 2) random g).
    split; discriminate.
  - apply (randomizeMirrors_range_and_boundary (1 # 2) random g).
    split; discriminate.
Defined.

(** ** Arc-length sampling: degenerate inputs (claim C9) *)

(** C9. On a non-empty list of points, [getPointAtDistance] with a target
    distance [<= 0], or with fewer than 2 points, returns the first point and
    segment index 0; in particular the sampling at progress 0 returns the
    first point. *)
Theorem getPointAtDistance_degenerate :
  forall (sqrt : Q -> Q) (first : Point) (rest : list Point)
         (targetDistance : Q) (isClosed : bool),
    ((targetDistance <= 0)%Q \/ length (first :: rest) < 2) ->
    getPointAtDistance sqrt (first :: rest) targetDistance isClosed
    = mkSample (Some first) 0
    /\ pointAtProgress sqrt (first :: rest) 0 isClosed
       = mkSample (Some first) 0.
Proof.
  intros sqrt first rest targetDistance isClosed H.
  assert (Hdeg : forall t, (t <= 0)%Q \/ length (first :: rest) < 2 ->
            getPointAtDistance sqrt (first :: rest) t isClosed
            = mkSample (Some first) 0).
  { intros t Ht. unfold getPointAtDistance.
    destruct Ht as [Ht|Ht].
    - apply Qle_bool_iff in Ht. rewrite Ht, orb_true_r. reflexivity.
    - apply Nat.ltb_lt in Ht. rewrite Ht. reflexivity. }
  split; [now apply Hdeg|].
  unfold pointAtProgress. apply Hdeg. left.
  rewrite Qmult_0_l. apply Qle_refl.
Qed.

Lemma getPointAtDistance_degenerate_witness :
  let points := [mkPoint 3 4; mkPoint 6 8; mkPoint 6 20] in
  (getPointAtDistance sqrtQ points (- (5 # 2)) true
   = mkSample (Some (mkPoint 3 4)) 0
   /\ pointAtProgress sqrtQ points 0 true = mkSample (Some (mkPoint 3 4)) 0)
  /\ (getPointAtDistance sqrtQ [mkPoint 3 4] 7 false
      = mkSample (Some (mkPoint 3 4)) 0
      /\ pointAtProgress sqrtQ [mkPoint 3 4] 0 false
         = mkSample (Some (mkPoint 3 4)) 0).
Proof.
  intros points. split.
  - apply (getPointAtDistance_degenerate sqrtQ (mkPoint 3 4)
             [mkPoint 6 8; mkPoint 6 20] (- (5 # 2)) true).
    left. discriminate.
  - apply (getPointAtDistance_degenerate sqrtQ (mkPoint 3 4) [] 7 false).
    right. simpl. lia.
Defined.

(** ** Spline interpolation on open input (claim C6) *)

Lemma length_segmentSubdivision P0 P1 M0 M1 n :
  length (segmentSubdivision P0 P1 M0 M1 n) = n.
Proof. unfold segmentSubdivision. now rewrite length_map, length_seq. Qed.

Lemma index_mod_next i n : i < n -> index_mod i 1 n = (i + 1) mod n.
Proof.
  intros H. unfold index_mod.
  rewrite Z.rem_mod_nonneg by lia.
  replace (Z.of_nat i + 1)%Z with (Z.of_nat (i + 1)) by lia.
  rewrite <- Nat2Z.inj_mod. apply Nat2Z.id.
Qed.

Lemma index_mod_prev i n :
  i < n -> index_mod i (-1 + Z.of_nat n) n = (i + n - 1) mod n.
Proof.
  intros H. unfold index_mod.
  rewrite Z.rem_mod_nonneg by lia.
  replace (Z.of_nat i + (-1 + Z.of_nat n))%Z with (Z.of_nat (i + n - 1)) by lia.
  rewrite <- Nat2Z.inj_mod. apply Nat2Z.id.
Qed.

Lemma tangentsOf_cyclic points tension i :
  i < length points ->
  nth i (tangentsOf points tension) origin
  = tangentFrom (nth ((i + length points - 1) mod length points) points origin)
      (nth ((i + 1) mod length points) points origin) tension.
Proof.
  intros H. unfold tangentsOf.
  rewrite (nth_indep _ origin
             ((fun i => tangentFrom
                 (nth (index_mod i (-1 + Z.of_nat (length points)) (length points))
                    points origin)
                 (nth (index_mod i 1 (length points)) points origin) tension) 0))
    by (now rewrite length_map, length_seq).
  rewrite (map_nth (fun i => tangentFrom
                 (nth (index_mod i (-1 + Z.of_nat (length points)) (length points))
                    points origin)
                 (nth (index_mod i 1 (length points)) points origin) tension)).
  rewrite seq_nth by exact H. change (0 + i) with i. cbv beta.
  now rewrite index_mod_next, index_mod_prev.
Qed.

Lemma flat_map_ext_in (A B : Type) (f g : A -> list B) (l : list A) :
  (forall a, In a l -> f a = g a) -> flat_map f l = flat_map g l.
Proof.
  induction l as [|a l IH]; simpl; intros H; auto.
  rewrite H by auto. f_equal. apply IH. auto.
Qed.

(** C6, as amended. For an open input of at least 2 points,
    [getSplinePoints] computes the tangent of point [i] from the cyclic
    wraparound neighbours [(i - 1 + n) mod n] and [(i + 1) mod n], and its
    output begins with the [subdivisions] samples of each segment between
    consecutive input points, in order. *)
Theorem getSplinePoints_open_cyclic_tangents :
  forall (rawPoints : list Point) (tension : Q) (subdivisions : nat),
    2 <= length rawPoints ->
    alreadyClosed rawPoints = false ->
    let n := length rawPoints in
    let tangents := tangentsOf (effectivePointsOf rawPoints) tension in
    effectivePointsOf rawPoints = rawPoints
    /\ length tangents = n
    /\ (forall i, i < n ->
          nth i tangents origin
          = tangentFrom (nth ((i + n - 1) mod n) rawPoints origin)
              (nth ((i + 1) mod n) rawPoints origin) tension)
    /\ firstn ((n - 1) * subdivisions)
         (getSplinePoints rawPoints tension subdivisions)
       = flat_map (fun i =>
             segmentSubdivision (nth i rawPoints origin)
               (nth (i + 1) rawPoints origin)
               (nth i tangents origin) (nth (i + 1) tangents origin)
               subdivisions)
           (seq 0 (n - 1)).
Proof.
  intros rawPoints tension subdivisions Hlen Hopen n tangents.
  assert (Heff : effectivePointsOf rawPoints = rawPoints).
  { unfold effectivePointsOf. now rewrite Hopen. }
  subst tangents. rewrite Heff. splits.
  - reflexivity.
  - unfold tangentsOf. now rewrite length_map, length_seq.
  - intros i Hi. now apply tangentsOf_cyclic.
  - unfold getSplinePoints. fold n.
    destruct (Nat.ltb_spec n 2) as [Hlt|_]; [lia|].
    rewrite Heff, Hopen. fold n.
    replace (seq 0 n) with (seq 0 ((n - 1) + 1)) by (f_equal; lia).
    rewrite seq_app, flat_map_app.
    rewrite firstn_app.
    assert (Hl : forall f : nat -> list Point,
               (forall i, length (f i) = subdivisions) ->
               length (flat_map f (seq 0 (n - 1))) = (n - 1) * subdivisions).
    { intros f Hf. rewrite flat_map_constant_length with (c := subdivisions).
      - now rewrite length_seq.
      - intros; apply Hf. }
    rewrite Hl by (intros; apply length_segmentSubdivision).
    rewrite Nat.sub_diag, firstn_O, app_nil_r.
    rewrite firstn_all2
      by (rewrite Hl by (intros; apply length_segmentSubdivision); lia).
    apply flat_map_ext_in. intros i Hi. apply in_seq in Hi.
    rewrite index_mod_next by lia.
    rewrite Nat.mod_small by lia. reflexivity.
Qed.

Lemma getSplinePoints_open_cyclic_tangents_witness :
  let rawPoints := [mkPoint 0 0; mkPoint 1 0; mkPoint 3 1] in
  let tension := (1 # 2)%Q in
  let tangents := tangentsOf (effectivePointsOf rawPoints) tension in
  effectivePointsOf rawPoints = rawPoints
  /\ length tangents = 3
  /\ (forall i, i < 3 ->
        nth i tangents origin
        = tangentFrom (nth ((i + 3 - 1) mod 3) rawPoints origin)
            (nth ((i + 1) mod 3) rawPoints origin) tension)
  /\ firstn ((3 - 1) * 2) (getSplinePoints rawPoints tension 2)
     = flat_map (fun i =>
           segmentSubdivision (nth i rawPoints origin)
             (nth (i + 1) rawPoints origin)
             (nth i tangents origin) (nth (i + 1) tangents origin) 2)
         (seq 0 (3 - 1)).
Proof.
  intros rawPoints tension tangents.
  apply (getSplinePoints_open_cyclic_tangents rawPoints tension 2).
  - simpl. lia.
  - vm_compute. reflexivity.
Defined.

(** C6 as stated fails: on the open input [(0,0), (1,0), (3,1)] with tension
    1/2 and 2 subdivisions the tangents are not the edge-clamped ones and the
    output is not the samples of the two consecutive segments followed by the
    last point (it has 6 points, the last being a sample of the wraparound
    segment from the last point back to the first). *)
Lemma getSplinePoints_open_not_clamped :
  let rawPoints := [mkPoint 0 0; mkPoint 1 0; mkPoint 3 1] in
  2 <= length rawPoints
  /\ alreadyClosed rawPoints = false
  /\ ~ Forall2 pointEq (tangentsOf (effectivePointsOf rawPoints) (1 # 2))
         (clampedTangentsOf rawPoints (1 # 2))
  /\ ~ Forall2 pointEq (getSplinePoints rawPoints (1 # 2) 2)
         (openSamplesOf rawPoints (1 # 2) 2)
  /\ ~ pointEq (last (getSplinePoints rawPoints (1 # 2) 2) origin)
         (last rawPoints origin)
  /\ ~ openSplineClaim rawPoints (1 # 2) 2.
Proof.
  intros rawPoints.
  assert (HT : ~ Forall2 pointEq (tangentsOf (effectivePointsOf rawPoints) (1 # 2))
                 (clampedTangentsOf rawPoints (1 # 2))).
  { intros H. vm_compute in H. inversion H as [|? ? ? ? [Hx _] _]; subst.
    vm_compute in Hx. discriminate Hx. }
  splits.
  - simpl. lia.
  - vm_compute. reflexivity.
  - exact HT.
  - intros H. apply Forall2_length in H. vm_compute in H. discriminate H.
  - intros [Hx _]. vm_compute in Hx. discriminate Hx.
  - intros [H _]. exact (HT H).
Qed.

(** ** Used directions *)

Lemma DirSet_has_add s d d' :
  DirSet_has (DirSet_add s d) d' = DirSet_has s d' || Direction_eqb d' d.
Proof.
  unfold DirSet_add, DirSet_has.
  destruct (existsb (Direction_eqb d) s) eqn:E.
  - destruct (Direction_eqb d' d) eqn:E'.
    + apply Direction_eqb_eq in E'; subst. now rewrite E.
    + now rewrite orb_false_r.
  - rewrite existsb_app. simpl. now rewrite orb_false_r.
Qed.

Lemma used_add_get u id d id' :
  JsMap.get GridLineId_eqb (used_add u id d) id'
  = if GridLineId_eqb id' id
    then option_map (fun s => DirSet_add s d) (JsMap.get GridLineId_eqb u id)
    else JsMap.get GridLineId_eqb u id'.
Proof.
  unfold used_add. destruct (JsMap.get GridLineId_eqb u id) as [s|] eqn:E.
  - apply (get_set GridLineId_eqb_eq).
  - destruct (GridLineId_eqb id' id) eqn:E'; auto.
    apply GridLineId_eqb_eq in E'; subst. exact E.
Qed.

Lemma used_add_keys u id d : JsMap.keys (used_add u id d) = JsMap.keys u.
Proof.
  unfold used_add. destruct (JsMap.get GridLineId_eqb u id) as [s|] eqn:E; auto.
  apply (keys_set_present GridLineId_eqb_eq).
  destruct (in_dec GridLineId_eq_dec id (JsMap.keys u)); auto.
  apply (get_None_notin GridLineId_eqb_eq) in n. congruence.
Qed.

Lemma has_true_iff (u : JsMap.t GridLineId DirSet) id :
  JsMap.has GridLineId_eqb u id = true <-> In id (JsMap.keys u).
Proof.
  unfold JsMap.has. destruct (JsMap.get GridLineId_eqb u id) eqn:E.
  - split; auto. intros _.
    destruct (in_dec GridLineId_eq_dec id (JsMap.keys u)); auto.
    apply (get_None_notin GridLineId_eqb_eq) in n. congruence.
  - apply (get_None_notin GridLineId_eqb_eq) in E. split; [discriminate|tauto].
Qed.

Lemma markDirectionUsed_keys g id d :
  JsMap.keys (usedDirections (markDirectionUsed g id d))
  = JsMap.keys (usedDirections g).
Proof.
  unfold markDirectionUsed. destruct (JsMap.has _ _ _); simpl; auto.
  apply used_add_keys.
Qed.

Lemma markDirectionUsed_used g id d id' d' :
  isDirectionUsed (markDirectionUsed g id d) id' d'
  = isDirectionUsed g id' d'
    || (JsMap.has GridLineId_eqb (usedDirections g) id
        && GridLineId_eqb id' id && Direction_eqb d' d).
Proof.
  unfold markDirectionUsed, isDirectionUsed.
  destruct (JsMap.has GridLineId_eqb (usedDirections g) id) eqn:H; simpl.
  2:{ now rewrite orb_false_r. }
  rewrite used_add_get. destruct (GridLineId_eqb id' id) eqn:E; simpl.
  - apply GridLineId_eqb_eq in E; subst id'.
    unfold JsMap.has in H.
    destruct (JsMap.get GridLineId_eqb (usedDirections g) id); [|discriminate].
    simpl. apply DirSet_has_add.
  - now rewrite orb_false_r.
Qed.

Lemma getUnusedDirections_filter g id l :
  getGridLine g id = Some l ->
  JsMap.has GridLineId_eqb (usedDirections g) id = true ->
  getUnusedDirections g id
  = filter (fun d => negb (isDirectionUsed g id d)) allDirections.
Proof.
  intros Hl Hh. unfold getUnusedDirections, isDirectionUsed, JsMap.has in *.
  rewrite Hl.
  destruct (JsMap.get GridLineId_eqb (usedDirections g) id) as [s|];
    [|discriminate].
  apply filter_ext. intros d. destruct (DirSet_has s d); reflexivity.
Qed.

(** ** Exactly one terminal flag (claim C4) *)

Lemma buildCurve_body_flags g c l d :
  flagsClear c ->
  match buildCurve_body g c l d with
  | Return b c' _ => flagsAfter (Returned b) c'
  | Continue _ c' _ _ => flagsClear c'
  end.
Proof.
  intros [Hc Hl]. unfold buildCurve_body.
  destruct (getAdjacentGridLine g (line_id l) d) as [[nextLineId|]|]; simpl; auto.
  destruct (getGridLine g nextLineId) as [nextGridLine|]; simpl; auto.
  destruct (_ && _ && _); simpl; unfold flagsClear; auto.
Qed.

Lemma buildCurve_loop_flags fuel :
  forall g c l d out c' g',
    flagsClear c ->
    buildCurve_loop fuel g c l d = (out, c', g') -> flagsAfter out c'.
Proof.
  induction fuel as [|fuel IH]; intros g c l d out c' g' Hf; simpl.
  - destruct (negb _); intros [= <- <- _]; exact Hf.
  - destruct (negb _); [intros [= <- <- _]; exact Hf|].
    pose proof (buildCurve_body_flags g c l d Hf) as Hb.
    destruct (buildCurve_body g c l d) as [b c1 g1|g1 c1 l1 d1].
    + intros [= <- <- _]. exact Hb.
    + apply IH. exact Hb.
Qed.

(** C4. When [buildCurve] is called on a curve whose flags are as the
    constructor leaves them (the only way the enumerator calls it) and
    returns [true], exactly one of [isClosed] and [leftGrid] is set: never
    both, never neither; both stay clear only when it returns [false]. *)
Theorem buildCurve_exactly_one_flag :
  forall fuel (c : MirrorCurve) (g : Grid) success c' g',
    isClosed c = false -> leftGrid c = false ->
    buildCurve fuel c g = (Returned success, c', g') ->
    (success = true ->
       xorb (isClosed c') (leftGrid c') = true
       /\ ~ (isClosed c' = true /\ leftGrid c' = true)
       /\ ~ (isClosed c' = false /\ leftGrid c' = false))
    /\ (isClosed c' = false /\ leftGrid c' = false -> success = false).
Proof.
  intros fuel c g success c' g' Hc Hl. unfold buildCurve.
  destruct (curve_gridLines c) as [|l0 ls]; [discriminate|].
  destruct (curve_directions c) as [|d0 ds]; [discriminate|].
  intros H. apply buildCurve_loop_flags in H; [|split; auto].
  destruct success; simpl in H.
  - split.
    + intros _. destruct H as [[-> ->]|[-> ->]]; simpl; splits; auto;
        intros [? ?]; discriminate.
    + intros [A B]. destruct H as [[H _]|[_ H]]; congruence.
  - split; [discriminate | reflexivity].
Qed.

Lemma buildCurve_exactly_one_flag_witness :
  let g := resetUsedDirections (newGrid 1 1) in
  let c := newMirrorCurve (builtLine 1 1 (mkId tag_h 0 0)) SW in
  exists c' g',
    buildCurve (N.to_nat MAX_SEGMENTS) c g = (Returned true, c', g')
    /\ xorb (isClosed c') (leftGrid c') = true
    /\ ~ (isClosed c' = true /\ leftGrid c' = true)
    /\ ~ (isClosed c' = false /\ leftGrid c' = false).
Proof.
  intros g c.
  destruct (buildCurve (N.to_nat MAX_SEGMENTS) c g) as [[out c'] g'] eqn:E.
  destruct out as [[|]| |]; try (vm_compute in E; discriminate E).
  exists c', g'. split; [reflexivity|].
  apply (buildCurve_exactly_one_flag (N.to_nat MAX_SEGMENTS) c g true c' g');
    [reflexivity | reflexivity | exact E | reflexivity].
Defined.

(** ** What one iteration of the tracer marks (claim C2) *)

Lemma oppositeOf_opposite d : oppositeOf d = opposite d.
Proof. destruct d; reflexivity. Qed.

(** C2, as amended. An iteration of the tracer's loop that appends the step
    [(nextEdge, outgoingDirection)] marks, on [nextEdge], the outgoing
    direction and the geometric opposite of the incoming direction
    [currentDirection], and nothing else; the latter is the opposite of the
    outgoing direction when [nextEdge] is not a mirror.  ([usedDirections]
    has an entry for every line of a constructed grid; without one
    [markDirectionUsed] does nothing.) *)
Theorem buildCurve_iteration_marks :
  forall (g : Grid) (c : MirrorCurve) (currentGridLine : GridLine)
         (currentDirection : Direction) (nextLineId : GridLineId)
         (nextEdge : GridLine),
    getAdjacentGridLine g (line_id currentGridLine) currentDirection
    = AdjReturn (Some nextLineId) ->
    getGridLine g nextLineId = Some nextEdge ->
    JsMap.has GridLineId_eqb (usedDirections g) nextLineId = true ->
    let outgoingDirection :=
      if isMirror nextEdge
      then getReflectedDirection g nextLineId currentDirection
      else currentDirection in
    exists g' c',
      (buildCurve_body g c currentGridLine currentDirection
       = Continue g' c' nextEdge outgoingDirection
       \/ buildCurve_body g c currentGridLine currentDirection
          = Return true c' g')
      /\ curve_gridLines c' = curve_gridLines c ++ [nextEdge]
      /\ curve_directions c' = curve_directions c ++ [outgoingDirection]
      /\ isDirectionUsed g' nextLineId outgoingDirection = true
      /\ isDirectionUsed g' nextLineId (opposite currentDirection) = true
      /\ (isMirror nextEdge = false ->
          isDirectionUsed g' nextLineId (opposite outgoingDirection) = true)
      /\ (forall id x,
             isDirectionUsed g' id x
             = isDirectionUsed g id x
               || (GridLineId_eqb id nextLineId
                   && (Direction_eqb x outgoingDirection
                       || Direction_eqb x (opposite currentDirection)))).
Proof.
  intros g c cur d nextId nextEdge Hadj Hget Hhas out.
  set (g1 := markDirectionUsed g nextId out).
  set (g2 := markDirectionUsed g1 nextId (oppositeOf d)).
  assert (Hhas1 : JsMap.has GridLineId_eqb (usedDirections g1) nextId = true).
  { apply has_true_iff. unfold g1. rewrite markDirectionUsed_keys.
    now apply has_true_iff. }
  assert (Hused : forall id x,
             isDirectionUsed g2 id x
             = isDirectionUsed g id x
               || (GridLineId_eqb id nextId
                   && (Direction_eqb x out || Direction_eqb x (opposite d)))).
  { intros id x. unfold g2, g1.
    rewrite markDirectionUsed_used. fold g1. rewrite Hhas1.
    unfold g1. rewrite markDirectionUsed_used, Hhas, oppositeOf_opposite.
    simpl. destruct (isDirectionUsed g id x), (GridLineId_eqb id nextId); reflexivity. }
  assert (Hout : isDirectionUsed g2 nextId out = true).
  { rewrite Hused, GridLineId_eqb_refl, Direction_eqb_refl.
    simpl. apply orb_true_r. }
  assert (Hopp : isDirectionUsed g2 nextId (opposite d) = true).
  { rewrite Hused, GridLineId_eqb_refl, Direction_eqb_refl.
    simpl. rewrite !orb_true_r. reflexivity. }
  assert (Hbody : exists c',
             (buildCurve_body g c cur d = Continue g2 c' nextEdge out
              \/ buildCurve_body g c cur d = Return true c' g2)
             /\ curve_gridLines c' = curve_gridLines c ++ [nextEdge]
             /\ curve_directions c' = curve_directions c ++ [out]).
  { unfold buildCurve_body. rewrite Hadj, Hget. cbv zeta. fold out. fold g1. fold g2.
    destruct (_ && _ && _).
    - exists (set_isClosed (addSegment c nextEdge out)). simpl; auto.
    - exists (addSegment c nextEdge out). simpl; auto. }
  destruct Hbody as (c' & Hb & Hl & Hd).
  exists g2, c'. splits; auto.
  intros Hm. unfold out in *. rewrite Hm in *. exact Hopp.
Qed.

(** C2 as stated fails at an interior mirror: on the 2 by 2 grid with the
    interior line [h_1_0] made a mirror, the second iteration of the trace
    from [(h_0_0, SW)] arrives at [h_1_0] along SE and leaves along NE; it
    marks NE and NW (the opposite of SE), and SW, the opposite of the
    outgoing direction, stays unmarked. *)
Lemma buildCurve_iteration_opposite_of_outgoing_unmarked :
  let g0 := resetUsedDirections (setMirror (newGrid 2 2) (mkId tag_h 1 0) true) in
  let start := builtLine 2 2 (mkId tag_h 0 0) in
  let g := markDirectionUsed g0 (line_id start) SW in
  match buildCurve_body g (newMirrorCurve start SW) start SW with
  | Continue g1 c1 l1 d1 =>
      match buildCurve_body g1 c1 l1 d1 with
      | Continue g2 c2 nextEdge outgoingDirection =>
          line_id nextEdge = mkId tag_h 1 0
          /\ isMirror nextEdge = true
          /\ d1 = SE
          /\ outgoingDirection = NE
          /\ curve_gridLines c2 = curve_gridLines c1 ++ [nextEdge]
          /\ curve_directions c2 = curve_directions c1 ++ [outgoingDirection]
          /\ isDirectionUsed g2 (line_id nextEdge) outgoingDirection = true
          /\ isDirectionUsed g2 (line_id nextEdge) (opposite d1) = true
          /\ isDirectionUsed g2 (line_id nextEdge) (opposite outgoingDirection)
             = false
      | Return _ _ _ => False
      end
  | Return _ _ _ => False
  end.
Proof. vm_compute. splits; reflexivity. Qed.

Lemma buildCurve_iteration_marks_witness :
  let g0 := resetUsedDirections (setMirror (newGrid 2 2) (mkId tag_h 1 0) true) in
  let v00 := builtLine 2 2 (mkId tag_v 0 0) in
  let h10 := line_setMirror (builtLine 2 2 (mkId tag_h 1 0)) true in
  let c := addSegment (newMirrorCurve (builtLine 2 2 (mkId tag_h 0 0)) SW) v00 SE in
  exists g' c',
    (buildCurve_body g0 c v00 SE = Continue g' c' h10 NE
     \/ buildCurve_body g0 c v00 SE = Return true c' g')
    /\ curve_gridLines c' = curve_gridLines c ++ [h10]
    /\ curve_directions c' = curve_directions c ++ [NE]
    /\ isDirectionUsed g' (mkId tag_h 1 0) NE = true
    /\ isDirectionUsed g' (mkId tag_h 1 0) (opposite SE) = true
    /\ (isMirror h10 = false ->
        isDirectionUsed g' (mkId tag_h 1 0) (opposite NE) = true)
    /\ (forall id x,
           isDirectionUsed g' id x
           = isDirectionUsed g0 id x
             || (GridLineId_eqb id (mkId tag_h 1 0)
                 && (Direction_eqb x NE || Direction_eqb x (opposite SE)))).
Proof.
  intros g0 v00 h10 c.
  apply (buildCurve_iteration_marks g0 c v00 SE (mkId tag_h 1 0) h10);
    vm_compute; reflexivity.
Defined.

(** ** The pre-seeded used directions *)

Lemma DirSet_has_addAll ds s d :
  DirSet_has (addAll ds s) d = DirSet_has s d || DirSet_has ds d.
Proof.
  revert s. induction ds as [|a ds IH]; intros s; simpl.
  - now rewrite orb_false_r.
  - unfold addAll in *. simpl. rewrite IH, DirSet_has_add.
    now rewrite orb_assoc.
Qed.

Lemma seedBoundary_addAll g u id l :
  seedBoundary g u (id, l)
  = fold_left (fun acc d => used_add acc id d) (seedDirs g l) u.
Proof.
  unfold seedBoundary, seedDirs.
  destruct (negb (isBoundaryGridLine g (Some l))); auto.
  destruct (line_type l).
  - destruct (line_row l =? 0); auto. destruct (line_row l =? rows g); auto.
  - destruct (line_col l =? 0); auto. destruct (line_col l =? cols g); auto.
Qed.

Lemma fold_used_add_get ds :
  forall u id id',
    JsMap.get GridLineId_eqb
      (fold_left (fun acc d => used_add acc id d) ds u) id'
    = if GridLineId_eqb id' id
      then option_map (addAll ds) (JsMap.get GridLineId_eqb u id)
      else JsMap.get GridLineId_eqb u id'.
Proof.
  induction ds as [|a ds IH]; intros u id id'; simpl.
  - destruct (GridLineId_eqb id' id) eqn:E; auto.
    apply GridLineId_eqb_eq in E; subst.
    destruct (JsMap.get GridLineId_eqb u id); reflexivity.
  - rewrite IH, !used_add_get, GridLineId_eqb_refl.
    destruct (GridLineId_eqb id' id); auto.
    destruct (JsMap.get GridLineId_eqb u id); reflexivity.
Qed.

Lemma fold_used_add_keys ds :
  forall u id,
    JsMap.keys (fold_left (fun acc d => used_add acc id d) ds u) = JsMap.keys u.
Proof.
  induction ds as [|a ds IH]; intros u id; simpl; auto.
  now rewrite IH, used_add_keys.
Qed.

Lemma fold_seed_keys g es :
  forall u, JsMap.keys (fold_left (seedBoundary g) es u) = JsMap.keys u.
Proof.
  induction es as [|[k l] es IH]; intros u; [reflexivity|].
  cbn [fold_left]. now rewrite IH, seedBoundary_addAll, fold_used_add_keys.
Qed.

Lemma fold_seed_get g (es : JsMap.t GridLineId GridLine) :
  NoDup (JsMap.keys es) ->
  forall u id,
    JsMap.get GridLineId_eqb (fold_left (seedBoundary g) es u) id
    = match JsMap.get GridLineId_eqb es id with
      | Some l => option_map (addAll (seedDirs g l)) (JsMap.get GridLineId_eqb u id)
      | None => JsMap.get GridLineId_eqb u id
      end.
Proof.
  induction es as [|[k l] es IH]; intros Hnd u id; [reflexivity|].
  cbn [fold_left JsMap.get]. cbn [JsMap.keys map fst] in Hnd.
  inversion Hnd as [|? ? Hnotin Hnd']; subst.
  rewrite IH by assumption. rewrite seedBoundary_addAll, fold_used_add_get.
  destruct (GridLineId_eqb id k) eqn:E.
  - apply GridLineId_eqb_eq in E; subst.
    apply (get_None_notin GridLineId_eqb_eq) in Hnotin. now rewrite Hnotin.
  - reflexivity.
Qed.

Lemma fold_clear_get (es : JsMap.t GridLineId GridLine) :
  forall (u : JsMap.t GridLineId DirSet) id,
    JsMap.get GridLineId_eqb
      (fold_left (fun acc e => JsMap.set GridLineId_eqb acc (fst e) []) es u) id
    = if memId id (JsMap.keys es) then Some [] else JsMap.get GridLineId_eqb u id.
Proof.
  induction es as [|[k l] es IH]; intros u id; simpl; auto.
  rewrite IH, (get_set GridLineId_eqb_eq).
  destruct (GridLineId_eqb id k); simpl.
  - destruct (memId id (JsMap.keys es)); reflexivity.
  - reflexivity.
Qed.

Lemma fold_clear_keys_present (es : JsMap.t GridLineId GridLine) :
  forall (u : JsMap.t GridLineId DirSet),
    incl (JsMap.keys es) (JsMap.keys u) ->
    JsMap.keys
      (fold_left (fun acc e => JsMap.set GridLineId_eqb acc (fst e) []) es u)
    = JsMap.keys u.
Proof.
  induction es as [|[k l] es IH]; intros u Hincl; simpl; auto.
  assert (Hk : JsMap.keys (JsMap.set GridLineId_eqb u k []) = JsMap.keys u).
  { apply (keys_set_present GridLineId_eqb_eq). apply Hincl. now left. }
  rewrite IH; [exact Hk|].
  intros x Hx. rewrite (keys_set_present GridLineId_eqb_eq).
  - apply Hincl. now right.
  - apply Hincl. now left.
Qed.

Lemma fold_clear_keys_empty (es : JsMap.t GridLineId GridLine) :
  NoDup (JsMap.keys es) ->
  JsMap.keys
    (fold_left (fun acc e => JsMap.set GridLineId_eqb acc (fst e) ([] : DirSet))
       es [])
  = JsMap.keys es.
Proof.
  intros Hnd.
  assert (H : forall (u : JsMap.t GridLineId DirSet),
             NoDup (JsMap.keys u ++ JsMap.keys es) ->
             JsMap.keys
               (fold_left
                  (fun acc e => JsMap.set GridLineId_eqb acc (fst e) ([] : DirSet))
                  es u)
             = JsMap.keys u ++ JsMap.keys es).
  { induction es as [|[k l] es IH]; intros u Hu; simpl.
    - now rewrite app_nil_r.
    - simpl in Hu. rewrite IH.
      + rewrite (set_absent GridLineId_eqb_eq).
        * unfold JsMap.keys. rewrite map_app. simpl. now rewrite <- app_assoc.
        * apply NoDup_remove_2 in Hu. intros Hin. apply Hu.
          apply in_or_app. now left.
      + now inversion Hnd.
      + rewrite (set_absent GridLineId_eqb_eq).
        * unfold JsMap.keys. rewrite map_app. simpl. rewrite <- app_assoc.
          exact Hu.
        * apply NoDup_remove_2 in Hu. intros Hin. apply Hu.
          apply in_or_app. now left. }
  apply (H []). exact Hnd.
Qed.

Lemma seedDirs_seeded g id l d :
  GridShape g -> getGridLine g id = Some l ->
  DirSet_has (seedDirs g l) d = seededb (rows g) (cols g) id d.
Proof.
  intros Hs Hl. destruct (shape_lines g Hs id l Hl) as (_ & Ht & Hr & Hc & _).
  unfold seedDirs, seededb, isBoundaryGridLine. rewrite Ht, Hr, Hc.
  destruct (idTag id); simpl.
  - destruct (idRow id =? 0); simpl; auto.
    destruct (idRow id =? rows g); simpl; auto.
  - destruct (idCol id =? 0); simpl; auto.
    destruct (idCol id =? cols g); simpl; auto.
Qed.

(** After a reset, a direction is used on a stored line exactly when it is
    pre-seeded. *)
Lemma initializeUsedDirections_used g id l d :
  GridShape g -> getGridLine g id = Some l ->
  isDirectionUsed (initializeUsedDirections g) id d
  = seededb (rows g) (cols g) id d.
Proof.
  intros Hs Hl. unfold isDirectionUsed, initializeUsedDirections. simpl.
  unfold JsMap.entries.
  rewrite fold_seed_get by (now apply GridShape_NoDup).
  unfold getGridLine in Hl. rewrite Hl, fold_clear_get.
  assert (Hin : memId id (JsMap.keys (gridLines g)) = true).
  { apply memId_In.
    destruct (in_dec GridLineId_eq_dec id (JsMap.keys (gridLines g))); auto.
    apply (get_None_notin GridLineId_eqb_eq) in n. congruence. }
  rewrite Hin. simpl. rewrite DirSet_has_addAll. simpl.
  now apply seedDirs_seeded.
Qed.

Lemma initializeUsedDirections_keys g :
  GridShape g -> UsedShape g \/ usedDirections g = [] ->
  UsedShape (initializeUsedDirections g).
Proof.
  intros Hs Hu. unfold UsedShape, initializeUsedDirections. simpl.
  unfold JsMap.entries. rewrite fold_seed_keys.
  destruct Hu as [Hu|Hu].
  - rewrite fold_clear_keys_present; auto.
    rewrite Hu, (shape_keys g Hs). apply incl_refl.
  - rewrite Hu, fold_clear_keys_empty by (now apply GridShape_NoDup).
    apply (shape_keys g Hs).
Qed.

Lemma newGrid_usedShape nrows ncols : UsedShape (newGrid nrows ncols).
Proof.
  unfold newGrid.
  set (g0 := mkGrid nrows ncols (JsMap.empty _ _) (JsMap.empty _ _)).
  set (g3 := placeBoundaryMirrors (computeConnections (initializeGridLines g0))).
  assert (Hs : GridShape (initializeUsedDirections g3))
    by apply (newGrid_shape nrows ncols).
  assert (Hs3 : GridShape g3).
  { eapply sameLines_shape; [|exact Hs].
    destruct (initializeUsedDirections_sameLines g3) as (a & b & c).
    unfold sameLines. auto. }
  apply initializeUsedDirections_keys; auto. right.
  unfold g3. rewrite placeBoundaryMirrors_visits.
  destruct (setMirrorsTrue_proj
              (boundaryVisits (rows (computeConnections (initializeGridLines g0)))
                 (cols (computeConnections (initializeGridLines g0))))
              (computeConnections (initializeGridLines g0))) as (_ & _ & U & _).
  rewrite U. simpl.
  destruct (initializeGridLines_empty nrows ncols (JsMap.empty _ _))
    as (_ & _ & _ & H4).
  exact H4.
Qed.

(** ** Configured grids *)

Lemma markDirectionUsed_wellFormed g id d :
  WellFormed g -> WellFormed (markDirectionUsed g id d).
Proof.
  intros (A & B & C). pose proof (markDirectionUsed_sameLines g id d) as Hs.
  unfold WellFormed. splits.
  - eapply sameLines_shape; eauto.
  - eapply sameLines_boundary; eauto.
  - unfold UsedShape. rewrite markDirectionUsed_keys.
    destruct Hs as (R & Cc & _). now rewrite R, Cc.
Qed.

Lemma resetUsedDirections_wellFormed g :
  WellFormed g -> WellFormed (resetUsedDirections g).
Proof.
  intros (A & B & C).
  pose proof (initializeUsedDirections_sameLines g) as Hs.
  unfold WellFormed. splits.
  - eapply sameLines_shape; eauto.
  - eapply sameLines_boundary; eauto.
  - apply initializeUsedDirections_keys; auto.
Qed.

Lemma InteriorConfig_inv nrows ncols g :
  InteriorConfig nrows ncols g ->
  rows g = nrows /\ cols g = ncols /\ WellFormed g.
Proof.
  induction 1 as [|g id b H IH Hnb|g id d H IH|g H IH].
  - destruct (newGrid_lines nrows ncols) as (R & C & _). splits; auto.
    unfold WellFormed.
    splits; [apply newGrid_shape | apply newGrid_boundary | apply newGrid_usedShape].
  - destruct IH as (R & C & A & B & U). unfold WellFormed. splits.
    + now rewrite setMirror_rows.
    + now rewrite setMirror_cols.
    + now apply setMirror_shape.
    + intros id' l'. rewrite setMirror_get, setMirror_rows, setMirror_cols.
      destruct (GridLineId_eqb id' id) eqn:E; [|apply B].
      apply GridLineId_eqb_eq in E; subst. intros _ Hb. congruence.
    + unfold UsedShape. now rewrite setMirror_used, setMirror_rows, setMirror_cols.
  - destruct IH as (R & C & W).
    destruct (markDirectionUsed_sameLines g id d) as (R' & C' & _). splits.
    + congruence.
    + congruence.
    + now apply markDirectionUsed_wellFormed.
  - destruct IH as (R & C & W).
    destruct (initializeUsedDirections_sameLines g) as (R' & C' & _). splits.
    + unfold resetUsedDirections. congruence.
    + unfold resetUsedDirections. congruence.
    + now apply resetUsedDirections_wellFormed.
Qed.

(** ** The model's loop budget is never the reason a trace stops *)

Lemma buildCurve_body_length g c l d :
  match buildCurve_body g c l d with
  | Return _ _ _ => True
  | Continue _ c' _ _ => length (curve_gridLines c') = S (length (curve_gridLines c))
  end.
Proof.
  unfold buildCurve_body.
  destruct (getAdjacentGridLine g (line_id l) d) as [[nextLineId|]|]; auto.
  destruct (getGridLine g nextLineId) as [nextGridLine|]; auto.
  cbv zeta. destruct (_ && _ && _); auto.
  simpl. rewrite length_app. simpl. lia.
Qed.

Lemma buildCurve_loop_fuel fuel :
  forall g c l d,
    N.to_nat MAX_SEGMENTS <= fuel + length (curve_gridLines c) ->
    fst (fst (buildCurve_loop fuel g c l d)) <> OutOfFuel.
Proof.
  induction fuel as [|fuel IH]; intros g c l d Hf; cbn [buildCurve_loop].
  - destruct (N.ltb_spec (N.of_nat (length (curve_gridLines c))) MAX_SEGMENTS);
      cbn [negb fst]; [lia | discriminate].
  - destruct (N.ltb_spec (N.of_nat (length (curve_gridLines c))) MAX_SEGMENTS);
      cbn [negb fst]; [|discriminate].
    pose proof (buildCurve_body_length g c l d) as Hl.
    destruct (buildCurve_body g c l d) as [b c1 g1|g1 c1 l1 d1].
    + discriminate.
    + apply IH. lia.
Qed.

Lemma buildCurve_fuel l d g :
  fst (fst (buildCurve (N.to_nat MAX_SEGMENTS) (newMirrorCurve l d) g))
  <> OutOfFuel.
Proof.
  unfold buildCurve, newMirrorCurve. cbn [curve_gridLines curve_directions].
  apply buildCurve_loop_fuel. lia.
Qed.

(** The curve keeps its first line and direction. *)
Lemma buildCurve_body_head g c l d l0 d0 :
  hd_error (curve_gridLines c) = Some l0 ->
  hd_error (curve_directions c) = Some d0 ->
  match buildCurve_body g c l d with
  | Return _ c' _ | Continue _ c' _ _ =>
      hd_error (curve_gridLines c') = Some l0
      /\ hd_error (curve_directions c') = Some d0
  end.
Proof.
  intros Hl Hd. unfold buildCurve_body.
  assert (Happ : forall (A : Type) (xs : list A) (x a : A),
             hd_error xs = Some x -> hd_error (xs ++ [a]) = Some x).
  { intros A xs x a. destruct xs; simpl; [discriminate | auto]. }
  destruct (getAdjacentGridLine g (line_id l) d) as [[nextLineId|]|]; simpl; auto.
  destruct (getGridLine g nextLineId) as [nextGridLine|]; simpl; auto.
  destruct (_ && _ && _); simpl; auto.
Qed.

Lemma buildCurve_loop_head fuel :
  forall g c l d l0 d0 out c' g',
    hd_error (curve_gridLines c) = Some l0 ->
    hd_error (curve_directions c) = Some d0 ->
    buildCurve_loop fuel g c l d = (out, c', g') ->
    hd_error (curve_gridLines c') = Some l0
    /\ hd_error (curve_directions c') = Some d0.
Proof.
  induction fuel as [|fuel IH]; intros g c l d l0 d0 out c' g' Hl Hd;
    cbn [buildCurve_loop].
  - destruct (negb _); intros [= _ <- _]; auto.
  - destruct (negb _); [intros [= _ <- _]; auto|].
    pose proof (buildCurve_body_head g c l d l0 d0 Hl Hd) as Hb.
    destruct (buildCurve_body g c l d) as [b c1 g1|g1 c1 l1 d1].
    + intros [= _ <- _]. exact Hb.
    + destruct Hb. eapply IH; eauto.
Qed.

(** ** The scan order of [findNextCurve] (claim C7) *)

Lemma StronglySorted_app (A : Type) (R : A -> A -> Prop) (l1 l2 : list A) :
  StronglySorted R l1 -> StronglySorted R l2 ->
  (forall a b, In a l1 -> In b l2 -> R a b) ->
  StronglySorted R (l1 ++ l2).
Proof.
  induction l1 as [|a l1 IH]; simpl; intros H1 H2 H; auto.
  inversion H1 as [|? ? Hs Hf]; subst. constructor.
  - apply IH; auto.
  - apply Forall_app. split.
    + exact Hf.
    + apply Forall_forall. intros b Hb. apply H; auto.
Qed.

Lemma StronglySorted_seq start len : StronglySorted lt (seq start len).
Proof.
  revert start. induction len as [|len IH]; intros start; simpl; constructor.
  - apply IH.
  - apply Forall_forall. intros x Hx. apply in_seq in Hx. lia.
Qed.

Lemma StronglySorted_map_cols t row colsL :
  StronglySorted lt colsL ->
  StronglySorted scanBefore (map (fun col => mkId t row col) colsL).
Proof.
  induction 1 as [|c colsL Hs IH Hf]; simpl; constructor; auto.
  apply Forall_forall. intros b Hb. apply in_map_iff in Hb.
  destruct Hb as (c' & <- & Hc'). rewrite Forall_forall in Hf.
  unfold scanBefore; simpl. destruct t; right; split; auto.
Qed.

Lemma StronglySorted_rowcol t rowsL colsL :
  StronglySorted lt rowsL -> StronglySorted lt colsL ->
  StronglySorted scanBefore
    (flat_map (fun row => map (fun col => mkId t row col) colsL) rowsL).
Proof.
  intros Hr Hc. induction Hr as [|r rowsL Hs IH Hf]; simpl; [constructor|].
  apply StronglySorted_app; auto.
  - now apply StronglySorted_map_cols.
  - intros a b Ha Hb. apply in_map_iff in Ha. destruct Ha as (c & <- & _).
    apply in_flat_map in Hb. destruct Hb as (r' & Hr' & Hb).
    apply in_map_iff in Hb. destruct Hb as (c' & <- & _).
    rewrite Forall_forall in Hf. specialize (Hf r' Hr').
    unfold scanBefore; simpl. destruct t; left; exact Hf.
Qed.

Lemma allIds_sorted nrows ncols : StronglySorted scanBefore (allIds nrows ncols).
Proof.
  unfold allIds. apply StronglySorted_app.
  - apply StronglySorted_rowcol; apply StronglySorted_seq.
  - apply StronglySorted_rowcol; apply StronglySorted_seq.
  - intros a b Ha Hb. apply in_horizontalIds in Ha. apply in_verticalIds in Hb.
    destruct Ha as (Ha & _), Hb as (Hb & _). unfold scanBefore.
    now rewrite Ha, Hb.
Qed.

Lemma findNextCurve_scan_skip fuel pre :
  forall rest g,
    (forall e, In e pre -> getUnusedDirections g (fst e) = []) ->
    findNextCurve_scan fuel (pre ++ rest) g = findNextCurve_scan fuel rest g.
Proof.
  induction pre as [|[k l] pre IH]; intros rest g H; simpl; auto.
  pose proof (H (k, l) (or_introl eq_refl)) as Hk. simpl in Hk. rewrite Hk.
  apply IH. intros e He. apply H. now right.
Qed.

Lemma getUnusedDirections_first g id direction ds :
  getUnusedDirections g id = direction :: ds ->
  isDirectionUsed g id direction = false
  /\ forall d', Direction_code d' < Direction_code direction ->
                isDirectionUsed g id d' = true.
Proof.
  unfold getUnusedDirections, isDirectionUsed.
  destruct (getGridLine g id); [|discriminate].
  destruct (JsMap.get GridLineId_eqb (usedDirections g) id) as [s|];
    [|discriminate].
  unfold allDirections. simpl.
  destruct (DirSet_has s NW) eqn:E1, (DirSet_has s NE) eqn:E2,
    (DirSet_has s SW) eqn:E3, (DirSet_has s SE) eqn:E4;
    simpl; intros [= <- _]; (split; [assumption|]);
    intros d'; destruct d'; simpl; intros Hlt; try assumption; lia.
Qed.

(** C7. On a configured grid the lines are scanned in the order all
    horizontal lines row-major, then all vertical lines row-major.
    [findNextCurve] returns no curve (and leaves the grid as it is) when no
    line has an unused direction.  Otherwise it passes over the lines without
    unused directions and starts its trace at the first line that has one,
    in that line's first unused direction in the order NW, NE, SW, SE; the
    curve of a successful trace is returned, and after a failed one the scan
    goes on with the following lines. *)
Theorem findNextCurve_scan_contract :
  forall nrows ncols g,
    InteriorConfig nrows ncols g ->
    JsMap.keys (JsMap.entries (gridLines g))
    = horizontalIds nrows ncols ++ verticalIds nrows ncols
    /\ StronglySorted scanBefore (JsMap.keys (JsMap.entries (gridLines g)))
    /\ (forall id,
           In id (JsMap.keys (JsMap.entries (gridLines g)))
           <-> validId nrows ncols id)
    /\ ((forall id, validId nrows ncols id -> getUnusedDirections g id = []) ->
        findNextCurve g = Some (None, g))
    /\ (forall pre id line post direction others,
           JsMap.entries (gridLines g) = pre ++ (id, line) :: post ->
           (forall e, In e pre -> getUnusedDirections g (fst e) = []) ->
           getUnusedDirections g id = direction :: others ->
           isDirectionUsed g id direction = false
           /\ (forall d', Direction_code d' < Direction_code direction ->
                          isDirectionUsed g id d' = true)
           /\ exists out c g',
                buildCurve (N.to_nat MAX_SEGMENTS)
                  (newMirrorCurve line direction) g = (out, c, g')
                /\ hd_error (curve_gridLines c) = Some line
                /\ hd_error (curve_directions c) = Some direction
                /\ out <> OutOfFuel
                /\ (out = Returned true ->
                    findNextCurve g = Some (Some c, g'))
                /\ (out <> Returned true ->
                    findNextCurve g
                    = findNextCurve_scan (N.to_nat MAX_SEGMENTS) post g')).
Proof.
  intros nrows ncols g Hcfg.
  destruct (InteriorConfig_inv nrows ncols g Hcfg) as (R & C & Hs & Hb & Hu).
  pose proof (shape_keys g Hs) as Hk. rewrite R, C in Hk.
  unfold JsMap.entries. splits.
  - exact Hk.
  - rewrite Hk. apply allIds_sorted.
  - intros id. rewrite Hk. apply in_allIds.
  - intros Hnone. unfold findNextCurve, JsMap.entries.
    rewrite <- (app_nil_r (gridLines g)).
    rewrite findNextCurve_scan_skip; [reflexivity|].
    intros [k l] Hin. apply Hnone. apply in_allIds. rewrite <- Hk.
    change k with (fst (k, l)). unfold JsMap.keys. now apply in_map.
  - intros pre id line post direction others Hsplit Hpre Hun.
    destruct (getUnusedDirections_first g id direction others Hun) as [H1 H2].
    splits; auto.
    pose proof (buildCurve_fuel line direction g) as Hfuel.
    unfold findNextCurve, JsMap.entries. rewrite Hsplit.
    rewrite findNextCurve_scan_skip by exact Hpre.
    remember (N.to_nat MAX_SEGMENTS) as fuel eqn:Efuel.
    cbn [findNextCurve_scan]. rewrite Hun.
    destruct (buildCurve fuel (newMirrorCurve line direction) g)
      as [[out c] g'] eqn:B.
    exists out, c, g'. cbn [fst] in Hfuel.
    assert (Hhead : hd_error (curve_gridLines c) = Some line
                    /\ hd_error (curve_directions c) = Some direction).
    { unfold buildCurve, newMirrorCurve in B.
      cbn [curve_gridLines curve_directions] in B.
      eapply buildCurve_loop_head in B; eauto. }
    destruct Hhead. splits; auto.
    + intros ->. reflexivity.
    + intros Hne. destruct out as [[|]| |]; try reflexivity; congruence.
Qed.

Lemma findNextCurve_scan_contract_witness :
  let g := resetUsedDirections (setMirror (newGrid 2 2) (mkId tag_h 1 0) true) in
  JsMap.keys (JsMap.entries (gridLines g))
  = horizontalIds 2 2 ++ verticalIds 2 2
  /\ StronglySorted scanBefore (JsMap.keys (JsMap.entries (gridLines g)))
  /\ (forall id,
         In id (JsMap.keys (JsMap.entries (gridLines g))) <-> validId 2 2 id)
  /\ ((forall id, validId 2 2 id -> getUnusedDirections g id = []) ->
      findNextCurve g = Some (None, g))
  /\ (isDirectionUsed g (mkId tag_h 0 0) SW = false
      /\ (forall d', Direction_code d' < Direction_code SW ->
                     isDirectionUsed g (mkId tag_h 0 0) d' = true)
      /\ exists out c g',
           buildCurve (N.to_nat MAX_SEGMENTS)
             (newMirrorCurve (builtLine 2 2 (mkId tag_h 0 0)) SW) g
           = (out, c, g')
           /\ hd_error (curve_gridLines c) = Some (builtLine 2 2 (mkId tag_h 0 0))
           /\ hd_error (curve_directions c) = Some SW
           /\ out <> OutOfFuel
           /\ (out = Returned true -> findNextCurve g = Some (Some c, g'))
           /\ (out <> Returned true ->
               findNextCurve g
               = findNextCurve_scan (N.to_nat MAX_SEGMENTS)
                   (tl (JsMap.entries (gridLines g))) g')).
Proof.
  intros g.
  assert (Hcfg : InteriorConfig 2 2 g).
  { apply config_reset, config_setMirror; [apply config_new | reflexivity]. }
  destruct (findNextCurve_scan_contract 2 2 g Hcfg) as (H1 & H2 & H3 & H4 & H5).
  assert (H6 : isDirectionUsed g (mkId tag_h 0 0) SW = false
               /\ (forall d', Direction_code d' < Direction_code SW ->
                              isDirectionUsed g (mkId tag_h 0 0) d' = true)
               /\ exists out c g',
                    buildCurve (N.to_nat MAX_SEGMENTS)
                      (newMirrorCurve (builtLine 2 2 (mkId tag_h 0 0)) SW) g
                    = (out, c, g')
                    /\ hd_error (curve_gridLines c)
                       = Some (builtLine 2 2 (mkId tag_h 0 0))
                    /\ hd_error (curve_directions c) = Some SW
                    /\ out <> OutOfFuel
                    /\ (out = Returned true -> findNextCurve g = Some (Some c, g'))
                    /\ (out <> Returned true ->
                        findNextCurve g
                        = findNextCurve_scan (N.to_nat MAX_SEGMENTS)
                            (tl (JsMap.entries (gridLines g))) g')).
  { apply (H5 [] (mkId tag_h 0 0) (builtLine 2 2 (mkId tag_h 0 0))
             (tl (JsMap.entries (gridLines g))) SW [SE]).
    - vm_compute. reflexivity.
    - intros e [].
    - vm_compute. reflexivity. }
  exact (conj H1 (conj H2 (conj H3 (conj H4 H6)))).
Defined.

(** ** The reflection walk as a map on (line, direction) states *)

Lemma TraceState_eq_dec (a b : TraceState) : {a = b} + {a <> b}.
Proof.
  destruct a as [i d], b as [j e].
  destruct (GridLineId_eq_dec i j) as [->|Hn].
  - destruct (Direction_eq_dec d e) as [->|Hd].
    + left; reflexivity.
    + right; congruence.
  - right; congruence.
Qed.

Lemma reflectDir_invol t m d : reflectDir t m (reflectDir t m d) = d.
Proof. destruct t, m, d; reflexivity. Qed.

Lemma reflectDir_opposite t m d :
  reflectDir t m (opposite d) = opposite (reflectDir t m d).
Proof. destruct t, m, d; reflexivity. Qed.

Lemma reflectDir_not_opposite t m d : reflectDir t m d <> opposite d.
Proof. destruct t, m, d; discriminate. Qed.

Lemma opposite_invol d : opposite (opposite d) = d.
Proof. destruct d; reflexivity. Qed.

Lemma neighbor_back nrows ncols id d id' :
  validId nrows ncols id ->
  neighbor nrows ncols id d = Some id' ->
  neighbor nrows ncols id' (opposite d) = Some id.
Proof.
  destruct id as [t row col]. unfold validId, neighbor; cbn [idTag idRow idCol].
  destruct t, d; cbn [opposite]; intros Hv;
    repeat match goal with
           | |- context [?a <? ?b] => destruct (Nat.ltb_spec a b); cbn [andb]
           end; intros [= <-]; cbn [idTag idRow idCol];
    repeat match goal with
           | |- context [?a <? ?b] => destruct (Nat.ltb_spec a b); cbn [andb]
           end; cbn [idTag idRow idCol] in *;
    try (exfalso; lia); f_equal; f_equal; lia.
Qed.

Lemma neighbor_tag nrows ncols id d id' :
  neighbor nrows ncols id d = Some id' -> idTag id' <> idTag id.
Proof.
  destruct id as [t row col]. unfold neighbor; simpl.
  destruct t, d; simpl;
    repeat match goal with
           | |- context [?a <? ?b] => destruct (a <? b); simpl
           end; intros [= <-]; simpl; discriminate.
Qed.

Lemma seeded_iff_null nrows ncols id d :
  1 <= nrows -> 1 <= ncols -> validId nrows ncols id ->
  (seededb nrows ncols id d = true <-> neighbor nrows ncols id d = None).
Proof.
  destruct id as [t row col]. unfold validId, neighbor, seededb; simpl.
  intros Hr Hc Hv.
  destruct t, d; simpl;
    repeat match goal with
           | |- context [?a =? ?b] => destruct (Nat.eqb_spec a b); simpl
           end;
    repeat match goal with
           | |- context [?a <? ?b] => destruct (Nat.ltb_spec a b); simpl
           end; try lia; split; intros; congruence.
Qed.

Lemma reflect_unseeded nrows ncols id d id' m :
  1 <= nrows -> 1 <= ncols -> validId nrows ncols id ->
  neighbor nrows ncols id d = Some id' ->
  (boundaryId nrows ncols id' = true -> m = true) ->
  seededb nrows ncols id' (reflectDir (idTag id') m d) = false.
Proof.
  destruct id as [t row col]. unfold validId, neighbor, seededb, boundaryId; simpl.
  intros Hr Hc Hv.
  destruct t, d; simpl;
    repeat match goal with
           | |- context [?a <? ?b] => destruct (Nat.ltb_spec a b); simpl
           end; intros [= <-]; simpl;
    repeat match goal with
           | |- context [?a =? ?b] => destruct (Nat.eqb_spec a b); simpl
           end; intros Hm; try reflexivity; try lia;
    rewrite Hm by reflexivity; reflexivity.
Qed.

Lemma Rv_unseeded nrows ncols id d m :
  (boundaryId nrows ncols id = true -> m = true) ->
  seededb nrows ncols id d = false ->
  seededb nrows ncols id (opposite (reflectDir (idTag id) m d)) = false.
Proof.
  destruct id as [t row col]. unfold seededb, boundaryId; simpl.
  destruct t; simpl;
    repeat match goal with
           | |- context [?a =? ?b] => destruct (Nat.eqb_spec a b); simpl
           end; intros Hm; try reflexivity;
    rewrite Hm by reflexivity; destruct d; simpl; congruence.
Qed.

Section Walk.

Variables nrows ncols : nat.
Hypothesis Hrows : 1 <= nrows.
Hypothesis Hcols : 1 <= ncols.

(** The mirror flags; the boundary lines are mirrors. *)
Variable mir : GridLineId -> bool.
Hypothesis mir_boundary :
  forall id, boundaryId nrows ncols id = true -> mir id = true.

Lemma inU_neighbor s :
  inU nrows ncols s -> exists id', neighbor nrows ncols (fst s) (snd s) = Some id'.
Proof.
  intros [Hv Hs].
  destruct (neighbor nrows ncols (fst s) (snd s)) as [id'|] eqn:E; eauto.
  apply seeded_iff_null in E; auto. congruence.
Qed.

Lemma inU_next s : inU nrows ncols s -> inU nrows ncols (nextState nrows ncols mir s).
Proof.
  intros H. destruct (inU_neighbor s H) as [id' E]. destruct H as [Hv Hs].
  unfold nextState. rewrite E. split; simpl.
  - eapply neighbor_valid; eauto.
  - eapply reflect_unseeded; eauto.
Qed.

Lemma next_inj s1 s2 :
  inU nrows ncols s1 -> inU nrows ncols s2 -> nextState nrows ncols mir s1 = nextState nrows ncols mir s2 -> s1 = s2.
Proof.
  intros H1 H2. destruct (inU_neighbor s1 H1) as [i1 E1].
  destruct (inU_neighbor s2 H2) as [i2 E2].
  unfold nextState. rewrite E1, E2. intros [= Hi Hd]. subst i2.
  apply (f_equal (reflectDir (idTag i1) (mir i1))) in Hd.
  rewrite !reflectDir_invol in Hd.
  destruct H1 as [V1 _], H2 as [V2 _].
  apply neighbor_back in E1, E2; auto. rewrite Hd in E1.
  destruct s1, s2; simpl in *. congruence.
Qed.

Lemma next_tag s : inU nrows ncols s -> idTag (fst (nextState nrows ncols mir s)) <> idTag (fst s).
Proof.
  intros H. destruct (inU_neighbor s H) as [id' E].
  unfold nextState. rewrite E. simpl. eapply neighbor_tag; eauto.
Qed.

Lemma reverseSide_invol s : reverseSide mir (reverseSide mir s) = s.
Proof.
  destruct s as [id d]. unfold reverseSide; simpl.
  now rewrite reflectDir_opposite, reflectDir_invol, opposite_invol.
Qed.

Lemma reverseSide_inU s : inU nrows ncols s -> inU nrows ncols (reverseSide mir s).
Proof.
  intros [Hv Hs]. split; simpl; auto. apply Rv_unseeded; auto.
Qed.

Lemma reverseSide_neq s : reverseSide mir s <> s.
Proof.
  destruct s as [id d]. unfold reverseSide; simpl. intros [= H].
  apply (f_equal opposite) in H. rewrite opposite_invol in H.
  now apply reflectDir_not_opposite in H.
Qed.

Lemma reverseSide_next s :
  inU nrows ncols s -> reverseSide mir (nextState nrows ncols mir s) = (fst (nextState nrows ncols mir s), opposite (snd s)).
Proof.
  intros H. destruct (inU_neighbor s H) as [id' E].
  unfold nextState, reverseSide. rewrite E. simpl.
  now rewrite reflectDir_invol.
Qed.

Lemma next_reverse_next s :
  inU nrows ncols s -> nextState nrows ncols mir (reverseSide mir (nextState nrows ncols mir s)) = reverseSide mir s.
Proof.
  intros H. rewrite reverseSide_next by assumption.
  destruct (inU_neighbor s H) as [id' E]. destruct H as [Hv _].
  unfold nextState. rewrite E. cbn [fst snd].
  rewrite (neighbor_back nrows ncols (fst s) (snd s) id' Hv E).
  unfold reverseSide. now rewrite reflectDir_opposite.
Qed.

Lemma walk_S k s : walk nrows ncols mir (S k) s = nextState nrows ncols mir (walk nrows ncols mir k s).
Proof. reflexivity. Qed.

Lemma walk_add i k s : walk nrows ncols mir (i + k) s = walk nrows ncols mir i (walk nrows ncols mir k s).
Proof. unfold walk. apply Nat.iter_add. Qed.

Lemma walk_inU k s : inU nrows ncols s -> inU nrows ncols (walk nrows ncols mir k s).
Proof.
  intros H. induction k as [|k IH]; [exact H|].
  rewrite walk_S. now apply inU_next.
Qed.

Lemma walk_tag k s :
  inU nrows ncols s -> idTag (fst (walk nrows ncols mir (S k) s)) <> idTag (fst (walk nrows ncols mir k s)).
Proof. intros H. rewrite walk_S. apply next_tag. now apply walk_inU. Qed.

Lemma walk_cancel s i :
  inU nrows ncols s -> forall j, walk nrows ncols mir i s = walk nrows ncols mir (i + j) s -> s = walk nrows ncols mir j s.
Proof.
  intros H. induction i as [|i IH]; intros j E; [exact E|].
  apply IH. change (S i + j) with (S (i + j)) in E.
  rewrite !walk_S in E. apply next_inj in E; auto; now apply walk_inU.
Qed.

(** A walk nrows ncols mir never meets the reverse side of any of its own states. *)
Lemma walk_reverse_shift s k :
  inU nrows ncols s ->
  forall i j,
    walk nrows ncols mir (i + k) s = reverseSide mir (walk nrows ncols mir j s) ->
    walk nrows ncols mir i s = reverseSide mir (walk nrows ncols mir (j + k) s).
Proof.
  intros H. induction k as [|k IH]; intros i j E.
  - now rewrite Nat.add_0_r in *.
  - rewrite Nat.add_succ_r in *. rewrite walk_S in E.
    rewrite <- (next_reverse_next (walk nrows ncols mir j s)) in E by (now apply walk_inU).
    apply next_inj in E.
    + rewrite <- walk_S in E. apply IH in E. exact E.
    + now apply walk_inU.
    + apply reverseSide_inU, inU_next. now apply walk_inU.
Qed.

Lemma walk_not_reverse s i j :
  inU nrows ncols s -> walk nrows ncols mir i s <> reverseSide mir (walk nrows ncols mir j s).
Proof.
  intros H E.
  assert (E0 : walk nrows ncols mir 0 s = reverseSide mir (walk nrows ncols mir (j + i) s)).
  { apply (walk_reverse_shift s i H 0 j). exact E. }
  assert (E1 : walk nrows ncols mir (j + i) s = reverseSide mir (walk nrows ncols mir 0 s)).
  { rewrite E0. now rewrite reverseSide_invol. }
  destruct (Nat.Even_or_Odd (j + i)) as [[m Hm]|[m Hm]].
  - assert (E2 : walk nrows ncols mir m s = reverseSide mir (walk nrows ncols mir (0 + m) s)).
    { apply (walk_reverse_shift s m H m 0). rewrite <- E1. f_equal. lia. }
    change (0 + m) with m in E2. symmetry in E2. now apply reverseSide_neq in E2.
  - assert (E2 : walk nrows ncols mir (S m) s = reverseSide mir (walk nrows ncols mir (0 + m) s)).
    { apply (walk_reverse_shift s m H (S m) 0). rewrite <- E1. f_equal. lia. }
    change (0 + m) with m in E2. apply (walk_tag m s H). now rewrite E2.
Qed.

Lemma inU_allStates s : inU nrows ncols s -> In s (allStates nrows ncols).
Proof.
  intros [Hv _]. destruct s as [id d]. apply in_prod.
  - now apply in_allIds.
  - destruct d; simpl; auto.
Qed.

Lemma length_allStates : length (allStates nrows ncols) = 4 * length (allIds nrows ncols).
Proof. unfold allStates, TraceState. rewrite length_prod. simpl. lia. Qed.

Lemma walk_returns s :
  inU nrows ncols s ->
  exists n, 1 <= n <= length (allStates nrows ncols) /\ walk nrows ncols mir n s = s.
Proof.
  intros H.
  set (N := length (allStates nrows ncols)).
  destruct (Exists_dec (fun k => walk nrows ncols mir k s = s) (seq 1 N)) as [Hex|Hnone].
  { intros k. apply TraceState_eq_dec. }
  - apply Exists_exists in Hex. destruct Hex as (n & Hin & Hn).
    apply in_seq in Hin. exists n. split; [lia | exact Hn].
  - exfalso.
    assert (Hne : forall k, 1 <= k <= N -> walk nrows ncols mir k s <> s).
    { intros k Hk Hw. apply Hnone. apply Exists_exists. exists k.
      split; [apply in_seq; lia | exact Hw]. }
    assert (Hnd : NoDup (map (fun k => walk nrows ncols mir k s) (seq 0 (S N)))).
    { apply (NoDup_nth _ s). intros i j Hi Hj.
      rewrite length_map, length_seq in Hi, Hj.
      assert (Hnth : forall k, k < S N ->
                 nth k (map (fun k => walk nrows ncols mir k s) (seq 0 (S N))) s = walk nrows ncols mir k s).
      { intros k Hk.
        rewrite (nth_indep _ s (walk nrows ncols mir 0 s))
          by (rewrite length_map, length_seq; exact Hk).
        rewrite (map_nth (fun k => walk nrows ncols mir k s)).
        rewrite seq_nth by exact Hk. reflexivity. }
      rewrite (Hnth i Hi), (Hnth j Hj).
      intros E. destruct (Nat.lt_trichotomy i j) as [Hlt|[Heq|Hgt]]; auto.
      - exfalso. replace j with (i + (j - i)) in E by lia.
        apply walk_cancel in E; auto. apply (Hne (j - i)); [lia | now symmetry].
      - exfalso. replace i with (j + (i - j)) in E by lia. symmetry in E.
        apply walk_cancel in E; auto. apply (Hne (i - j)); [lia | now symmetry]. }
    apply NoDup_incl_length with (l' := (allStates nrows ncols)) in Hnd.
    + rewrite length_map, length_seq in Hnd. fold N in Hnd. lia.
    + intros x Hx. apply in_map_iff in Hx. destruct Hx as (k & <- & _).
      apply inU_allStates. now apply walk_inU.
Qed.

Lemma first_such (P : nat -> Prop) (dec : forall k, {P k} + {~ P k}) :
  forall n, P n -> exists m, m <= n /\ P m /\ forall k, k < m -> ~ P k.
Proof.
  induction n as [n IH] using lt_wf_ind. intros Hn.
  destruct (Exists_dec P (seq 0 n) dec) as [Hex|Hnone].
  - apply Exists_exists in Hex. destruct Hex as (k & Hin & Hk).
    apply in_seq in Hin. destruct (IH k) as (m & Hm & Pm & Hmin); [lia | auto |].
    exists m. split; [lia | auto].
  - exists n. split; [lia|]. split; auto. intros k Hk Pk. apply Hnone.
    apply Exists_exists. exists k. split; [apply in_seq; lia | exact Pk].
Qed.

(** The period: the first return of the walk nrows ncols mir to its start. *)
Lemma walk_period s :
  inU nrows ncols s ->
  exists n,
    2 <= n <= length (allStates nrows ncols)
    /\ walk nrows ncols mir n s = s
    /\ forall k, 1 <= k < n -> walk nrows ncols mir k s <> s.
Proof.
  intros H. destruct (walk_returns s H) as (n0 & Hn0 & Hw0).
  destruct (first_such (fun k => 1 <= k /\ walk nrows ncols mir k s = s)) with (n := n0)
    as (n & Hle & [Hn1 Hwn] & Hmin).
  { intros k. destruct (le_dec 1 k); [|right; tauto].
    destruct (TraceState_eq_dec (walk nrows ncols mir k s) s); [left; auto | right; tauto]. }
  { split; [lia | exact Hw0]. }
  exists n. splits.
  - destruct (Nat.eq_dec n 1) as [->|]; [|lia].
    exfalso. apply (walk_tag 0 s H). simpl. now rewrite <- Hwn at 2.
  - lia.
  - exact Hwn.
  - intros k Hk Hw. apply (Hmin k); [lia | split; [lia | exact Hw]].
Qed.

Lemma walk_distinct s n :
  inU nrows ncols s ->
  (forall k, 1 <= k < n -> walk nrows ncols mir k s <> s) ->
  forall i j, i < j < n -> walk nrows ncols mir i s <> walk nrows ncols mir j s.
Proof.
  intros H Hmin i j Hij E. replace j with (i + (j - i)) in E by lia.
  apply walk_cancel in E; auto. apply (Hmin (j - i)); [lia | now symmetry].
Qed.

End Walk.

(** ** The tracer follows the walk *)

Lemma TraceState_eqb_eq a b : TraceState_eqb a b = true <-> a = b.
Proof.
  destruct a as [i d], b as [j e]. unfold TraceState_eqb; simpl.
  rewrite andb_true_iff, GridLineId_eqb_eq, Direction_eqb_eq.
  split; [intros [-> ->]; reflexivity | intros [= -> ->]; auto].
Qed.

Lemma TraceState_eqb_refl a : TraceState_eqb a a = true.
Proof. now apply TraceState_eqb_eq. Qed.

Lemma mirOf_boundary g :
  BoundaryMirrors g ->
  forall id, boundaryId (rows g) (cols g) id = true -> mirOf g id = true.
Proof.
  intros Hb id Hbd. unfold mirOf.
  destruct (getGridLine g id) as [l|] eqn:E; auto. eapply Hb; eauto.
Qed.

Lemma mirOf_sameLines g g' id : sameLines g g' -> mirOf g' id = mirOf g id.
Proof. intros H. unfold mirOf. now rewrite (sameLines_get g g' id H). Qed.

Lemma reflect_at_line g id l d :
  GridShape g -> getGridLine g id = Some l ->
  (if isMirror l then getReflectedDirection g id d else d)
  = reflectDir (idTag id) (mirOf g id) d.
Proof.
  intros Hs Hl. destruct (shape_lines g Hs id l Hl) as (_ & Ht & _).
  unfold getReflectedDirection, mirOf, reflectDir. rewrite Hl.
  destruct (isMirror l); auto. simpl. rewrite Ht.
  destruct (idTag id), d; reflexivity.
Qed.

Lemma markTwice_used g id d1 d2 x :
  JsMap.has GridLineId_eqb (usedDirections g) id = true ->
  usedState (markDirectionUsed (markDirectionUsed g id d1) id d2) x
  = usedState g x || TraceState_eqb x (id, d1) || TraceState_eqb x (id, d2).
Proof.
  intros Hh. unfold usedState, TraceState_eqb; simpl.
  assert (Hh1 : JsMap.has GridLineId_eqb
                  (usedDirections (markDirectionUsed g id d1)) id = true).
  { apply has_true_iff. rewrite markDirectionUsed_keys. now apply has_true_iff. }
  rewrite !markDirectionUsed_used, Hh1, Hh. reflexivity.
Qed.

Lemma UsedShape_has g id :
  UsedShape g -> validId (rows g) (cols g) id ->
  JsMap.has GridLineId_eqb (usedDirections g) id = true.
Proof.
  intros Hu Hv. apply has_true_iff. rewrite Hu. now apply in_allIds.
Qed.

Lemma markTwice_usedShape g id d1 d2 :
  UsedShape g -> UsedShape (markDirectionUsed (markDirectionUsed g id d1) id d2).
Proof.
  intros Hu. unfold UsedShape. rewrite !markDirectionUsed_keys.
  destruct (markDirectionUsed_sameLines g id d1) as (R1 & C1 & _).
  destruct (markDirectionUsed_sameLines (markDirectionUsed g id d1) id d2)
    as (R2 & C2 & _).
  rewrite R2, C2, R1, C1. exact Hu.
Qed.

Lemma markTwice_sameLines g id d1 d2 :
  sameLines g (markDirectionUsed (markDirectionUsed g id d1) id d2).
Proof. eapply sameLines_trans; apply markDirectionUsed_sameLines. Qed.

Section Trace.

Variables nrows ncols : nat.
Hypothesis Hrows : 1 <= nrows.
Hypothesis Hcols : 1 <= ncols.

(** The grid whose lines are traced; its used directions play no role. *)
Variable G : Grid.
Hypothesis G_rows : rows G = nrows.
Hypothesis G_cols : cols G = ncols.
Hypothesis G_shape : GridShape G.
Hypothesis G_boundary : BoundaryMirrors G.

Let next := nextState nrows ncols (mirOf G).
Let rev := reverseSide (mirOf G).
Let U := inU nrows ncols.

Lemma G_mir_boundary :
  forall id, boundaryId nrows ncols id = true -> mirOf G id = true.
Proof. rewrite <- G_rows, <- G_cols. now apply mirOf_boundary. Qed.

(** The body of the loop at a state of the walk. *)
Lemma body_on_walk g cv cur s l0 i :
  sameLines G g -> UsedShape g ->
  U s -> line_id cur = fst s ->
  hd_error (curve_gridLines cv) = Some l0 ->
  hd_error (curve_directions cv) <> None ->
  length (curve_gridLines cv) = S i ->
  exists l',
    getGridLine G (fst (next s)) = Some l'
    /\ line_id l' = fst (next s)
    /\ let g2 := markDirectionUsed
                   (markDirectionUsed g (fst (next s)) (snd (next s)))
                   (fst (next s)) (opposite (snd s)) in
       buildCurve_body g cv cur (snd s)
       = if (1 <=? i)
            && GridLineId_eqb (fst (next s)) (line_id l0)
            && Direction_eqb (snd (next s))
                 (hd (snd (next s)) (curve_directions cv))
         then Return true (set_isClosed (addSegment cv l' (snd (next s)))) g2
         else Continue g2 (addSegment cv l' (snd (next s))) l' (snd (next s)).
Proof.
  intros Hsl Hus Hs Hcur Hl0 Hd0 Hlen.
  destruct (inU_neighbor nrows ncols Hrows Hcols s Hs) as [id' E].
  assert (Hs' : U (next s)).
  { apply inU_next; auto. apply G_mir_boundary. }
  assert (Hnext : next s = (id', reflectDir (idTag id') (mirOf G id') (snd s))).
  { unfold next, nextState. now rewrite E. }
  destruct Hs as [Hv Hseed]. destruct Hs' as [Hv' _].
  rewrite Hnext in *. cbn [fst snd] in *.
  assert (Hshape_g : GridShape g) by (eapply sameLines_shape; eauto).
  destruct Hsl as (Rg & Cg & Lg).
  destruct (valid_getGridLine G (fst s)) as [lc Hlc]; auto.
  { now rewrite G_rows, G_cols. }
  destruct (valid_getGridLine G id') as [l' Hl']; auto.
  { now rewrite G_rows, G_cols. }
  exists l'. splits; auto.
  { now destruct (shape_lines G G_shape id' l' Hl'). }
  assert (Hgl : forall id, getGridLine g id = getGridLine G id).
  { intros id. unfold getGridLine. now rewrite Lg. }
  unfold buildCurve_body, getAdjacentGridLine.
  rewrite Hcur, Hgl, Hlc.
  rewrite (GridShape_conn G (fst s) lc (snd s) G_shape Hlc), G_rows, G_cols, E.
  rewrite Hgl, Hl'. cbv zeta.
  assert (Hrefl : (if isMirror l'
                   then getReflectedDirection g id' (snd s) else snd s)
                  = reflectDir (idTag id') (mirOf G id') (snd s)).
  { rewrite (reflect_at_line g id' l' (snd s) Hshape_g).
    - unfold mirOf. now rewrite Hgl.
    - now rewrite Hgl. }
  rewrite Hrefl, oppositeOf_opposite.
  assert (Hlen' : (2 <? length (curve_gridLines
                     (addSegment cv l'
                        (reflectDir (idTag id') (mirOf G id') (snd s)))))
                  = (1 <=? i)).
  { cbn [addSegment curve_gridLines]. rewrite length_app, Hlen. cbn [length].
    destruct (Nat.leb_spec 1 i), (Nat.ltb_spec 2 (S i + 1)); auto; lia. }
  rewrite Hlen'.
  assert (Hhd : line_id (hd l' (curve_gridLines
                     (addSegment cv l'
                        (reflectDir (idTag id') (mirOf G id') (snd s)))))
                = line_id l0).
  { simpl. destruct (curve_gridLines cv); simpl in *; congruence. }
  assert (Hhd' : hd (reflectDir (idTag id') (mirOf G id') (snd s))
                   (curve_directions
                      (addSegment cv l'
                         (reflectDir (idTag id') (mirOf G id') (snd s))))
                 = hd (reflectDir (idTag id') (mirOf G id') (snd s))
                     (curve_directions cv)).
  { simpl. destruct (curve_directions cv); simpl in *; congruence. }
  rewrite Hhd, Hhd'.
  assert (Hid : line_id l' = id').
  { now destruct (shape_lines G G_shape id' l' Hl'). }
  rewrite Hid. reflexivity.
Qed.

(** A trace that starts at [s0], whose walk first returns to [s0] after
    [n] steps, [n] below the segment cap. *)
Variable s0 : TraceState.
Hypothesis s0_U : U s0.
Variable n : nat.
Hypothesis n_ge : 2 <= n.
Hypothesis n_period : walk nrows ncols (mirOf G) n s0 = s0.
Hypothesis n_min :
  forall k, 1 <= k < n -> walk nrows ncols (mirOf G) k s0 <> s0.
Hypothesis n_max : (N.of_nat n < MAX_SEGMENTS)%N.

Let w (k : nat) : TraceState := walk nrows ncols (mirOf G) k s0.

Lemma w_U k : U (w k).
Proof. apply walk_inU; auto. apply G_mir_boundary. Qed.

Lemma w_S k : w (S k) = next (w k).
Proof. reflexivity. Qed.

Lemma combine_snoc (A B : Type) (xs : list A) (ys : list B) (x : A) (y : B) :
  length xs = length ys ->
  combine (xs ++ [x]) (ys ++ [y]) = combine xs ys ++ [(x, y)].
Proof.
  revert ys. induction xs as [|a xs IH]; intros [|b ys] H; simpl in *;
    try discriminate; auto.
  f_equal. apply IH. now inversion H.
Qed.

Lemma stepsOf_addSegment cv l d :
  length (curve_gridLines cv) = length (curve_directions cv) ->
  stepsOf (addSegment cv l d) = stepsOf cv ++ [(line_id l, d)].
Proof.
  intros H. unfold stepsOf. simpl. rewrite map_app. simpl.
  apply combine_snoc. now rewrite length_map.
Qed.

Lemma trace_loop k :
  forall i g cv cur fuel l0,
    i + k = n -> 1 <= k -> k <= fuel ->
    sameLines G g -> UsedShape g ->
    line_id cur = fst (w i) ->
    hd_error (curve_gridLines cv) = Some l0 ->
    line_id l0 = fst s0 ->
    hd_error (curve_directions cv) = Some (snd s0) ->
    length (curve_gridLines cv) = S i ->
    length (curve_directions cv) = S i ->
    stepsOf cv = map w (seq 0 (S i)) ->
    isClosed cv = false -> leftGrid cv = false ->
    exists cv' g',
      buildCurve_loop fuel g cv cur (snd (w i)) = (Returned true, cv', g')
      /\ stepsOf cv' = map w (seq 0 (S n))
      /\ isClosed cv' = true /\ leftGrid cv' = false
      /\ sameLines G g' /\ UsedShape g'
      /\ forall x, usedState g' x = usedState g x || markedBy nrows ncols G s0 x (S i) k.
Proof.
  induction k as [|k IH];
    intros i g cv cur fuel l0 Hik Hk Hfuel Hsl Hus Hcur Hl0 Hid0 Hd0 Hlen
      Hlend Hsteps Hclosed Hleft; [lia|].
  destruct fuel as [|fuel]; [lia|].
  cbn [buildCurve_loop]. rewrite Hlen.
  destruct (N.ltb_spec (N.of_nat (S i)) MAX_SEGMENTS) as [_|Hbad]; [|lia].
  cbn [negb].
  destruct (body_on_walk g cv cur (w i) l0 i Hsl Hus (w_U i) Hcur Hl0)
    as (l' & Hl' & Hidl' & Hbody); auto.
  { rewrite Hd0. discriminate. }
  cbv zeta in Hbody. rewrite Hbody. clear Hbody.
  fold (w (S i)) in *. rewrite <- w_S in *.
  set (g2 := markDirectionUsed
               (markDirectionUsed g (fst (w (S i))) (snd (w (S i))))
               (fst (w (S i))) (opposite (snd (w i)))).
  assert (Hv' : validId (rows g) (cols g) (fst (w (S i)))).
  { destruct Hsl as (Rg & Cg & _). rewrite Rg, Cg, G_rows, G_cols.
    apply (w_U (S i)). }
  assert (Hused2 : forall x,
             usedState g2 x
             = usedState g x || (TraceState_eqb x (w (S i))
                                 || TraceState_eqb x (rev (w (S i))))).
  { intros x. unfold g2. rewrite markTwice_used by (now apply UsedShape_has).
    rewrite <- orb_assoc. f_equal.
    replace (fst (w (S i)), snd (w (S i))) with (w (S i))
      by (now destruct (w (S i))).
    f_equal. rewrite w_S. unfold rev, next.
    rewrite reverseSide_next; auto. apply w_U. }
  assert (Hsl2 : sameLines G g2).
  { eapply sameLines_trans; [exact Hsl | apply markTwice_sameLines]. }
  assert (Hus2 : UsedShape g2) by (now apply markTwice_usedShape).
  assert (Hsteps2 : stepsOf (addSegment cv l' (snd (w (S i))))
                    = map w (seq 0 (S (S i)))).
  { rewrite stepsOf_addSegment by congruence.
    rewrite Hsteps, (seq_S (S i) 0), map_app. cbn [map Nat.add]. rewrite Hidl'.
    now destruct (w (S i)). }
  assert (Htest : GridLineId_eqb (fst (w (S i))) (line_id l0)
                  && Direction_eqb (snd (w (S i)))
                       (hd (snd (w (S i))) (curve_directions cv))
                  = TraceState_eqb (w (S i)) s0).
  { unfold TraceState_eqb. rewrite Hid0.
    destruct (curve_directions cv) as [|d ds]; [discriminate|].
    simpl in Hd0. inversion Hd0; subst. reflexivity. }
  rewrite <- andb_assoc, Htest.
  destruct k as [|k].
  - (* the walk is back at its start *)
    assert (Hn : S i = n) by lia.
    assert (Hback : w (S i) = s0) by (rewrite Hn; exact n_period).
    assert (Ht : TraceState_eqb (w (S i)) s0 = true)
      by (rewrite Hback; apply TraceState_eqb_refl).
    rewrite Ht.
    destruct (Nat.leb_spec 1 i) as [_|Hi]; [|lia]. cbn [andb].
    exists (set_isClosed (addSegment cv l' (snd (w (S i))))), g2.
    splits; auto.
    + unfold stepsOf in *. simpl in *. rewrite <- Hn. exact Hsteps2.
    + intros x. rewrite Hused2. unfold markedBy. simpl.
      now rewrite orb_false_r.
  - (* not yet *)
    assert (Hne : TraceState_eqb (w (S i)) s0 = false).
    { destruct (TraceState_eqb (w (S i)) s0) eqn:E; auto.
      apply TraceState_eqb_eq in E. exfalso. apply (n_min (S i)); [lia | exact E]. }
    rewrite Hne, andb_false_r.
    assert (A1 : hd_error (curve_gridLines (addSegment cv l' (snd (w (S i)))))
                 = Some l0).
    { cbn [addSegment curve_gridLines].
      destruct (curve_gridLines cv); [discriminate | exact Hl0]. }
    assert (A2 : hd_error (curve_directions (addSegment cv l' (snd (w (S i)))))
                 = Some (snd s0)).
    { cbn [addSegment curve_directions].
      destruct (curve_directions cv); [discriminate | exact Hd0]. }
    assert (A3 : length (curve_gridLines (addSegment cv l' (snd (w (S i)))))
                 = S (S i)).
    { cbn [addSegment curve_gridLines]. rewrite length_app, Hlen.
      cbn [length]. lia. }
    assert (A4 : length (curve_directions (addSegment cv l' (snd (w (S i)))))
                 = S (S i)).
    { cbn [addSegment curve_directions]. rewrite length_app, Hlend.
      cbn [length]. lia. }
    assert (A5 : S i + S k = n) by lia.
    assert (A6 : 1 <= S k) by lia.
    assert (A7 : S k <= fuel) by lia.
    destruct (IH (S i) g2 (addSegment cv l' (snd (w (S i)))) l' fuel l0
                A5 A6 A7 Hsl2 Hus2 Hidl' A1 Hid0 A2 A3 A4 Hsteps2 Hclosed Hleft)
      as (cv' & g' & Hloop & Hst & Hc & Hlf & Hsl' & Hus' & Hused').
    exists cv', g'. splits; auto.
    intros x. rewrite Hused', Hused2. unfold markedBy.
    cbn [seq existsb]. rewrite <- !orb_assoc. reflexivity.
Qed.

Lemma trace_buildCurve g l0 :
  sameLines G g -> UsedShape g ->
  getGridLine G (fst s0) = Some l0 ->
  exists cv' g',
    buildCurve (N.to_nat MAX_SEGMENTS) (newMirrorCurve l0 (snd s0)) g
    = (Returned true, cv', g')
    /\ stepsOf cv' = map w (seq 0 (S n))
    /\ isClosed cv' = true /\ leftGrid cv' = false
    /\ sameLines G g' /\ UsedShape g'
    /\ forall x, usedState g' x = usedState g x || markedBy nrows ncols G s0 x 1 n.
Proof.
  intros Hsl Hus Hl0.
  assert (Hid0 : line_id l0 = fst s0).
  { now destruct (shape_lines G G_shape (fst s0) l0 Hl0). }
  unfold buildCurve, newMirrorCurve. cbn [curve_gridLines curve_directions].
  set (g1 := markDirectionUsed g (line_id l0) (snd s0)).
  assert (Hv : validId (rows g) (cols g) (fst s0)).
  { destruct Hsl as (Rg & Cg & _). rewrite Rg, Cg, G_rows, G_cols. apply s0_U. }
  assert (Hused1 : forall x, usedState g1 x = usedState g x || TraceState_eqb x s0).
  { intros x. unfold g1, usedState, TraceState_eqb.
    rewrite markDirectionUsed_used, Hid0, UsedShape_has by assumption.
    reflexivity. }
  destruct (trace_loop n 0 g1
              (mkCurve [l0] [snd s0] false false None None) l0
              (N.to_nat MAX_SEGMENTS) l0)
    as (cv' & g' & Hloop & Hst & Hc & Hlf & Hsl' & Hus' & Hused'); auto;
    try lia.
  - eapply sameLines_trans; [exact Hsl | apply markDirectionUsed_sameLines].
  - unfold UsedShape, g1. rewrite markDirectionUsed_keys.
    destruct (markDirectionUsed_sameLines g (line_id l0) (snd s0)) as (R1 & C1 & _).
    now rewrite R1, C1.
  - unfold stepsOf. simpl. rewrite Hid0. now destruct s0.
  - exists cv', g'. splits; auto.
    intros x. rewrite Hused', Hused1.
    assert (Hin : TraceState_eqb x s0 = true -> markedBy nrows ncols G s0 x 1 n = true).
    { intros E. unfold markedBy. apply existsb_exists. exists n.
      split; [apply in_seq; lia|]. unfold w. rewrite n_period, E. reflexivity. }
    destruct (TraceState_eqb x s0); [|now rewrite orb_false_r].
    rewrite Hin by reflexivity. now rewrite !orb_true_r.
Qed.

End Trace.

(** ** Enumeration covers every pair that is not pre-seeded *)

Lemma filter_length_le (A : Type) (f f' : A -> bool) (l : list A) :
  (forall x, f' x = true -> f x = true) ->
  length (filter f' l) <= length (filter f l).
Proof.
  intros H. induction l as [|a l IH]; simpl; auto.
  destruct (f' a) eqn:E'.
  - rewrite (H a E'). simpl. lia.
  - destruct (f a); simpl; lia.
Qed.

Lemma filter_length_lt (A : Type) (f f' : A -> bool) (l : list A) (a : A) :
  (forall x, f' x = true -> f x = true) ->
  In a l -> f a = true -> f' a = false ->
  length (filter f' l) < length (filter f l).
Proof.
  intros H. induction l as [|b l IH]; simpl; [tauto|].
  intros [->|Hin] Ha Ha'.
  - rewrite Ha, Ha'. simpl.
    pose proof (filter_length_le A f f' l H). lia.
  - specialize (IH Hin Ha Ha'). destruct (f' b) eqn:E'.
    + rewrite (H b E'). simpl. lia.
    + destruct (f b); simpl; lia.
Qed.

Section Enumerate.

Variables nrows ncols : nat.
Hypothesis Hrows : 1 <= nrows.
Hypothesis Hcols : 1 <= ncols.
Variable G : Grid.
Hypothesis G_rows : rows G = nrows.
Hypothesis G_cols : cols G = ncols.
Hypothesis G_shape : GridShape G.
Hypothesis G_boundary : BoundaryMirrors G.
Hypothesis G_small :
  (N.of_nat (4 * length (allIds nrows ncols)) < MAX_SEGMENTS)%N.

Let next := nextState nrows ncols (mirOf G).
Let rev := reverseSide (mirOf G).
Let U := inU nrows ncols.
Let mirB := G_mir_boundary nrows ncols G G_rows G_cols G_boundary.

Lemma reverseSidesOf_cons2 (s s1 : TraceState) (rest : list TraceState) :
  reverseSidesOf (s :: s1 :: rest)
  = (fst s1, opposite (snd s)) :: reverseSidesOf (s1 :: rest).
Proof. reflexivity. Qed.

Lemma reverseSidesOf_walk (w : nat -> TraceState) :
  (forall k, w (S k) = next (w k)) -> (forall k, U (w k)) ->
  forall k a,
    reverseSidesOf (map w (seq a (S k)))
    = map (fun j => rev (w j)) (seq (S a) k).
Proof.
  intros HS HU. induction k as [|k IH]; intros a; [reflexivity|].
  change (seq a (S (S k))) with (a :: S a :: seq (S (S a)) k).
  cbn [map]. rewrite reverseSidesOf_cons2.
  change (w (S a) :: map w (seq (S (S a)) k)) with (map w (seq (S a) (S k))).
  rewrite IH.
  change (seq (S a) (S k)) with (S a :: seq (S (S a)) k). cbn [map].
  rewrite (HS a). unfold rev, next.
  rewrite (reverseSide_next nrows ncols Hrows Hcols (mirOf G) (w a) (HU a)).
  reflexivity.
Qed.

Lemma enum_marks_closed g found x k :
  Enum nrows ncols G g found -> In x (flat_map marksOf found) ->
  In (walk nrows ncols (mirOf G) k x) (flat_map marksOf found).
Proof.
  intros He Hin. induction k as [|k IH]; [exact Hin|].
  rewrite walk_S. apply (enum_next nrows ncols G g found He). exact IH.
Qed.

(** Tracing from an unused pair adds one closed curve and keeps the
    invariant. *)
Lemma enum_step g found id line d :
  Enum nrows ncols G g found ->
  getGridLine G id = Some line ->
  usedState g (id, d) = false ->
  exists cv' g',
    buildCurve (N.to_nat MAX_SEGMENTS) (newMirrorCurve line d) g
    = (Returned true, cv', g')
    /\ Enum nrows ncols G g' (found ++ [cv'])
    /\ unusedCount nrows ncols g' < unusedCount nrows ncols g.
Proof.
  intros He Hline Hunused.
  set (s0 := (id, d) : TraceState).
  assert (Hv : validId nrows ncols id).
  { rewrite <- G_rows, <- G_cols. eapply getGridLine_valid; eauto. }
  assert (Hs0 : U s0).
  { split; [exact Hv|]. cbn [fst snd].
    destruct (seededb nrows ncols id d) eqn:E; auto.
    assert (Hu : usedState g s0 = true).
    { apply (enum_used nrows ncols G g found He s0 Hv). left. exact E. }
    unfold s0 in Hu. congruence. }
  assert (Hnotin : ~ In s0 (flat_map marksOf found)).
  { intros Hin.
    assert (Hu : usedState g s0 = true).
    { apply (enum_used nrows ncols G g found He s0 Hv). right. exact Hin. }
    unfold s0 in Hu. congruence. }
  destruct (walk_period nrows ncols Hrows Hcols (mirOf G) mirB s0 Hs0)
    as (n & [Hn2 Hnle] & Hper & Hmin).
  assert (Hnmax : (N.of_nat n < MAX_SEGMENTS)%N).
  { rewrite length_allStates in Hnle by assumption. lia. }
  set (w := fun k => walk nrows ncols (mirOf G) k s0).
  assert (HwU : forall k, U (w k)).
  { intros k. apply walk_inU; auto. }
  destruct (trace_buildCurve nrows ncols Hrows Hcols G G_rows G_cols G_shape
              G_boundary s0 Hs0 n Hn2 Hper Hmin Hnmax g line
              (enum_lines nrows ncols G g found He) (enum_keys nrows ncols G g found He) Hline)
    as (cv' & g' & Hbuild & Hsteps & Hclosed & Hleft & Hsl' & Hus' & Hused').
  fold w in Hsteps.
  exists cv', g'. split; [exact Hbuild|].
  set (fwd := map w (seq 1 n)).
  set (bwd := map (fun j => rev (w j)) (seq 1 n)).
  assert (Hmarks : marksOf cv' = fwd ++ bwd).
  { unfold marksOf. rewrite Hsteps.
    rewrite (reverseSidesOf_walk w) by (auto; intros; reflexivity).
    reflexivity. }
  assert (Hmarked : forall x,
             markedBy nrows ncols G s0 x 1 n = true <-> In x (fwd ++ bwd)).
  { intros x. unfold markedBy. rewrite existsb_exists, in_app_iff.
    unfold fwd, bwd. rewrite !in_map_iff. split.
    - intros (j & Hj & E). apply orb_true_iff in E.
      destruct E as [E|E]; apply TraceState_eqb_eq in E; subst x;
        [left | right]; exists j; auto.
    - intros [(j & <- & Hj)|(j & <- & Hj)]; exists j; split; auto;
        fold (w j); rewrite TraceState_eqb_refl; auto using orb_true_r. }
  assert (Hwn : w n = s0) by exact Hper.
  assert (Hfwd_old : forall j, ~ In (w j) (flat_map marksOf found)).
  { intros j Hin.
    destruct (Nat.le_gt_cases j n) as [Hle|Hgt].
    - apply Hnotin. rewrite <- Hwn. replace n with ((n - j) + j) by lia.
      unfold w. rewrite walk_add. now apply (enum_marks_closed g found).
    - (* past the period: walk on to a multiple of [n] *)
      apply Hnotin.
      assert (Hmult : forall m, w (m * n) = s0).
      { induction m as [|m IHm]; [reflexivity|].
        cbn [Nat.mul]. unfold w. rewrite Nat.add_comm, walk_add.
        fold (w n). rewrite Hwn. exact IHm. }
      rewrite <- (Hmult j).
      replace (j * n) with ((j * n - j) + j) by nia.
      unfold w. rewrite walk_add. now apply (enum_marks_closed g found). }
  assert (Hbwd_old : forall j, ~ In (rev (w j)) (flat_map marksOf found)).
  { intros j Hin. apply (Hfwd_old j).
    apply (enum_rev nrows ncols G g found He) in Hin. unfold rev in Hin.
    now rewrite reverseSide_invol in Hin. }
  assert (Hnd_fwd : NoDup fwd).
  { unfold fwd. apply (NoDup_nth _ s0). intros i j Hi Hj.
    rewrite length_map, length_seq in Hi, Hj.
    assert (Hnth : forall k, k < n -> nth k (map w (seq 1 n)) s0 = w (S k)).
    { intros k Hk.
      rewrite (nth_indep _ s0 (w 0)) by (now rewrite length_map, length_seq).
      rewrite (map_nth w). now rewrite seq_nth. }
    rewrite (Hnth i Hi), (Hnth j Hj). intros E.
    destruct (Nat.lt_trichotomy i j) as [Hlt|[Heq|Hgt]]; auto; exfalso.
    - destruct (Nat.eq_dec (S j) n) as [Ej|Ej].
      + rewrite Ej, Hwn in E. apply (Hmin (S i)); [lia | exact E].
      + apply (walk_distinct nrows ncols Hrows Hcols (mirOf G) mirB s0 n Hs0
                 Hmin (S i) (S j)); [lia | exact E].
    - destruct (Nat.eq_dec (S i) n) as [Ei|Ei].
      + rewrite Ei, Hwn in E. apply (Hmin (S j)); [lia | now symmetry].
      + apply (walk_distinct nrows ncols Hrows Hcols (mirOf G) mirB s0 n Hs0
                 Hmin (S j) (S i)); [lia | now symmetry]. }
  assert (Hnd_bwd : NoDup bwd).
  { unfold bwd. rewrite <- (map_map w rev). fold fwd.
    apply Finite.Injective_map_NoDup; auto.
    intros a b E. apply (f_equal rev) in E. unfold rev in E.
    now rewrite !reverseSide_invol in E. }
  assert (Hnd_marks : NoDup (fwd ++ bwd)).
  { apply NoDup_app; splits; auto.
    intros x Hf Hb. unfold fwd in Hf. unfold bwd in Hb.
    apply in_map_iff in Hf, Hb.
    destruct Hf as (i & <- & _), Hb as (j & E & _).
    symmetry in E. revert E. unfold w, rev.
    apply walk_not_reverse; auto. }
  assert (Hin_new : forall x, In x (fwd ++ bwd) ->
             exists j, 1 <= j <= n /\ (x = w j \/ x = rev (w j))).
  { intros x Hx. apply in_app_iff in Hx. unfold fwd, bwd in Hx.
    rewrite !in_map_iff in Hx.
    destruct Hx as [(j & <- & Hj)|(j & <- & Hj)]; apply in_seq in Hj;
      exists j; split; auto; lia. }
  assert (Hw_in : forall j, 1 <= j <= n -> In (w j) (fwd ++ bwd)).
  { intros j Hj. apply in_or_app. left. unfold fwd. apply in_map.
    apply in_seq. lia. }
  assert (Hr_in : forall j, 1 <= j <= n -> In (rev (w j)) (fwd ++ bwd)).
  { intros j Hj. apply in_or_app. right. unfold bwd.
    apply (in_map (fun j => rev (w j))). apply in_seq. lia. }
  assert (Hflat : flat_map marksOf (found ++ [cv'])
                  = flat_map marksOf found ++ (fwd ++ bwd)).
  { rewrite flat_map_app. simpl. now rewrite app_nil_r, Hmarks. }
  split.
  - constructor.
    + exact Hsl'.
    + exact Hus'.
    + rewrite Hflat. apply NoDup_app; splits; auto.
      * apply (enum_nodup nrows ncols G g found He).
      * intros x Hold Hnew. destruct (Hin_new x Hnew) as (j & _ & [->| ->]).
        -- now apply (Hfwd_old j).
        -- now apply (Hbwd_old j).
    + intros x Hvx. rewrite Hflat, in_app_iff, Hused', orb_true_iff.
      rewrite (enum_used nrows ncols G g found He x Hvx), Hmarked. tauto.
    + intros x. rewrite Hflat, in_app_iff. intros [Hx|Hx].
      * now apply (enum_inU nrows ncols G g found He).
      * destruct (Hin_new x Hx) as (j & _ & [->| ->]); [apply HwU|].
        unfold rev. apply reverseSide_inU; auto. apply HwU.
    + intros x Hx. rewrite Hflat in *. apply in_app_iff in Hx.
      apply in_app_iff. destruct Hx as [Hx|Hx].
      * left. now apply (enum_next nrows ncols G g found He).
      * right.
        destruct (Hin_new x Hx) as (j & Hj & [->| ->]).
        -- destruct (Nat.eq_dec j n) as [->|Hne].
           ++ rewrite Hwn. change (In (w 1) (fwd ++ bwd)). apply Hw_in. lia.
           ++ change (In (w (S j)) (fwd ++ bwd)). apply Hw_in. lia.
        -- destruct j as [|j]; [lia|].
           change (w (S j)) with (next (w j)). unfold rev, next.
           rewrite (next_reverse_next nrows ncols Hrows Hcols (mirOf G)
                      (w j) (HwU j)).
           fold rev.
           destruct j as [|j].
           ++ change (w 0) with s0. rewrite <- Hwn. apply Hr_in. lia.
           ++ apply Hr_in. lia.
    + intros x Hx. rewrite Hflat in *. apply in_app_iff in Hx.
      apply in_app_iff. destruct Hx as [Hx|Hx].
      * left. now apply (enum_rev nrows ncols G g found He).
      * right.
        destruct (Hin_new x Hx) as (j & Hj & [->| ->]).
        -- now apply Hr_in.
        -- unfold rev. rewrite reverseSide_invol. now apply Hw_in.
    + apply Forall_app. split; [apply (enum_closed nrows ncols G g found He)|].
      constructor; [|constructor].
      unfold closedCurve. rewrite Hsteps. splits; auto.
      change (seq 0 (S n)) with (0 :: seq 1 n). cbn [map tl]. split.
      * destruct n; [lia|]. discriminate.
      * fold fwd. unfold fwd.
        replace n with (S (n - 1)) by lia. rewrite seq_S, map_app.
        cbn [map]. rewrite last_last.
        replace (1 + (n - 1)) with n by lia. exact Hwn.
  - unfold unusedCount.
    apply filter_length_lt with (a := s0).
    + intros x Hx. rewrite Hused' in Hx.
      destruct (usedState g x); [discriminate | reflexivity].
    + now apply inU_allStates.
    + unfold s0. now rewrite Hunused.
    + rewrite Hused'.
      assert (Hm : markedBy nrows ncols G s0 s0 1 n = true).
      { apply Hmarked. rewrite <- Hwn. apply Hw_in. lia. }
      rewrite Hm, orb_true_r. reflexivity.
Qed.

Lemma enum_line_used g found id line :
  Enum nrows ncols G g found -> getGridLine G id = Some line ->
  getUnusedDirections g id
  = filter (fun d => negb (isDirectionUsed g id d)) allDirections.
Proof.
  intros He Hl. destruct (enum_lines nrows ncols G g found He) as (Rg & Cg & Lg).
  apply getUnusedDirections_filter with (l := line).
  - unfold getGridLine in *. now rewrite Lg.
  - apply UsedShape_has; [apply (enum_keys nrows ncols G g found He)|].
    rewrite Rg, Cg. eapply getGridLine_valid; eauto.
Qed.

Lemma enum_scan fuel es :
  fuel = N.to_nat MAX_SEGMENTS ->
  forall g found,
    (forall e, In e es -> getGridLine G (fst e) = Some (snd e)) ->
    Enum nrows ncols G g found ->
    (findNextCurve_scan fuel es g = Some (None, g)
     /\ forall e d, In e es -> usedState g (fst e, d) = true)
    \/ (exists cv' g',
           findNextCurve_scan fuel es g = Some (Some cv', g')
           /\ Enum nrows ncols G g' (found ++ [cv'])
           /\ unusedCount nrows ncols g' < unusedCount nrows ncols g).
Proof.
  intros Hfuel. induction es as [|[id line] es IH]; intros g found Hes He.
  - left. split; [reflexivity | intros e d []].
  - cbn [findNextCurve_scan].
    assert (Hline : getGridLine G id = Some line)
      by (apply (Hes (id, line)); now left).
    pose proof (enum_line_used g found id line He Hline) as Hfilter.
    destruct (getUnusedDirections g id) as [|d ds] eqn:Hun.
    + destruct (IH g found) as [[Hscan Hused]|Hfound]; auto.
      { intros e He'. apply Hes. now right. }
      left. split; [exact Hscan|].
      intros e d [<-|Hin]; [|now apply Hused].
      cbn [fst]. unfold usedState. cbn [fst snd].
      assert (Hd : In d allDirections) by (destruct d; simpl; auto).
      destruct (isDirectionUsed g id d) eqn:E; auto.
      assert (Hin : In d (filter (fun d => negb (isDirectionUsed g id d))
                            allDirections)).
      { apply filter_In. split; auto. now rewrite E. }
      rewrite <- Hfilter in Hin. destruct Hin.
    + right.
      destruct (getUnusedDirections_first g id d ds Hun) as [Hd _].
      destruct (enum_step g found id line d He Hline Hd)
        as (cv' & g' & Hbuild & He' & Hlt).
      exists cv', g'. rewrite Hfuel, Hbuild. auto.
Qed.

Lemma enum_loop fuel :
  forall g found,
    Enum nrows ncols G g found -> unusedCount nrows ncols g < fuel ->
    exists curves g',
      findAllCurves_loop fuel g found = Some (curves, g')
      /\ Enum nrows ncols G g' curves
      /\ forall x, validId nrows ncols (fst x) -> usedState g' x = true.
Proof.
  induction fuel as [|fuel IH]; intros g found He Hc; [lia|].
  cbn [findAllCurves_loop]. unfold findNextCurve, JsMap.entries.
  destruct (enum_lines nrows ncols G g found He) as (Rg & Cg & Lg).
  rewrite Lg.
  destruct (enum_scan (N.to_nat MAX_SEGMENTS) (gridLines G) eq_refl g found)
    as [[Hscan Hused]|(cv' & g' & Hscan & He' & Hlt)]; auto.
  - intros [id l] Hin. now apply GridShape_entry.
  - rewrite Hscan. exists found, g. splits; auto.
    intros [id d] Hv. cbn [fst] in Hv.
    destruct (valid_getGridLine G id G_shape) as [l Hl].
    { now rewrite G_rows, G_cols. }
    apply (get_Some_in GridLineId_eqb_eq) in Hl.
    apply (Hused (id, l) d Hl).
  - rewrite Hscan. apply IH; auto. lia.
Qed.

End Enumerate.

(** C1, as amended. On a grid with [nrows >= 1], [ncols >= 1], any interior
    mirror configuration and fewer than a quarter of [MAX_SEGMENTS] lines,
    [findAllCurves] resets the used directions (after which a pair is used
    exactly when it is pre-seeded) and returns closed curves, each ending
    on its first step and repeating no other step, such that every pair
    (line, direction) that is not pre-seeded is, for exactly one curve and
    exactly once, a step of that curve after its first or the reverse side
    of such a step (the step's line with the opposite of the direction the
    curve arrived along); no pre-seeded pair is among them, and at the end
    every pair is used. *)
Theorem findAllCurves_partition :
  forall nrows ncols g,
    1 <= nrows -> 1 <= ncols ->
    InteriorConfig nrows ncols g ->
    (N.of_nat (4 * length (allIds nrows ncols)) < MAX_SEGMENTS)%N ->
    forall fuel,
      4 * length (allIds nrows ncols) < fuel ->
      (forall id d,
          validId nrows ncols id ->
          isDirectionUsed (resetUsedDirections g) id d
          = seededb nrows ncols id d)
      /\ exists curves g',
           findAllCurves fuel g = Some (curves, g')
           /\ Forall closedCurve curves
           /\ NoDup (flat_map marksOf curves)
           /\ (forall id d,
                  In (id, d) (flat_map marksOf curves) ->
                  validId nrows ncols id)
           /\ (forall id d,
                  validId nrows ncols id ->
                  (In (id, d) (flat_map marksOf curves)
                   <-> seededb nrows ncols id d = false))
           /\ (forall id d,
                  validId nrows ncols id -> isDirectionUsed g' id d = true).
Proof.
  intros nrows ncols g Hrows Hcols Hcfg Hsmall fuel Hfuel.
  destruct (InteriorConfig_inv nrows ncols g Hcfg) as (R & C & Hs & Hb & Hu).
  set (G := resetUsedDirections g).
  assert (HG : sameLines g G) by apply initializeUsedDirections_sameLines.
  destruct HG as (RG & CG & LG).
  assert (G_rows : rows G = nrows) by congruence.
  assert (G_cols : cols G = ncols) by congruence.
  assert (G_shape : GridShape G).
  { eapply sameLines_shape; [|exact Hs]. unfold sameLines; auto. }
  assert (G_boundary : BoundaryMirrors G).
  { eapply sameLines_boundary; [|exact Hb]. unfold sameLines; auto. }
  assert (G_used : UsedShape G).
  { apply initializeUsedDirections_keys; auto. }
  assert (Hseed : forall id d,
             validId nrows ncols id ->
             isDirectionUsed G id d = seededb nrows ncols id d).
  { intros id d Hv. destruct (valid_getGridLine g id Hs) as [l Hl].
    { now rewrite R, C. }
    unfold G, resetUsedDirections.
    rewrite (initializeUsedDirections_used g id l d Hs Hl). now rewrite R, C. }
  split; [exact Hseed|].
  assert (He : Enum nrows ncols G G []).
  { constructor.
    - apply sameLines_refl.
    - exact G_used.
    - constructor.
    - intros x Hv. unfold usedState. rewrite (Hseed _ _ Hv). simpl. tauto.
    - intros x [].
    - intros x [].
    - intros x [].
    - constructor. }
  assert (Hcount : unusedCount nrows ncols G < fuel).
  { unfold unusedCount.
    pose proof (filter_length_le TraceState (fun _ => true)
                  (fun x => negb (usedState G x)) (allStates nrows ncols)
                  (fun _ _ => eq_refl)) as Hle.
    assert (Hall : filter (fun _ : TraceState => true) (allStates nrows ncols)
                   = allStates nrows ncols).
    { apply forallb_filter_id. apply forallb_forall. auto. }
    rewrite Hall, length_allStates in Hle by assumption. lia. }
  destruct (enum_loop nrows ncols Hrows Hcols G G_rows G_cols G_shape
              G_boundary Hsmall fuel G [] He Hcount)
    as (curves & g' & Hloop & He' & Hall).
  exists curves, g'. splits.
  - exact Hloop.
  - apply (enum_closed _ _ _ _ _ He').
  - apply (enum_nodup _ _ _ _ _ He').
  - intros id d Hin. apply (enum_inU _ _ _ _ _ He') in Hin. apply Hin.
  - intros id d Hv. split.
    + intros Hin. apply (enum_inU _ _ _ _ _ He') in Hin. apply Hin.
    + intros Hns. pose proof (Hall (id, d) Hv) as Hused.
      apply (enum_used _ _ _ _ _ He' (id, d) Hv) in Hused.
      cbn [fst snd] in Hused. destruct Hused as [Hused|Hin]; [congruence|auto].
  - intros id d Hv. apply (Hall (id, d) Hv).
Qed.

Lemma findAllCurves_partition_witness :
  let g := setMirror (newGrid 2 2) (mkId tag_h 1 0) true in
  (forall id d,
      validId 2 2 id ->
      isDirectionUsed (resetUsedDirections g) id d = seededb 2 2 id d)
  /\ exists curves g',
       findAllCurves 49 g = Some (curves, g')
       /\ Forall closedCurve curves
       /\ NoDup (flat_map marksOf curves)
       /\ (forall id d,
              In (id, d) (flat_map marksOf curves) -> validId 2 2 id)
       /\ (forall id d,
              validId 2 2 id ->
              (In (id, d) (flat_map marksOf curves)
               <-> seededb 2 2 id d = false))
       /\ (forall id d, validId 2 2 id -> isDirectionUsed g' id d = true).
Proof.
  intros g.
  apply (findAllCurves_partition 2 2 g).
  - lia.
  - lia.
  - apply config_setMirror; [apply config_new | reflexivity].
  - vm_compute. reflexivity.
  - vm_compute. lia.
Defined.

(** C1 as stated fails already on the 1 by 1 grid: the single curve found
    has the steps (h_0_0, SW), (v_0_0, SE), (h_1_0, NE), (v_0_1, NW),
    (h_0_0, SW), so the pair (h_0_0, SW) is covered twice by one curve, and
    the pair (h_0_0, SE), which is not pre-seeded at reset time, is a step of
    no curve. *)
Lemma findAllCurves_steps_not_a_partition :
  let g := newGrid 1 1 in
  match findAllCurves 10 g with
  | Some (curves, _) =>
      length curves = 1
      /\ ~ NoDup (coveredBySteps curves)
      /\ isDirectionUsed (resetUsedDirections g) (mkId tag_h 0 0) SE = false
      /\ ~ In (mkId tag_h 0 0, SE) (coveredBySteps curves)
  | None => False
  end.
Proof.
  vm_compute. splits.
  - reflexivity.
  - intros H. inversion H as [|? ? Hnotin _]. apply Hnotin.
    right; right; right; left. reflexivity.
  - reflexivity.
  - intros [H|[H|[H|[H|[H|[]]]]]]; discriminate H.
Qed.

(** ** More on maps: extensionality and repeated [set] *)

Section JsMapMore.
Variables K V : Type.
Variable eqb : K -> K -> bool.
Hypothesis eqb_eq : forall a b, eqb a b = true <-> a = b.

Let get := JsMap.get (V:=V) eqb.
Let set := JsMap.set (V:=V) eqb.

Lemma jsmap_ext (m m' : JsMap.t K V) :
  JsMap.keys m = JsMap.keys m' -> NoDup (JsMap.keys m) ->
  (forall k, In k (JsMap.keys m) -> get m k = get m' k) -> m = m'.
Proof.
  revert m'. induction m as [|[k v] m IH]; intros [|[k' v'] m']; simpl;
    try discriminate; auto.
  intros [= <- Hk] Hnd Hget. inversion Hnd as [|? ? Hnot Hnd']; subst.
  assert (Hv : v = v').
  { pose proof (Hget k (or_introl eq_refl)) as H.
    rewrite (proj2 (eqb_eq k k) eq_refl) in H. congruence. }
  subst v'. f_equal. apply IH; auto.
  intros k0 Hin. pose proof (Hget k0 (or_intror Hin)) as H.
  destruct (eqb k0 k) eqn:E; auto.
  apply eqb_eq in E; subst. contradiction.
Qed.

Lemma set_get_same (m : JsMap.t K V) k v : get m k = Some v -> set m k v = m.
Proof.
  induction m as [|[k' v'] m IH]; simpl; [discriminate|].
  destruct (eqb k k') eqn:E.
  - intros [= ->]. reflexivity.
  - intros H. f_equal. auto.
Qed.

Lemma set_set (m : JsMap.t K V) k v v' : set (set m k v) k v' = set m k v'.
Proof.
  induction m as [|[k' v0] m IH]; simpl.
  - now rewrite (proj2 (eqb_eq k k) eq_refl).
  - destruct (eqb k k') eqn:E; simpl; rewrite E; auto.
    f_equal. apply IH.
Qed.

End JsMapMore.

Arguments jsmap_ext {K V eqb} eqb_eq m m' _ _ _.
Arguments set_get_same {K V eqb} m k v _.
Arguments set_set {K V eqb} eqb_eq m k v v'.

(** ** The lines of a constructed grid, counted *)

Lemma length_rowcol_ids (t : IdTag) (rowsL colsL : list nat) :
  length (flat_map (fun row => map (fun col => mkId t row col) colsL) rowsL)
  = length rowsL * length colsL.
Proof.
  induction rowsL as [|r rowsL IH]; simpl; auto.
  now rewrite length_app, length_map, IH.
Qed.

Lemma length_allIds nrows ncols :
  length (allIds nrows ncols) = (nrows + 1) * ncols + nrows * (ncols + 1).
Proof.
  unfold allIds, horizontalIds, verticalIds.
  now rewrite length_app, !length_rowcol_ids, !length_seq.
Qed.

Lemma newGrid_entries nrows ncols :
  gridLines (newGrid nrows ncols)
  = map (entryOf (builtLine nrows ncols)) (allIds nrows ncols).
Proof.
  destruct (newGrid_lines nrows ncols) as (R & C & Hk & Hget).
  apply (jsmap_ext GridLineId_eqb_eq).
  - now rewrite keys_entryOf.
  - rewrite Hk. apply NoDup_allIds.
  - intros k _. fold (getGridLine (newGrid nrows ncols) k).
    now rewrite Hget, get_entryOf.
Qed.

(** X1. [new Grid(rows, cols)] creates [(rows + 1) * cols] horizontal and
    [rows * (cols + 1)] vertical lines, no id twice, and one set of used
    directions per line, in the same order.  The line [`${t}_${row}_${col}`]
    exists exactly when [row <= rows] and [col < cols] (horizontal) or
    [row < rows] and [col <= cols] (vertical), and the stored line carries
    the id, orientation, row and column its key is formatted from. *)
Theorem newGrid_line_count :
  forall nrows ncols,
    let g := newGrid nrows ncols in
    length (JsMap.entries (gridLines g))
    = (nrows + 1) * ncols + nrows * (ncols + 1)
    /\ NoDup (JsMap.keys (gridLines g))
    /\ JsMap.keys (usedDirections g) = JsMap.keys (gridLines g)
    /\ (forall t row col,
           getGridLine g (generateGridLineId t row col) <> None
           <-> match t with
               | tag_h => row <= nrows /\ col < ncols
               | tag_v => row < nrows /\ col <= ncols
               end)
    /\ (forall t row col l,
           getGridLine g (generateGridLineId t row col) = Some l ->
           line_id l = generateGridLineId t row col
           /\ line_type l = match t with
                            | tag_h => horizontal
                            | tag_v => vertical
                            end
           /\ line_row l = row /\ line_col l = col).
Proof.
  intros nrows ncols g.
  destruct (newGrid_lines nrows ncols) as (R & C & Hk & Hget).
  fold g in R, C, Hk, Hget.
  pose proof (newGrid_usedShape nrows ncols) as Hu. unfold UsedShape in Hu.
  fold g in Hu. rewrite R, C in Hu.
  splits.
  - unfold JsMap.entries. rewrite <- (length_map fst).
    change (map fst (gridLines g)) with (JsMap.keys (gridLines g)).
    rewrite Hk. apply length_allIds.
  - rewrite Hk. apply NoDup_allIds.
  - now rewrite Hu, Hk.
  - intros t row col. rewrite Hget. unfold generateGridLineId.
    destruct (memId (mkId t row col) (allIds nrows ncols)) eqn:E.
    + apply memId_In, in_allIds in E. unfold validId in E. simpl in E.
      split; [intros _; destruct t; exact E | discriminate].
    + split; [congruence|]. intros H. exfalso.
      assert (Hin : memId (mkId t row col) (allIds nrows ncols) = true).
      { apply memId_In, in_allIds. unfold validId. simpl. destruct t; exact H. }
      congruence.
  - intros t row col l Hl.
    destruct (newGrid_shape nrows ncols) as [_ Hshape].
    apply Hshape in Hl. unfold lineShape, generateGridLineId in *.
    simpl in Hl. destruct Hl as (H1 & H2 & H3 & H4 & _).
    destruct t; auto.
Qed.

(** The boundary ids, each once. *)
Lemma NoDup_boundaryVisits nrows ncols :
  1 <= nrows -> 1 <= ncols -> NoDup (boundaryVisits nrows ncols).
Proof.
  intros Hr Hc. unfold boundaryVisits.
  assert (Hmap : forall (f : nat -> GridLineId) n,
             (forall a b, f a = f b -> a = b) -> NoDup (map f (seq 0 n))).
  { intros f n Hinj. apply Finite.Injective_map_NoDup; [exact Hinj|].
    apply seq_NoDup. }
  repeat apply NoDup_app.
  - apply Hmap. intros a b [=]; auto.
  - apply Hmap. intros a b [=]; auto.
  - apply Hmap. intros a b [=]; auto.
  - apply Hmap. intros a b [=]; auto.
  - intros id H1 H2. apply in_map_iff in H1, H2.
    destruct H1 as (a & <- & _), H2 as (b & [=] & _). lia.
  - intros id H1 H2. apply in_map_iff in H1. destruct H1 as (a & <- & _).
    apply in_app_iff in H2. destruct H2 as [H2|H2]; apply in_map_iff in H2;
      destruct H2 as (b & [=] & _).
  - intros id H1 H2. apply in_map_iff in H1. destruct H1 as (a & <- & _).
    rewrite !in_app_iff in H2. destruct H2 as [H2|[H2|H2]];
      apply in_map_iff in H2; destruct H2 as (b & [=] & _). lia.
Qed.

Lemma boundaryVisits_valid nrows ncols id :
  1 <= nrows -> 1 <= ncols ->
  In id (boundaryVisits nrows ncols) -> validId nrows ncols id.
Proof.
  intros Hr Hc. unfold boundaryVisits, validId. rewrite !in_app_iff, !in_map_iff.
  intros [H|[H|[H|H]]]; destruct H as (k & <- & Hin); apply in_seq in Hin;
    simpl; lia.
Qed.

Lemma lineOf_isMirror nrows ncols id : isMirror (lineOf nrows ncols id) = false.
Proof.
  unfold lineOf, computeConnections_line.
  destruct id as [t row col]; destruct t; simpl;
    repeat match goal with
           | |- context [?a <? ?b] => destruct (a <? b)
           end; reflexivity.
Qed.

Lemma builtLine_isMirror nrows ncols id :
  isMirror (builtLine nrows ncols id) = memId id (boundaryVisits nrows ncols).
Proof.
  unfold builtLine. destruct (memId id (boundaryVisits nrows ncols)); simpl; auto.
  apply lineOf_isMirror.
Qed.

Lemma length_filter_map (A B : Type) (p : B -> bool) (f : A -> B) (l : list A) :
  length (filter p (map f l)) = length (filter (fun x => p (f x)) l).
Proof.
  induction l as [|a l IH]; simpl; auto.
  destruct (p (f a)); simpl; auto.
Qed.

(** X2. On a fresh grid with [rows >= 1] and [cols >= 1], [getMirrorCount()]
    is the number of boundary lines, [2 * rows + 2 * cols]: the constructor
    places a mirror on every boundary line and nowhere else. *)
Theorem getMirrorCount_newGrid :
  forall nrows ncols,
    1 <= nrows -> 1 <= ncols ->
    getMirrorCount (newGrid nrows ncols) = 2 * nrows + 2 * ncols
    /\ forall id l,
         getGridLine (newGrid nrows ncols) id = Some l ->
         isMirror l = isBoundaryGridLine (newGrid nrows ncols) (Some l).
Proof.
  intros nrows ncols Hr Hc. split.
  - unfold getMirrorCount, JsMap.values. rewrite newGrid_entries, map_map.
    cbn [entryOf snd]. rewrite length_filter_map.
    assert (Hperm : Permutation
                      (filter (fun id => isMirror (builtLine nrows ncols id))
                         (allIds nrows ncols))
                      (boundaryVisits nrows ncols)).
    { apply NoDup_Permutation.
      - apply NoDup_filter, NoDup_allIds.
      - now apply NoDup_boundaryVisits.
      - intros id. rewrite filter_In, builtLine_isMirror, memId_In, in_allIds.
        split; [tauto|]. intros H. split; auto.
        now apply boundaryVisits_valid. }
    rewrite (Permutation_length Hperm). unfold boundaryVisits.
    rewrite !length_app, !length_map, !length_seq. lia.
  - intros id l Hl.
    rewrite (isBoundary_shape _ id l (newGrid_shape nrows ncols) Hl).
    destruct (newGrid_lines nrows ncols) as (R & C & _ & Hget).
    rewrite R, C. rewrite Hget in Hl.
    destruct (memId id (allIds nrows ncols)) eqn:E; [|discriminate].
    injection Hl as <-. rewrite builtLine_isMirror.
    apply memId_In, in_allIds in E.
    destruct (boundaryId nrows ncols id) eqn:B.
    + apply memId_In. now apply in_boundaryVisits.
    + destruct (memId id (boundaryVisits nrows ncols)) eqn:M; auto.
      apply memId_In, (in_boundaryVisits _ _ _ E) in M. congruence.
Qed.

Lemma getMirrorCount_newGrid_witness :
  getMirrorCount (newGrid 2 3) = 2 * 2 + 2 * 3
  /\ forall id l,
       getGridLine (newGrid 2 3) id = Some l ->
       isMirror l = isBoundaryGridLine (newGrid 2 3) (Some l).
Proof. apply (getMirrorCount_newGrid 2 3); lia. Defined.

Lemma line_setMirror_same l : line_setMirror l (isMirror l) = l.
Proof. destruct l; reflexivity. Qed.

Lemma with_gridLines_same g : with_gridLines g (gridLines g) = g.
Proof. destruct g; reflexivity. Qed.

Lemma with_usedDirections_same g : with_usedDirections g (usedDirections g) = g.
Proof. destruct g; reflexivity. Qed.

Lemma setMirror_setMirror g id b b' :
  setMirror (setMirror g id b) id b' = setMirror g id b'.
Proof.
  destruct (getGridLine g id) as [l|] eqn:E.
  - unfold setMirror at 1. rewrite setMirror_get, GridLineId_eqb_refl, E.
    simpl. unfold setMirror. rewrite E. unfold with_gridLines; simpl.
    now rewrite (set_set GridLineId_eqb_eq).
  - assert (H : setMirror g id b = g) by (unfold setMirror; now rewrite E).
    rewrite H. unfold setMirror. now rewrite E.
Qed.

Lemma setMirror_current g id l :
  getGridLine g id = Some l -> setMirror g id (isMirror l) = g.
Proof.
  intros Hl. unfold setMirror. rewrite Hl, line_setMirror_same.
  rewrite (set_get_same (gridLines g) id l Hl). apply with_gridLines_same.
Qed.

(** X3. [setMirror(lineId, isMirror)] on a missing id changes nothing; on a
    stored line it changes that line's [isMirror] flag and nothing else: the
    line keeps its id, orientation, position and connections, every other
    line, the order of the lines, the dimensions and the used directions
    stay as they are.  The last write wins, and writing the flag a line
    already has leaves the grid as it is. *)
Theorem setMirror_lookup :
  forall g id b,
    (getGridLine g id = None -> setMirror g id b = g)
    /\ (forall l, getGridLine g id = Some l ->
          exists l',
            getGridLine (setMirror g id b) id = Some l'
            /\ isMirror l' = b
            /\ line_id l' = line_id l /\ line_type l' = line_type l
            /\ line_row l' = line_row l /\ line_col l' = line_col l
            /\ connections l' = connections l)
    /\ (forall id', id' <> id ->
          getGridLine (setMirror g id b) id' = getGridLine g id')
    /\ JsMap.keys (gridLines (setMirror g id b)) = JsMap.keys (gridLines g)
    /\ rows (setMirror g id b) = rows g
    /\ cols (setMirror g id b) = cols g
    /\ usedDirections (setMirror g id b) = usedDirections g
    /\ (forall b', setMirror (setMirror g id b) id b' = setMirror g id b')
    /\ (forall l, getGridLine g id = Some l -> setMirror g id (isMirror l) = g).
Proof.
  intros g id b. splits.
  - intros H. unfold setMirror. now rewrite H.
  - intros l Hl. exists (line_setMirror l b).
    rewrite setMirror_get, GridLineId_eqb_refl, Hl. simpl. splits; reflexivity.
  - intros id' Hne. rewrite setMirror_get.
    apply GridLineId_eqb_neq in Hne. now rewrite Hne.
  - apply setMirror_keys.
  - apply setMirror_rows.
  - apply setMirror_cols.
  - apply setMirror_used.
  - intros b'. apply setMirror_setMirror.
  - intros l. apply setMirror_current.
Qed.

(** ** Marking and reading used directions *)

Lemma DirSet_add_present s d : DirSet_has s d = true -> DirSet_add s d = s.
Proof. unfold DirSet_add. now intros ->. Qed.

Lemma markDirectionUsed_idem g id d :
  markDirectionUsed (markDirectionUsed g id d) id d = markDirectionUsed g id d.
Proof.
  destruct (JsMap.get GridLineId_eqb (usedDirections g) id) as [s|] eqn:E.
  - assert (H1 : markDirectionUsed g id d
                 = with_usedDirections g
                     (JsMap.set GridLineId_eqb (usedDirections g) id
                        (DirSet_add s d))).
    { unfold markDirectionUsed, JsMap.has, used_add. now rewrite E. }
    rewrite H1. unfold markDirectionUsed, JsMap.has, used_add.
    cbn [usedDirections with_usedDirections rows cols gridLines].
    rewrite (get_set_same GridLineId_eqb_eq).
    rewrite (set_set GridLineId_eqb_eq).
    rewrite (DirSet_add_present (DirSet_add s d) d); auto.
    rewrite DirSet_has_add, Direction_eqb_refl. apply orb_true_r.
  - assert (H1 : markDirectionUsed g id d = g).
    { unfold markDirectionUsed, JsMap.has. now rewrite E. }
    now rewrite !H1.
Qed.

(** X4. [markDirectionUsed(id, d)] on an id without a set of used directions
    changes nothing, and [isDirectionUsed(id, d)] stays false.  On an id
    with one, [isDirectionUsed(id, d)] is true afterwards, no other pair
    changes, [d] is no longer among [getUnusedDirections(id)], no line is
    touched, and marking the same pair again changes nothing. *)
Theorem markDirectionUsed_lookup :
  forall g id d,
    (JsMap.has GridLineId_eqb (usedDirections g) id = false ->
       markDirectionUsed g id d = g /\ isDirectionUsed g id d = false)
    /\ (JsMap.has GridLineId_eqb (usedDirections g) id = true ->
          isDirectionUsed (markDirectionUsed g id d) id d = true)
    /\ (forall id' d',
          (id', d') <> (id, d) ->
          isDirectionUsed (markDirectionUsed g id d) id' d'
          = isDirectionUsed g id' d')
    /\ ~ In d (getUnusedDirections (markDirectionUsed g id d) id)
    /\ gridLines (markDirectionUsed g id d) = gridLines g
    /\ JsMap.keys (usedDirections (markDirectionUsed g id d))
       = JsMap.keys (usedDirections g)
    /\ markDirectionUsed (markDirectionUsed g id d) id d
       = markDirectionUsed g id d.
Proof.
  intros g id d.
  assert (Hother : forall id' d',
             (id', d') <> (id, d) ->
             isDirectionUsed (markDirectionUsed g id d) id' d'
             = isDirectionUsed g id' d').
  { intros id' d' Hne. rewrite markDirectionUsed_used.
    destruct (GridLineId_eqb id' id) eqn:E1;
      destruct (Direction_eqb d' d) eqn:E2;
      rewrite ?andb_false_r, ?orb_false_r; auto.
    apply GridLineId_eqb_eq in E1. apply Direction_eqb_eq in E2. congruence. }
  splits.
  - intros H. unfold markDirectionUsed. rewrite H. split; auto.
    unfold isDirectionUsed. unfold JsMap.has in H.
    destruct (JsMap.get GridLineId_eqb (usedDirections g) id); congruence.
  - intros H. rewrite markDirectionUsed_used, H, GridLineId_eqb_refl,
      Direction_eqb_refl. apply orb_true_r.
  - exact Hother.
  - unfold getUnusedDirections.
    destruct (getGridLine (markDirectionUsed g id d) id); [|tauto].
    destruct (JsMap.get GridLineId_eqb
                (usedDirections (markDirectionUsed g id d)) id)
      as [s|] eqn:E; [|tauto].
    rewrite filter_In. intros [_ H].
    assert (Hused : isDirectionUsed (markDirectionUsed g id d) id d = true).
    { rewrite markDirectionUsed_used, GridLineId_eqb_refl, Direction_eqb_refl.
      assert (Hhas : JsMap.has GridLineId_eqb (usedDirections g) id = true).
      { apply has_true_iff. rewrite <- (markDirectionUsed_keys g id d).
        destruct (in_dec GridLineId_eq_dec id
                    (JsMap.keys (usedDirections (markDirectionUsed g id d))))
          as [Hin|Hn]; auto.
        apply (get_None_notin GridLineId_eqb_eq) in Hn. congruence. }
      rewrite Hhas. apply orb_true_r. }
    unfold isDirectionUsed in Hused. rewrite E in Hused. rewrite Hused in H.
    discriminate.
  - destruct (markDirectionUsed_sameLines g id d) as (_ & _ & H). exact H.
  - apply markDirectionUsed_keys.
  - apply markDirectionUsed_idem.
Qed.

(** X5. [getUnusedDirections(id)] is empty when the grid has no such line
    or no set of used directions for it.  Otherwise it lists, in the order
    NW, NE, SW, SE and each once, exactly the directions for which
    [isDirectionUsed(id, d)] is false; in every case a listed direction is
    not used. *)
Theorem getUnusedDirections_complement :
  forall g id,
    (getGridLine g id = None
     \/ JsMap.has GridLineId_eqb (usedDirections g) id = false ->
     getUnusedDirections g id = [])
    /\ (forall d, In d (getUnusedDirections g id) ->
                  isDirectionUsed g id d = false)
    /\ (getGridLine g id <> None ->
        JsMap.has GridLineId_eqb (usedDirections g) id = true ->
        forall d, In d (getUnusedDirections g id)
                  <-> isDirectionUsed g id d = false)
    /\ StronglySorted (fun a b => Direction_code a < Direction_code b)
         (getUnusedDirections g id)
    /\ (getGridLine g id <> None ->
        JsMap.has GridLineId_eqb (usedDirections g) id = true ->
        length (getUnusedDirections g id)
        + length (filter (isDirectionUsed g id) allDirections) = 4).
Proof.
  intros g id.
  destruct (getGridLine g id) as [l|] eqn:El.
  2:{ assert (H : getUnusedDirections g id = []).
      { unfold getUnusedDirections. now rewrite El. }
      rewrite H. splits; auto.
      - intros d [].
      - congruence.
      - constructor.
      - congruence. }
  destruct (JsMap.has GridLineId_eqb (usedDirections g) id) eqn:Eh.
  2:{ assert (H : getUnusedDirections g id = []).
      { unfold getUnusedDirections, JsMap.has in *. rewrite El.
        destruct (JsMap.get GridLineId_eqb (usedDirections g) id); congruence. }
      rewrite H. splits; auto.
      - intros d [].
      - congruence.
      - constructor.
      - congruence. }
  rewrite (getUnusedDirections_filter g id l El Eh).
  assert (Hin : forall d,
             In d (filter (fun d => negb (isDirectionUsed g id d)) allDirections)
             <-> isDirectionUsed g id d = false).
  { intros d. rewrite filter_In, negb_true_iff. split; [tauto|].
    intros H; split; auto. destruct d; simpl; tauto. }
  splits.
  - intros [H|H]; congruence.
  - intros d. apply Hin.
  - intros _ _. exact Hin.
  - unfold allDirections. simpl.
    destruct (isDirectionUsed g id NW), (isDirectionUsed g id NE),
      (isDirectionUsed g id SW), (isDirectionUsed g id SE); simpl;
      repeat (constructor; simpl; try lia).
  - intros _ _. unfold allDirections. simpl.
    destruct (isDirectionUsed g id NW), (isDirectionUsed g id NE),
      (isDirectionUsed g id SW), (isDirectionUsed g id SE); reflexivity.
Qed.

(** ** Edge directions and the symmetry of the connections *)

Lemma isEdgeDirection_neighbor g id l d :
  GridShape g -> getGridLine g id = Some l ->
  isEdgeDirection g id d
  = match neighbor (rows g) (cols g) id d with Some _ => false | None => true end.
Proof.
  intros Hs Hl. unfold isEdgeDirection. rewrite Hl.
  now rewrite (GridShape_conn g id l d Hs Hl).
Qed.

Lemma isEdgeDirection_seeded nrows ncols g id l d :
  1 <= nrows -> 1 <= ncols -> rows g = nrows -> cols g = ncols ->
  GridShape g -> getGridLine g id = Some l ->
  isEdgeDirection g id d = seededb nrows ncols id d.
Proof.
  intros Hr Hc R C Hs Hl. rewrite (isEdgeDirection_neighbor g id l d Hs Hl).
  rewrite R, C. pose proof (getGridLine_valid g id l Hs Hl) as Hv.
  rewrite R, C in Hv.
  pose proof (seeded_iff_null nrows ncols id d Hr Hc Hv) as H.
  destruct (neighbor nrows ncols id d), (seededb nrows ncols id d); auto.
  - destruct H as [H _]. specialize (H eq_refl). discriminate.
  - destruct H as [_ H]. symmetry. now apply H.
Qed.

(** X6. On a grid with [rows >= 1] and [cols >= 1] (as constructed, with any
    interior mirrors and any marks), for a stored line: the directions
    [resetUsedDirections()] pre-seeds as used are exactly those for which
    [isEdgeDirection] is true, which are exactly those along which
    [getAdjacentGridLine] throws "Curve left the grid"; a boundary line has
    two of them and any other line none. *)
Theorem isEdgeDirection_preseeded :
  forall nrows ncols g,
    1 <= nrows -> 1 <= ncols ->
    InteriorConfig nrows ncols g ->
    forall id l,
      getGridLine g id = Some l ->
      (forall d,
          isDirectionUsed (resetUsedDirections g) id d = isEdgeDirection g id d)
      /\ (forall d,
             isEdgeDirection g id d = true
             <-> getAdjacentGridLine g id d = AdjLeftGrid)
      /\ length (filter (isEdgeDirection g id) allDirections)
         = if isBoundaryGridLine g (Some l) then 2 else 0.
Proof.
  intros nrows ncols g Hr Hc Hcfg id l Hl.
  destruct (InteriorConfig_inv nrows ncols g Hcfg) as (R & C & Hs & Hb & Hu).
  splits.
  - intros d. unfold resetUsedDirections.
    rewrite (initializeUsedDirections_used g id l d Hs Hl), R, C.
    symmetry. now apply (isEdgeDirection_seeded nrows ncols g id l d).
  - intros d. unfold isEdgeDirection, getAdjacentGridLine. rewrite Hl.
    destruct (conn_get (connections l) d); split; congruence.
  - rewrite (isBoundary_shape g id l Hs Hl), R, C.
    rewrite (filter_ext _ (seededb nrows ncols id)).
    2:{ intros d. now apply (isEdgeDirection_seeded nrows ncols g id l d). }
    pose proof (getGridLine_valid g id l Hs Hl) as Hv. rewrite R, C in Hv.
    unfold validId in Hv. unfold seededb, boundaryId, allDirections.
    destruct (idTag id); simpl.
    + destruct (idRow id =? 0) eqn:E0; simpl; auto.
      destruct (idRow id =? nrows) eqn:E1; simpl; auto.
    + destruct (idCol id =? 0) eqn:E0; simpl; auto.
      destruct (idCol id =? ncols) eqn:E1; simpl; auto.
Qed.

Lemma isEdgeDirection_preseeded_witness :
  let g := setMirror (newGrid 2 2) (mkId tag_h 1 0) true in
  let id := mkId tag_v 1 2 in
  let l := builtLine 2 2 id in
  getGridLine g id = Some l
  /\ (forall d,
         isDirectionUsed (resetUsedDirections g) id d = isEdgeDirection g id d)
  /\ (forall d,
         isEdgeDirection g id d = true
         <-> getAdjacentGridLine g id d = AdjLeftGrid)
  /\ length (filter (isEdgeDirection g id) allDirections)
     = if isBoundaryGridLine g (Some l) then 2 else 0.
Proof.
  intros g id l.
  assert (Hl : getGridLine g id = Some l) by (vm_compute; reflexivity).
  split; [exact Hl|].
  apply (isEdgeDirection_preseeded 2 2 g); [lia | lia | | exact Hl].
  apply config_setMirror; [apply config_new | reflexivity].
Defined.

(** X7. The connections of a constructed grid are symmetric and alternate
    between orientations: if [getAdjacentGridLine(a, d)] returns [b], then
    [b] is a stored line of the other orientation and
    [getAdjacentGridLine(b, opposite of d)] returns [a] (NW <-> SE,
    NE <-> SW, the opposites [buildCurve] uses). *)
Theorem connections_symmetric :
  forall nrows ncols g,
    InteriorConfig nrows ncols g ->
    forall a d b,
      getAdjacentGridLine g a d = AdjReturn (Some b) ->
      getAdjacentGridLine g b (oppositeOf d) = AdjReturn (Some a)
      /\ exists la lb,
           getGridLine g a = Some la /\ getGridLine g b = Some lb
           /\ line_type la <> line_type lb.
Proof.
  intros nrows ncols g Hcfg a d b Hadj.
  destruct (InteriorConfig_inv nrows ncols g Hcfg) as (R & C & Hs & Hb & Hu).
  unfold getAdjacentGridLine in Hadj.
  destruct (getGridLine g a) as [la|] eqn:Ela; [|discriminate].
  destruct (conn_get (connections la) d) as [b'|] eqn:Ec; [|discriminate].
  injection Hadj as ->.
  rewrite (GridShape_conn g a la d Hs Ela) in Ec.
  pose proof (getGridLine_valid g a la Hs Ela) as Hva.
  pose proof (neighbor_valid _ _ _ _ _ Hva Ec) as Hvb.
  destruct (valid_getGridLine g b Hs Hvb) as [lb Elb].
  pose proof (neighbor_back _ _ _ _ _ Hva Ec) as Hback.
  split.
  - unfold getAdjacentGridLine. rewrite Elb.
    rewrite (GridShape_conn g b lb _ Hs Elb), oppositeOf_opposite, Hback.
    reflexivity.
  - exists la, lb. splits; auto.
    destruct (shape_lines g Hs a la Ela) as (_ & Ta & _).
    destruct (shape_lines g Hs b lb Elb) as (_ & Tb & _).
    rewrite Ta, Tb. pose proof (neighbor_tag _ _ _ _ _ Ec) as Ht.
    destruct (idTag a), (idTag b); simpl; congruence.
Qed.

Lemma connections_symmetric_witness :
  let g := newGrid 2 3 in
  getAdjacentGridLine g (mkId tag_h 1 2) SE = AdjReturn (Some (mkId tag_v 1 3))
  /\ getAdjacentGridLine g (mkId tag_v 1 3) (oppositeOf SE)
     = AdjReturn (Some (mkId tag_h 1 2))
  /\ exists la lb,
       getGridLine g (mkId tag_h 1 2) = Some la
       /\ getGridLine g (mkId tag_v 1 3) = Some lb
       /\ line_type la <> line_type lb.
Proof.
  intros g.
  assert (H : getAdjacentGridLine g (mkId tag_h 1 2) SE
              = AdjReturn (Some (mkId tag_v 1 3))) by (vm_compute; reflexivity).
  split; [exact H|].
  exact (connections_symmetric 2 3 g (config_new 2 3) _ _ _ H).
Defined.

(** ** Resetting forgets every mark *)

Lemma seedDirs_sameLines g g' l : sameLines g g' -> seedDirs g' l = seedDirs g l.
Proof.
  intros (R & C & _). unfold seedDirs, isBoundaryGridLine. now rewrite R, C.
Qed.

Lemma initializeUsedDirections_get g id :
  NoDup (JsMap.keys (gridLines g)) ->
  JsMap.get GridLineId_eqb (usedDirections (initializeUsedDirections g)) id
  = match getGridLine g id with
    | Some l => Some (addAll (seedDirs g l) [])
    | None => JsMap.get GridLineId_eqb (usedDirections g) id
    end.
Proof.
  intros Hnd. unfold initializeUsedDirections. simpl. unfold JsMap.entries.
  rewrite fold_seed_get by exact Hnd. rewrite fold_clear_get.
  unfold getGridLine.
  destruct (JsMap.get GridLineId_eqb (gridLines g) id) as [l|] eqn:E.
  - assert (Hin : memId id (JsMap.keys (gridLines g)) = true).
    { apply memId_In.
      destruct (in_dec GridLineId_eq_dec id (JsMap.keys (gridLines g))); auto.
      apply (get_None_notin GridLineId_eqb_eq) in n. congruence. }
    now rewrite Hin.
  - assert (Hin : memId id (JsMap.keys (gridLines g)) = false).
    { destruct (memId id (JsMap.keys (gridLines g))) eqn:M; auto.
      apply memId_In in M. apply (get_None_notin GridLineId_eqb_eq) in E.
      contradiction. }
    now rewrite Hin.
Qed.

Lemma initializeUsedDirections_eq g g' :
  GridShape g -> sameLines g g' ->
  UsedShape (initializeUsedDirections g) ->
  UsedShape (initializeUsedDirections g') ->
  initializeUsedDirections g' = initializeUsedDirections g.
Proof.
  intros Hs Hsame Hu Hu'.
  assert (Hs' : GridShape g') by (eapply sameLines_shape; eauto).
  destruct Hsame as (R & C & L).
  assert (Hmap : usedDirections (initializeUsedDirections g')
                 = usedDirections (initializeUsedDirections g)).
  { unfold UsedShape in Hu, Hu'.
    destruct (initializeUsedDirections_proj g) as (R1 & C1 & _).
    destruct (initializeUsedDirections_proj g') as (R2 & C2 & _).
    rewrite R1, C1 in Hu. rewrite R2, C2, R, C in Hu'.
    apply (jsmap_ext GridLineId_eqb_eq).
    - now rewrite Hu, Hu'.
    - rewrite Hu'. apply NoDup_allIds.
    - intros k Hin. rewrite Hu' in Hin. apply in_allIds in Hin.
      destruct (valid_getGridLine g k Hs Hin) as [l Hl].
      rewrite !initializeUsedDirections_get by (now apply GridShape_NoDup).
      unfold getGridLine in *. rewrite L, Hl.
      f_equal. f_equal. apply seedDirs_sameLines. unfold sameLines; auto. }
  assert (Hrec : forall h,
             initializeUsedDirections h
             = mkGrid (rows h) (cols h) (gridLines h)
                 (usedDirections (initializeUsedDirections h)))
    by reflexivity.
  rewrite (Hrec g), (Hrec g'), Hmap, R, C, L. reflexivity.
Qed.

Lemma sameLines_sym g g' : sameLines g g' -> sameLines g' g.
Proof. intros (R & C & L). unfold sameLines. auto. Qed.

Lemma resetUsedDirections_eq g g' :
  WellFormed g -> sameLines g g' -> UsedShape g' ->
  resetUsedDirections g' = resetUsedDirections g.
Proof.
  intros (Hs & Hb & Hu) Hsame Hu'. unfold resetUsedDirections.
  apply initializeUsedDirections_eq; auto.
  - apply initializeUsedDirections_keys; auto.
  - apply initializeUsedDirections_keys; auto.
    eapply sameLines_shape; eauto.
Qed.

Lemma markDirectionUsed_usedShape g id d :
  UsedShape g -> UsedShape (markDirectionUsed g id d).
Proof.
  intros Hu. unfold UsedShape. rewrite markDirectionUsed_keys.
  destruct (markDirectionUsed_sameLines g id d) as (R & C & _).
  now rewrite R, C.
Qed.

Lemma buildCurve_body_usedShape g c l d :
  UsedShape g ->
  match buildCurve_body g c l d with
  | Return _ _ g' => UsedShape g'
  | Continue g' _ _ _ => UsedShape g'
  end.
Proof.
  intros Hu. unfold buildCurve_body.
  destruct (getAdjacentGridLine g (line_id l) d) as [[nextLineId|]|]; auto.
  destruct (getGridLine g nextLineId) as [nextGridLine|]; auto.
  match goal with
  | |- context [if ?b then _ else _] => destruct b
  end; now repeat apply markDirectionUsed_usedShape.
Qed.

Lemma buildCurve_loop_usedShape fuel :
  forall g c l d out c' g',
    UsedShape g ->
    buildCurve_loop fuel g c l d = (out, c', g') -> UsedShape g'.
Proof.
  induction fuel as [|fuel IH]; intros g c l d out c' g' Hu; cbn [buildCurve_loop].
  - destruct (negb _); intros [= <- <- <-]; auto.
  - destruct (negb _); [intros [= <- <- <-]; auto|].
    pose proof (buildCurve_body_usedShape g c l d Hu) as Hb.
    destruct (buildCurve_body g c l d) as [b c1 g1|g1 c1 l1 d1].
    + intros [= <- <- <-]; auto.
    + apply IH; auto.
Qed.

Lemma buildCurve_usedShape fuel c g out c' g' :
  UsedShape g -> buildCurve fuel c g = (out, c', g') -> UsedShape g'.
Proof.
  intros Hu. unfold buildCurve.
  destruct (curve_gridLines c) as [|l ls]; [intros [= <- <- <-]; auto|].
  destruct (curve_directions c) as [|d ds]; [intros [= <- <- <-]; auto|].
  apply buildCurve_loop_usedShape. now apply markDirectionUsed_usedShape.
Qed.

Lemma findNextCurve_scan_usedShape fuel entries :
  forall g r g',
    UsedShape g ->
    findNextCurve_scan fuel entries g = Some (r, g') -> UsedShape g'.
Proof.
  induction entries as [|[id line] rest IH]; intros g r g' Hu;
    cbn [findNextCurve_scan].
  - intros [= <- <-]; auto.
  - destruct (getUnusedDirections g id) as [|direction ds]; [now apply IH|].
    destruct (buildCurve fuel (newMirrorCurve line direction) g)
      as [[out c1] g1] eqn:Eb.
    pose proof (buildCurve_usedShape _ _ _ _ _ _ Hu Eb) as Hu1.
    destruct out as [[|]| |].
    + intros [= <- <-]; auto.
    + now apply IH.
    + now apply IH.
    + discriminate.
Qed.

Lemma findAllCurves_loop_usedShape fuel :
  forall g cs r g',
    UsedShape g ->
    findAllCurves_loop fuel g cs = Some (r, g') -> UsedShape g'.
Proof.
  induction fuel as [|fuel IH]; intros g cs r g' Hu; cbn [findAllCurves_loop];
    [discriminate|].
  destruct (findNextCurve g) as [[[c|] g1]|] eqn:En; [| |discriminate].
  - apply IH. eapply findNextCurve_scan_usedShape; eauto.
  - intros [= <- <-]. eapply findNextCurve_scan_usedShape; eauto.
Qed.

(** X8. [resetUsedDirections()] depends on the lines only: on a grid as
    constructed (with any interior mirrors and any marks), resetting after
    marking a direction, after tracing a curve or after enumerating curves
    gives the same grid as resetting at once; resetting twice is resetting
    once; and a fresh grid is already in its reset state. *)
Theorem resetUsedDirections_forgets :
  forall nrows ncols g,
    InteriorConfig nrows ncols g ->
    resetUsedDirections (resetUsedDirections g) = resetUsedDirections g
    /\ (forall id d,
           resetUsedDirections (markDirectionUsed g id d)
           = resetUsedDirections g)
    /\ (forall fuel c out c' g',
           buildCurve fuel c g = (out, c', g') ->
           resetUsedDirections g' = resetUsedDirections g)
    /\ (forall r g',
           findNextCurve g = Some (r, g') ->
           resetUsedDirections g' = resetUsedDirections g)
    /\ resetUsedDirections (newGrid nrows ncols) = newGrid nrows ncols.
Proof.
  intros nrows ncols g Hcfg.
  destruct (InteriorConfig_inv nrows ncols g Hcfg) as (R & C & W).
  pose proof W as (Hs & Hb & Hu).
  splits.
  - apply resetUsedDirections_eq; auto.
    + apply initializeUsedDirections_sameLines.
    + apply initializeUsedDirections_keys; auto.
  - intros id d. apply resetUsedDirections_eq; auto.
    + apply markDirectionUsed_sameLines.
    + now apply markDirectionUsed_usedShape.
  - intros fuel c out c' g' Hb'. apply resetUsedDirections_eq; auto.
    + eapply buildCurve_sameLines; eauto.
    + eapply buildCurve_usedShape; eauto.
  - intros r g' Hn. apply resetUsedDirections_eq; auto.
    + eapply findNextCurve_sameLines; eauto.
    + eapply findNextCurve_scan_usedShape; eauto.
  - unfold resetUsedDirections, newGrid.
    set (g3 := placeBoundaryMirrors _).
    assert (Hs3 : GridShape g3).
    { apply (sameLines_shape (initializeUsedDirections g3)).
      - apply sameLines_sym, initializeUsedDirections_sameLines.
      - apply (newGrid_shape nrows ncols). }
    apply initializeUsedDirections_eq; auto.
    + apply initializeUsedDirections_sameLines.
    + apply (newGrid_usedShape nrows ncols).
    + apply initializeUsedDirections_keys.
      * apply (newGrid_shape nrows ncols).
      * left. apply (newGrid_usedShape nrows ncols).
Qed.

Lemma resetUsedDirections_forgets_witness :
  let g := setMirror (newGrid 2 2) (mkId tag_h 1 0) true in
  resetUsedDirections (resetUsedDirections g) = resetUsedDirections g
  /\ (forall id d,
         resetUsedDirections (markDirectionUsed g id d)
         = resetUsedDirections g)
  /\ (forall fuel c out c' g',
         buildCurve fuel c g = (out, c', g') ->
         resetUsedDirections g' = resetUsedDirections g)
  /\ (forall r g',
         findNextCurve g = Some (r, g') ->
         resetUsedDirections g' = resetUsedDirections g)
  /\ resetUsedDirections (newGrid 2 2) = newGrid 2 2.
Proof.
  intros g. apply (resetUsedDirections_forgets 2 2 g).
  apply config_setMirror; [apply config_new | reflexivity].
Defined.

(** ** What a trace looks like on any grid *)

Lemma chain_snoc (A : Type) (R : A -> A -> Prop) (l : list A) (x d : A) :
  chain R l -> (l <> [] -> R (last l d) x) -> chain R (l ++ [x]).
Proof.
  induction l as [|a l IH]; intros Hc Hl.
  - simpl. auto.
  - destruct l as [|b t].
    + simpl. split; auto. apply Hl. discriminate.
    + destruct Hc as [Hab Hc]. change ((a :: b :: t) ++ [x]) with (a :: (b :: t) ++ [x]).
      split; [exact Hab|]. apply IH; auto.
      intros _. apply Hl. discriminate.
Qed.

Lemma chain_nth (A : Type) (R : A -> A -> Prop) (l : list A) :
  chain R l ->
  forall i a b, nth_error l i = Some a -> nth_error l (S i) = Some b -> R a b.
Proof.
  induction l as [|x l IH]; intros Hc i a b Ha Hb.
  - destruct i; discriminate.
  - destruct Hc as [Hx Hc]. destruct i as [|i].
    + simpl in Ha, Hb. injection Ha as <-. destruct l as [|y t]; [discriminate|].
      simpl in Hb. injection Hb as <-. exact Hx.
    + simpl in Ha. change (nth_error (x :: l) (S (S i))) with (nth_error l (S i)) in Hb.
      eapply IH; eauto.
Qed.

Lemma segmentsOf_addSegment c l d :
  length (curve_directions c) = length (curve_gridLines c) ->
  segmentsOf (addSegment c l d) = segmentsOf c ++ [(l, d)].
Proof.
  intros H. unfold segmentsOf, addSegment. simpl.
  apply combine_snoc. auto.
Qed.

Lemma hd_error_app (A : Type) (l : list A) (x a : A) :
  hd_error l = Some a -> hd_error (l ++ [x]) = Some a.
Proof. destruct l; simpl; auto; discriminate. Qed.

Lemma hd_of_hd_error (A : Type) (l : list A) (a d : A) :
  hd_error l = Some a -> hd d l = a.
Proof. destruct l; simpl; congruence. Qed.

Lemma segmentsOf_hd c l0 d0 :
  hd_error (segmentsOf c) = Some (l0, d0) ->
  hd_error (curve_gridLines c) = Some l0 /\ hd_error (curve_directions c) = Some d0.
Proof.
  unfold segmentsOf.
  destruct (curve_gridLines c), (curve_directions c); simpl; try discriminate.
  intros [= -> ->]. auto.
Qed.

Lemma followsGrid_step g l d k l' :
  getAdjacentGridLine g (line_id l) d = AdjReturn (Some k) ->
  getGridLine g k = Some l' ->
  followsGrid g (l, d)
    (l', if isMirror l' then getReflectedDirection g k d else d).
Proof. intros H1 H2. exists k. simpl. auto. Qed.

Lemma sameLines_adjacent g g' id d :
  sameLines g g' -> getAdjacentGridLine g' id d = getAdjacentGridLine g id d.
Proof.
  intros H. unfold getAdjacentGridLine. now rewrite (sameLines_get g g' id H).
Qed.

Lemma sameLines_reflected g g' id d :
  sameLines g g' -> getReflectedDirection g' id d = getReflectedDirection g id d.
Proof.
  intros H. unfold getReflectedDirection. now rewrite (sameLines_get g g' id H).
Qed.

Lemma isDirectionUsed_mark_mono g id d id' x :
  isDirectionUsed g id' x = true ->
  isDirectionUsed (markDirectionUsed g id d) id' x = true.
Proof. intros H. rewrite markDirectionUsed_used, H. reflexivity. Qed.

Lemma buildCurve_body_inv g0 l0 d0 g c cur dir :
  LoopInv g0 l0 d0 g c cur dir ->
  (N.of_nat (length (curve_gridLines c)) < MAX_SEGMENTS)%N ->
  match buildCurve_body g c cur dir with
  | Return _ c' g' => BuildPost g0 l0 d0 c' g'
  | Continue g' c' cur' dir' => LoopInv g0 l0 d0 g' c' cur' dir'
  end.
Proof.
  intros [Hsame Hlen Hhd Hlast Hchain Hbound (F1 & F2 & F3 & F4) Hused] Hlt.
  unfold buildCurve_body.
  destruct (getAdjacentGridLine g (line_id cur) dir) as [[k|]|] eqn:Eadj.
  - destruct (getGridLine g k) as [l'|] eqn:Ek.
    + set (d' := if isMirror l' then getReflectedDirection g k dir else dir).
      set (c1 := addSegment c l' d').
      set (g2 := markDirectionUsed (markDirectionUsed g k d') k (oppositeOf dir)).
      assert (Hsame2 : sameLines g0 g2).
      { eapply sameLines_trans; [exact Hsame|]. apply markTwice_sameLines. }
      assert (Hseg : segmentsOf c1 = segmentsOf c ++ [(l', d')])
        by (apply segmentsOf_addSegment; exact Hlen).
      assert (Hlen1 : length (curve_directions c1) = length (curve_gridLines c1)).
      { unfold c1, addSegment. simpl. rewrite !length_app. simpl. lia. }
      assert (Hhd1 : hd_error (segmentsOf c1) = Some (l0, d0)).
      { rewrite Hseg. now apply hd_error_app. }
      assert (Hlast1 : last (segmentsOf c1) (l0, d0) = (l', d')).
      { rewrite Hseg. apply last_last. }
      assert (Hchain1 : chain (followsGrid g0) (segmentsOf c1)).
      { rewrite Hseg. apply (chain_snoc _ _ _ _ (l0, d0)); auto.
        intros _. rewrite Hlast. unfold d'.
        rewrite (sameLines_reflected g0 g k dir Hsame).
        apply followsGrid_step.
        - now rewrite <- (sameLines_adjacent g0 g _ _ Hsame).
        - now rewrite <- (sameLines_get g0 g _ Hsame). }
      assert (Hbound1 : (N.of_nat (length (curve_gridLines c1)) <= MAX_SEGMENTS)%N).
      { unfold c1, addSegment. simpl. rewrite length_app. simpl. lia. }
      assert (Hused2 : forall id x,
                 isDirectionUsed g0 id x = true ->
                 isDirectionUsed g2 id x = true).
      { intros id x Hx. unfold g2.
        now repeat apply isDirectionUsed_mark_mono; apply Hused. }
      destruct (segmentsOf_hd c1 l0 d0 Hhd1) as (Hl1 & Hd1).
      match goal with
      | |- context [if ?b then _ else _] => destruct b eqn:Eclose
      end.
      * apply andb_true_iff in Eclose. destruct Eclose as [Eclose E3].
        apply andb_true_iff in Eclose. destruct Eclose as [E1 E2].
        fold c1 in E1, E2, E3. fold d' in E3.
        rewrite (hd_of_hd_error _ _ _ _ Hl1) in E2.
        rewrite (hd_of_hd_error _ _ _ _ Hd1) in E3.
        apply GridLineId_eqb_eq in E2. apply Direction_eqb_eq in E3.
        apply Nat.ltb_lt in E1.
        assert (Hsc : segmentsOf (set_isClosed c1) = segmentsOf c1) by reflexivity.
        assert (Hf1 : leftGrid c1 = false) by exact F2.
        assert (Hf2 : exitPoint c1 = None) by exact F3.
        assert (Hf3 : exitDirection c1 = None) by exact F4.
        constructor; rewrite ?Hsc; cbn [set_isClosed curve_gridLines
          curve_directions isClosed leftGrid exitPoint exitDirection]; auto.
        -- intros H. congruence.
        -- intros _. rewrite Hlast1. simpl. splits; auto.
      * constructor; auto.
    + constructor; auto.
      * intros H. congruence.
      * intros H. congruence.
  - constructor; auto.
    + intros H. congruence.
    + intros H. congruence.
  - assert (Hsc : segmentsOf (set_leftGrid c cur dir) = segmentsOf c) by reflexivity.
    constructor; rewrite ?Hsc; cbn [set_leftGrid curve_gridLines
      curve_directions isClosed leftGrid exitPoint exitDirection]; auto.
    + intros _. rewrite Hlast. simpl. splits; auto.
      rewrite (sameLines_adjacent g0 g _ _ Hsame) in Eadj.
      unfold isEdgeDirection. unfold getAdjacentGridLine in Eadj.
      destruct (getGridLine g0 (line_id cur)) as [lc|]; auto.
      destruct (conn_get (connections lc) dir); auto. discriminate.
    + intros H. congruence.
    + intros H. discriminate.
Qed.

Lemma LoopInv_post g0 l0 d0 g c cur dir :
  LoopInv g0 l0 d0 g c cur dir -> BuildPost g0 l0 d0 c g.
Proof.
  intros [Hsame Hlen Hhd Hlast Hchain Hbound (F1 & F2 & F3 & F4) Hused].
  constructor; auto; intros H; congruence.
Qed.

Lemma buildCurve_loop_inv g0 l0 d0 fuel :
  forall g c cur dir out c' g',
    LoopInv g0 l0 d0 g c cur dir ->
    buildCurve_loop fuel g c cur dir = (out, c', g') ->
    BuildPost g0 l0 d0 c' g'.
Proof.
  induction fuel as [|fuel IH]; intros g c cur dir out c' g' Hinv;
    cbn [buildCurve_loop].
  - destruct (negb _); intros [= <- <- <-]; eapply LoopInv_post; eauto.
  - destruct (N.of_nat (length (curve_gridLines c)) <? MAX_SEGMENTS)%N eqn:Elt;
      cbn [negb].
    2:{ intros [= <- <- <-]; eapply LoopInv_post; eauto. }
    apply N.ltb_lt in Elt.
    pose proof (buildCurve_body_inv g0 l0 d0 g c cur dir Hinv Elt) as Hb.
    destruct (buildCurve_body g c cur dir) as [b c1 g1|g1 c1 l1 d1].
    + intros [= <- <- <-]; auto.
    + apply IH; auto.
Qed.

Lemma buildCurve_post fuel g l d out c' g' :
  buildCurve fuel (newMirrorCurve l d) g = (out, c', g') ->
  BuildPost g l d c' g'.
Proof.
  unfold buildCurve. cbn [newMirrorCurve curve_gridLines curve_directions].
  apply buildCurve_loop_inv. constructor; simpl; auto.
  - apply markDirectionUsed_sameLines.
  - vm_compute. discriminate.
  - intros id x. apply isDirectionUsed_mark_mono.
Qed.

Lemma nth_error_combine (A B : Type) (xs : list A) (ys : list B) i x y :
  nth_error xs i = Some x -> nth_error ys i = Some y ->
  nth_error (combine xs ys) i = Some (x, y).
Proof.
  revert ys i. induction xs as [|a xs IH]; intros [|b ys] [|i]; simpl;
    try discriminate.
  - now intros [= ->] [= ->].
  - apply IH.
Qed.

Lemma last_combine (A B : Type) (xs : list A) (ys : list B) x y :
  length ys = length xs ->
  last (combine xs ys) (x, y) = (last xs x, last ys y).
Proof.
  revert ys. induction xs as [|a xs IH]; intros [|b ys]; simpl;
    try discriminate; auto.
  intros [= H]. destruct xs as [|a' xs], ys as [|b' ys]; try discriminate; auto.
  apply (IH (b' :: ys)). exact H.
Qed.

Lemma buildCurve_loop_not_escaped fuel :
  forall g c l d, fst (fst (buildCurve_loop fuel g c l d)) <> Escaped.
Proof.
  induction fuel as [|fuel IH]; intros g c l d; cbn [buildCurve_loop].
  - destruct (negb _); discriminate.
  - destruct (negb _); [discriminate|].
    destruct (buildCurve_body g c l d); [discriminate|apply IH].
Qed.

(** X9. A call of [buildCurve] on a new curve, whatever the grid, returns
    (true or false) within the [MAX_SEGMENTS] passes; the curve then has as
    many directions as grid lines, at most [MAX_SEGMENTS] of them, and
    still starts with its start line and direction; the grid keeps its
    dimensions and lines (mirrors and connections included), and every
    direction that was used is still used. *)
Theorem buildCurve_result_shape :
  forall g l d out c' g',
    buildCurve (N.to_nat MAX_SEGMENTS) (newMirrorCurve l d) g = (out, c', g') ->
    (exists success, out = Returned success)
    /\ length (curve_directions c') = length (curve_gridLines c')
    /\ (N.of_nat (length (curve_gridLines c')) <= MAX_SEGMENTS)%N
    /\ hd_error (curve_gridLines c') = Some l
    /\ hd_error (curve_directions c') = Some d
    /\ rows g' = rows g /\ cols g' = cols g /\ gridLines g' = gridLines g
    /\ (forall id x,
           isDirectionUsed g id x = true -> isDirectionUsed g' id x = true).
Proof.
  intros g l d out c' g' Hb.
  destruct (buildCurve_post _ _ _ _ _ _ _ Hb)
    as [(R & C & L) Hlen Hhd Hchain Hbound Hused _ _ _].
  destruct (segmentsOf_hd c' l d Hhd) as (Hl & Hd).
  splits; auto.
  pose proof (buildCurve_fuel l d g) as Hf. rewrite Hb in Hf. simpl in Hf.
  destruct out as [b| |].
  - now exists b.
  - exfalso. unfold buildCurve in Hb.
    cbn [newMirrorCurve curve_gridLines curve_directions] in Hb.
    eapply buildCurve_loop_not_escaped. rewrite Hb. reflexivity.
  - congruence.
Qed.

Lemma buildCurve_result_shape_witness :
  let g := resetUsedDirections (newGrid 1 1) in
  let l := builtLine 1 1 (mkId tag_h 0 0) in
  let r := buildCurve (N.to_nat MAX_SEGMENTS) (newMirrorCurve l SW) g in
  (exists success, fst (fst r) = Returned success)
  /\ length (curve_directions (snd (fst r)))
     = length (curve_gridLines (snd (fst r)))
  /\ (N.of_nat (length (curve_gridLines (snd (fst r)))) <= MAX_SEGMENTS)%N
  /\ hd_error (curve_gridLines (snd (fst r))) = Some l
  /\ hd_error (curve_directions (snd (fst r))) = Some SW
  /\ rows (snd r) = rows g /\ cols (snd r) = cols g
  /\ gridLines (snd r) = gridLines g
  /\ (forall id x,
         isDirectionUsed g id x = true -> isDirectionUsed (snd r) id x = true).
Proof.
  intros g l r.
  apply (buildCurve_result_shape g l SW (fst (fst r)) (snd (fst r)) (snd r)).
  subst r. destruct (buildCurve _ _ _) as [[out c] g']. reflexivity.
Defined.

(** X10. Consecutive entries of a curve built by [buildCurve] follow the
    grid: the connection of each line along its direction names a stored
    line, which is the next line of the curve, and the next direction is
    the same direction, reflected by [getReflectedDirection] when that next
    line is a mirror. *)
Theorem buildCurve_follows_connections :
  forall fuel g l d out c' g',
    buildCurve fuel (newMirrorCurve l d) g = (out, c', g') ->
    forall i li di lj dj,
      nth_error (curve_gridLines c') i = Some li ->
      nth_error (curve_directions c') i = Some di ->
      nth_error (curve_gridLines c') (S i) = Some lj ->
      nth_error (curve_directions c') (S i) = Some dj ->
      exists k,
        getAdjacentGridLine g (line_id li) di = AdjReturn (Some k)
        /\ getGridLine g k = Some lj
        /\ dj = (if isMirror lj then getReflectedDirection g k di else di).
Proof.
  intros fuel g l d out c' g' Hb i li di lj dj H1 H2 H3 H4.
  destruct (buildCurve_post _ _ _ _ _ _ _ Hb) as [_ _ _ Hchain _ _ _ _ _].
  apply (chain_nth _ _ _ Hchain i (li, di) (lj, dj)).
  - now apply nth_error_combine.
  - now apply nth_error_combine.
Qed.

Lemma buildCurve_follows_connections_witness :
  let g := resetUsedDirections (newGrid 1 1) in
  let l := builtLine 1 1 (mkId tag_h 0 0) in
  let c' := snd (fst (buildCurve 10 (newMirrorCurve l SW) g)) in
  exists k,
    getAdjacentGridLine g (line_id l) SW = AdjReturn (Some k)
    /\ getGridLine g k = Some (builtLine 1 1 (mkId tag_v 0 0))
    /\ SE = (if isMirror (builtLine 1 1 (mkId tag_v 0 0))
             then getReflectedDirection g k SW else SW).
Proof.
  intros g l c'.
  apply (buildCurve_follows_connections 10 g l SW
           (fst (fst (buildCurve 10 (newMirrorCurve l SW) g))) c'
           (snd (buildCurve 10 (newMirrorCurve l SW) g))
           ltac:(unfold c'; destruct (buildCurve 10 (newMirrorCurve l SW) g)
                   as [[? ?] ?]; reflexivity)
           0 l SW (builtLine 1 1 (mkId tag_v 0 0)) SE);
    vm_compute; reflexivity.
Defined.

(** X11. How a curve built by [buildCurve] ends.  If it left the grid, it is
    not closed, [exitPoint] and [exitDirection] are its last line and last
    direction, and that direction is an edge direction of that line.  If it
    is closed, it did not leave the grid, [exitPoint] and [exitDirection]
    are null, it has more than two entries, and its last entry repeats the
    id of the start line and the start direction.  A curve that did not
    leave the grid has no exit point. *)
Theorem buildCurve_exit_and_closure :
  forall fuel g l d out c' g',
    buildCurve fuel (newMirrorCurve l d) g = (out, c', g') ->
    (leftGrid c' = true ->
       isClosed c' = false
       /\ exitPoint c' = Some (last (curve_gridLines c') l)
       /\ exitDirection c' = Some (last (curve_directions c') d)
       /\ isEdgeDirection g (line_id (last (curve_gridLines c') l))
            (last (curve_directions c') d) = true)
    /\ (isClosed c' = true ->
          leftGrid c' = false
          /\ exitPoint c' = None /\ exitDirection c' = None
          /\ 2 < length (curve_gridLines c')
          /\ line_id (last (curve_gridLines c') l) = line_id l
          /\ last (curve_directions c') d = d)
    /\ (leftGrid c' = false ->
          exitPoint c' = None /\ exitDirection c' = None).
Proof.
  intros fuel g l d out c' g' Hb.
  destruct (buildCurve_post _ _ _ _ _ _ _ Hb)
    as [_ Hlen _ _ _ _ Hleft Hclosed Hopen].
  unfold segmentsOf in Hleft, Hclosed.
  rewrite (last_combine _ _ _ _ l d Hlen) in Hleft, Hclosed.
  simpl in Hleft, Hclosed. splits; auto.
Qed.

Lemma buildCurve_exit_and_closure_witness :
  let g := newGrid 1 1 in
  let l := builtLine 1 1 (mkId tag_h 0 0) in
  let c' := snd (fst (buildCurve 10 (newMirrorCurve l NW) g)) in
  leftGrid c' = true
  /\ isClosed c' = false
  /\ exitPoint c' = Some (last (curve_gridLines c') l)
  /\ exitDirection c' = Some (last (curve_directions c') NW)
  /\ isEdgeDirection g (line_id (last (curve_gridLines c') l))
       (last (curve_directions c') NW) = true.
Proof.
  intros g l c'.
  assert (Hleft : leftGrid c' = true) by (vm_compute; reflexivity).
  split; [exact Hleft|].
  apply (buildCurve_exit_and_closure 10 g l NW
           (fst (fst (buildCurve 10 (newMirrorCurve l NW) g))) c'
           (snd (buildCurve 10 (newMirrorCurve l NW) g))
           ltac:(unfold c'; destruct (buildCurve 10 (newMirrorCurve l NW) g)
                   as [[? ?] ?]; reflexivity)).
  exact Hleft.
Defined.

(** ** Traces on a configured grid *)

Lemma resetUsedDirections_newGrid nrows ncols :
  resetUsedDirections (newGrid nrows ncols) = newGrid nrows ncols.
Proof.
  unfold resetUsedDirections, newGrid.
  set (g3 := placeBoundaryMirrors _).
  assert (Hs3 : GridShape g3).
  { apply (sameLines_shape (initializeUsedDirections g3)).
    - apply sameLines_sym, initializeUsedDirections_sameLines.
    - apply (newGrid_shape nrows ncols). }
  apply initializeUsedDirections_eq; auto.
  - apply initializeUsedDirections_sameLines.
  - apply (newGrid_usedShape nrows ncols).
  - apply initializeUsedDirections_keys.
    + apply (newGrid_shape nrows ncols).
    + left. apply (newGrid_usedShape nrows ncols).
Qed.

(** On a configured grid the pre-seeded pairs are always used. *)
Lemma InteriorConfig_seeded_used nrows ncols g :
  InteriorConfig nrows ncols g ->
  forall id d,
    validId nrows ncols id -> seededb nrows ncols id d = true ->
    isDirectionUsed g id d = true.
Proof.
  induction 1 as [|g id b H IH Hnb|g id d H IH|g H IH]; intros id' d' Hv Hsd.
  - rewrite <- resetUsedDirections_newGrid. unfold resetUsedDirections.
    destruct (newGrid_lines nrows ncols) as (R & C & _).
    destruct (valid_getGridLine (newGrid nrows ncols) id'
                (newGrid_shape nrows ncols)) as [l Hl].
    { now rewrite R, C. }
    rewrite (initializeUsedDirections_used _ id' l d'
               (newGrid_shape nrows ncols) Hl).
    now rewrite R, C.
  - unfold isDirectionUsed. rewrite setMirror_used. now apply IH.
  - apply isDirectionUsed_mark_mono. now apply IH.
  - destruct (InteriorConfig_inv nrows ncols g H) as (R & C & Hs & _).
    destruct (valid_getGridLine g id' Hs) as [l Hl].
    { now rewrite R, C. }
    unfold resetUsedDirections.
    rewrite (initializeUsedDirections_used g id' l d' Hs Hl). now rewrite R, C.
Qed.

Lemma neighbor_dir_inj nrows ncols id d1 d2 b :
  neighbor nrows ncols id d1 = Some b ->
  neighbor nrows ncols id d2 = Some b -> d1 = d2.
Proof.
  unfold neighbor. destruct id as [t row col]; cbn [idTag idRow idCol].
  destruct t, d1, d2; auto;
    repeat match goal with
           | |- context [if ?c then _ else _] => destruct c eqn:?
           end; intros H1 H2; try discriminate;
    injection H1 as <-; inversion H2;
    repeat match goal with
           | H : (_ && _) = true |- _ => apply andb_true_iff in H; destruct H
           | H : (_ <? _) = true |- _ => apply Nat.ltb_lt in H
           end; lia.
Qed.

Section WalkParity.

Variables nrows ncols : nat.
Hypothesis Hrows : 1 <= nrows.
Hypothesis Hcols : 1 <= ncols.
Variable mir : GridLineId -> bool.
Hypothesis mir_boundary :
  forall id, boundaryId nrows ncols id = true -> mir id = true.

Lemma walk_parity s k :
  inU nrows ncols s ->
  (idTag (fst (walk nrows ncols mir k s)) = idTag (fst s)
   <-> Nat.even k = true).
Proof.
  intros Hs. induction k as [|k IH].
  - simpl. tauto.
  - pose proof (walk_tag nrows ncols Hrows Hcols mir mir_boundary k s Hs) as Ht.
    rewrite Nat.even_succ, <- Nat.negb_even, negb_true_iff.
    destruct (Nat.even k).
    + destruct IH as [_ IH]. specialize (IH eq_refl). rewrite IH in Ht.
      split; [tauto | discriminate].
    + split; auto. intros _.
      destruct (idTag (fst (walk nrows ncols mir (S k) s))),
        (idTag (fst (walk nrows ncols mir k s))), (idTag (fst s));
        try reflexivity; try (exfalso; apply Ht; reflexivity).
      * destruct IH as [IH _]. specialize (IH eq_refl). discriminate.
      * destruct IH as [IH _]. specialize (IH eq_refl). discriminate.
Qed.

Lemma walk_two_moves s :
  inU nrows ncols s -> walk nrows ncols mir 2 s <> s.
Proof.
  intros Hs E.
  pose proof (inU_next nrows ncols Hrows Hcols mir mir_boundary s Hs) as Hs1.
  destruct (inU_neighbor nrows ncols Hrows Hcols s Hs) as [id1 E1].
  destruct (inU_neighbor nrows ncols Hrows Hcols _ Hs1) as [id2 E2].
  change (walk nrows ncols mir 2 s)
    with (nextState nrows ncols mir (nextState nrows ncols mir s)) in E.
  unfold nextState at 1 in E. rewrite E2 in E.
  unfold nextState in E, E2. rewrite E1 in E, E2. cbn [fst snd] in E, E2.
  destruct s as [id d]. cbn [fst snd] in *. injection E as -> Hd.
  destruct Hs as [Hv _]. cbn [fst] in Hv.
  pose proof (neighbor_back _ _ _ _ _ Hv E1) as Hback.
  pose proof (neighbor_dir_inj _ _ _ _ _ _ E2 Hback) as Hopp.
  exact (reflectDir_not_opposite _ _ _ Hopp).
Qed.

Lemma walk_period_even s n :
  inU nrows ncols s -> 1 <= n -> walk nrows ncols mir n s = s ->
  Nat.even n = true /\ 4 <= n.
Proof.
  intros Hs Hn E.
  assert (Hev : Nat.even n = true).
  { apply (walk_parity s n Hs). now rewrite E. }
  split; auto.
  destruct n as [|[|[|[|n]]]]; try lia; try discriminate.
  exfalso. exact (walk_two_moves s Hs E).
Qed.

End WalkParity.

Lemma configured_trace nrows ncols g id l d :
  1 <= nrows -> 1 <= ncols ->
  InteriorConfig nrows ncols g ->
  (N.of_nat (4 * length (allIds nrows ncols)) < MAX_SEGMENTS)%N ->
  getGridLine g id = Some l -> seededb nrows ncols id d = false ->
  exists n cv' g',
    4 <= n <= 4 * length (allIds nrows ncols)
    /\ Nat.even n = true
    /\ buildCurve (N.to_nat MAX_SEGMENTS) (newMirrorCurve l d) g
       = (Returned true, cv', g')
    /\ stepsOf cv'
       = map (fun k => walk nrows ncols (mirOf g) k (id, d)) (seq 0 (S n))
    /\ isClosed cv' = true /\ leftGrid cv' = false
    /\ sameLines g g' /\ UsedShape g'
    /\ (forall x,
           usedState g' x
           = usedState g x || markedBy nrows ncols g (id, d) x 1 n)
    /\ isDirectionUsed g' id d = true.
Proof.
  intros Hr Hc Hcfg Hsmall Hl Hsd.
  destruct (InteriorConfig_inv nrows ncols g Hcfg) as (R & C & Hs & Hb & Hu).
  set (s0 := (id, d) : TraceState).
  assert (Hv : validId nrows ncols id).
  { rewrite <- R, <- C. eapply getGridLine_valid; eauto. }
  assert (Hs0 : inU nrows ncols s0) by (split; auto).
  assert (mirB : forall k, boundaryId nrows ncols k = true -> mirOf g k = true).
  { intros k Hk. apply mirOf_boundary; auto. now rewrite R, C. }
  destruct (walk_period nrows ncols Hr Hc (mirOf g) mirB s0 Hs0)
    as (n & [Hn2 Hnle] & Hper & Hmin).
  destruct (walk_period_even nrows ncols Hr Hc (mirOf g) mirB s0 n Hs0)
    as (Hev & Hn4); [lia | exact Hper |].
  rewrite length_allStates in Hnle by assumption.
  assert (Hnmax : (N.of_nat n < MAX_SEGMENTS)%N) by lia.
  destruct (trace_buildCurve nrows ncols Hr Hc g R C Hs Hb s0 Hs0 n Hn2 Hper
              Hmin Hnmax g l (sameLines_refl g) Hu Hl)
    as (cv' & g' & Hbuild & Hsteps & Hclosed & Hleft & Hsl' & Hus' & Hused').
  exists n, cv', g'. splits; auto; try lia.
  change (usedState g' s0 = true). rewrite Hused'.
  apply orb_true_iff. right. unfold markedBy. apply existsb_exists.
  exists n. split; [apply in_seq; lia|].
  rewrite Hper, TraceState_eqb_refl. reflexivity.
Qed.

Lemma length_stepsOf c :
  length (curve_directions c) = length (curve_gridLines c) ->
  length (stepsOf c) = length (curve_gridLines c).
Proof.
  intros H. unfold stepsOf, TraceState.
  rewrite length_combine, length_map, H. lia.
Qed.

Lemma buildCurve_loop_first fuel g c l d b c' g' :
  1 <= fuel ->
  (N.of_nat (length (curve_gridLines c)) < MAX_SEGMENTS)%N ->
  buildCurve_body g c l d = Return b c' g' ->
  buildCurve_loop fuel g c l d = (Returned b, c', g').
Proof.
  intros Hf Hlt Hb. destruct fuel as [|fuel]; [lia|]. cbn [buildCurve_loop].
  apply N.ltb_lt in Hlt. rewrite Hlt, Hb. reflexivity.
Qed.

(** X12. On a grid with [rows >= 1] and [cols >= 1] small enough for the
    cap (with any interior mirrors and any marks), [buildCurve] from a
    stored line never fails.  Started along an edge direction of the line
    it returns at once: the curve has left the grid with its single
    segment.  Started along any other direction it returns a closed curve
    that never leaves the grid: it comes back to its start after an even
    number of steps, at least 4 and at most four times the number of
    lines. *)
Theorem buildCurve_closes_inside :
  forall nrows ncols g,
    1 <= nrows -> 1 <= ncols ->
    InteriorConfig nrows ncols g ->
    (N.of_nat (4 * ((nrows + 1) * ncols + nrows * (ncols + 1)))
     < MAX_SEGMENTS)%N ->
    forall id l d,
      getGridLine g id = Some l ->
      (isEdgeDirection g id d = true ->
         buildCurve (N.to_nat MAX_SEGMENTS) (newMirrorCurve l d) g
         = (Returned true, set_leftGrid (newMirrorCurve l d) l d,
            markDirectionUsed g id d))
      /\ (isEdgeDirection g id d = false ->
            exists c' g' n,
              buildCurve (N.to_nat MAX_SEGMENTS) (newMirrorCurve l d) g
              = (Returned true, c', g')
              /\ isClosed c' = true /\ leftGrid c' = false
              /\ length (curve_gridLines c') = n + 1
              /\ 4 <= n <= 4 * ((nrows + 1) * ncols + nrows * (ncols + 1))
              /\ Nat.even n = true).
Proof.
  intros nrows ncols g Hr Hc Hcfg Hsmall id l d Hl.
  destruct (InteriorConfig_inv nrows ncols g Hcfg) as (R & C & Hs & Hb & Hu).
  rewrite <- length_allIds in *.
  destruct (shape_lines g Hs id l Hl) as (Hid & _).
  split.
  - intros He. unfold buildCurve.
    cbn [newMirrorCurve curve_gridLines curve_directions]. rewrite Hid.
    apply buildCurve_loop_first.
    + unfold MAX_SEGMENTS. lia.
    + vm_compute. reflexivity.
    + unfold buildCurve_body. rewrite Hid.
      rewrite (sameLines_adjacent g _ id d (markDirectionUsed_sameLines g id d)).
      unfold isEdgeDirection in He. unfold getAdjacentGridLine. rewrite Hl in *.
      destruct (conn_get (connections l) d); [discriminate|reflexivity].
  - intros He.
    rewrite (isEdgeDirection_seeded nrows ncols g id l d Hr Hc R C Hs Hl) in He.
    destruct (configured_trace nrows ncols g id l d Hr Hc Hcfg Hsmall Hl He)
      as (n & cv' & g' & Hn & Hev & Hbuild & Hsteps & Hclosed & Hleft & _).
    exists cv', g', n. splits; auto; try lia.
    destruct (buildCurve_post _ _ _ _ _ _ _ Hbuild) as [_ Hlen _ _ _ _ _ _ _].
    rewrite <- (length_stepsOf cv' Hlen), Hsteps, length_map, length_seq. lia.
Qed.

Lemma buildCurve_closes_inside_witness :
  let g := setMirror (newGrid 2 2) (mkId tag_h 1 0) true in
  let id := mkId tag_h 0 1 in
  let l := builtLine 2 2 id in
  getGridLine g id = Some l
  /\ (isEdgeDirection g id NE = true ->
        buildCurve (N.to_nat MAX_SEGMENTS) (newMirrorCurve l NE) g
        = (Returned true, set_leftGrid (newMirrorCurve l NE) l NE,
           markDirectionUsed g id NE))
  /\ (isEdgeDirection g id NE = false ->
        exists c' g' n,
          buildCurve (N.to_nat MAX_SEGMENTS) (newMirrorCurve l NE) g
          = (Returned true, c', g')
          /\ isClosed c' = true /\ leftGrid c' = false
          /\ length (curve_gridLines c') = n + 1
          /\ 4 <= n <= 4 * ((2 + 1) * 2 + 2 * (2 + 1))
          /\ Nat.even n = true).
Proof.
  intros g id l.
  assert (Hl : getGridLine g id = Some l) by (vm_compute; reflexivity).
  split; [exact Hl|].
  apply (buildCurve_closes_inside 2 2 g); [lia | lia | | | exact Hl].
  - apply config_setMirror; [apply config_new | reflexivity].
  - vm_compute. reflexivity.
Defined.

(** ** The enumerator on a configured grid *)

Lemma configured_scan nrows ncols g :
  1 <= nrows -> 1 <= ncols ->
  InteriorConfig nrows ncols g ->
  (N.of_nat (4 * length (allIds nrows ncols)) < MAX_SEGMENTS)%N ->
  forall es,
    (forall e, In e es -> getGridLine g (fst e) = Some (snd e)) ->
    (findNextCurve_scan (N.to_nat MAX_SEGMENTS) es g = Some (None, g)
     /\ forall e, In e es -> getUnusedDirections g (fst e) = [])
    \/ (exists id l d ds c g',
           In (id, l) es
           /\ getUnusedDirections g id = d :: ds
           /\ findNextCurve_scan (N.to_nat MAX_SEGMENTS) es g
              = Some (Some c, g')
           /\ buildCurve (N.to_nat MAX_SEGMENTS) (newMirrorCurve l d) g
              = (Returned true, c, g')
           /\ isClosed c = true /\ leftGrid c = false
           /\ isDirectionUsed g' id d = true
           /\ wellSized c).
Proof.
  intros Hr Hc Hcfg Hsmall.
  destruct (InteriorConfig_inv nrows ncols g Hcfg) as (R & C & Hs & Hb & Hu).
  induction es as [|[id l] es IH]; intros Hes.
  - left. split; [reflexivity | intros e []].
  - cbn [findNextCurve_scan].
    assert (Hl : getGridLine g id = Some l) by (apply (Hes (id, l)); now left).
    destruct (getUnusedDirections g id) as [|d ds] eqn:Hun.
    + destruct IH as [[Hscan Hnone]|Hfound].
      { intros e He. apply Hes. now right. }
      * left. split; [exact Hscan|]. intros e [<-|He]; auto.
      * right. destruct Hfound as (id' & l' & d' & ds' & c & g' & Hin & H).
        exists id', l', d', ds', c, g'. split; [now right | exact H].
    + right.
      destruct (getUnusedDirections_first g id d ds Hun) as [Hd _].
      assert (Hv : validId nrows ncols id).
      { rewrite <- R, <- C. eapply getGridLine_valid; eauto. }
      assert (Hsd : seededb nrows ncols id d = false).
      { destruct (seededb nrows ncols id d) eqn:E; auto.
        rewrite (InteriorConfig_seeded_used nrows ncols g Hcfg id d Hv E) in Hd.
        discriminate. }
      destruct (configured_trace nrows ncols g id l d Hr Hc Hcfg Hsmall Hl Hsd)
        as (n & cv' & g' & Hn & _ & Hbuild & Hsteps & Hclosed & Hleft & _ & _
            & _ & Hused).
      exists id, l, d, ds, cv', g'. rewrite Hbuild. splits; auto.
      * now left.
      * destruct (buildCurve_post _ _ _ _ _ _ _ Hbuild)
          as [_ Hlen _ _ _ _ _ _ _].
        split; [|exact Hlen].
        rewrite <- (length_stepsOf cv' Hlen), Hsteps, length_map, length_seq.
        lia.
Qed.

(** X13. On a grid with [rows >= 1] and [cols >= 1] small enough for the
    cap (with any interior mirrors and any marks), [findNextCurve] returns
    null only when no stored line has an unused direction, and then leaves
    the grid as it is.  Otherwise it returns a closed curve, never one that
    left the grid: the curve starts on a stored line along a direction that
    was unused and is used afterwards, and no used direction becomes unused. *)
Theorem findNextCurve_configured :
  forall nrows ncols g,
    1 <= nrows -> 1 <= ncols ->
    InteriorConfig nrows ncols g ->
    (N.of_nat (4 * ((nrows + 1) * ncols + nrows * (ncols + 1)))
     < MAX_SEGMENTS)%N ->
    (findNextCurve g = Some (None, g)
     /\ forall id l, getGridLine g id = Some l ->
                     getUnusedDirections g id = [])
    \/ (exists c g',
           findNextCurve g = Some (Some c, g')
           /\ isClosed c = true /\ leftGrid c = false /\ exitPoint c = None
           /\ (exists id l d,
                  getGridLine g id = Some l
                  /\ hd_error (curve_gridLines c) = Some l
                  /\ hd_error (curve_directions c) = Some d
                  /\ isDirectionUsed g id d = false
                  /\ isDirectionUsed g' id d = true)
           /\ (forall id x,
                  isDirectionUsed g id x = true ->
                  isDirectionUsed g' id x = true)).
Proof.
  intros nrows ncols g Hr Hc Hcfg Hsmall.
  destruct (InteriorConfig_inv nrows ncols g Hcfg) as (R & C & Hs & Hb & Hu).
  rewrite <- length_allIds in Hsmall.
  assert (Hes : forall e, In e (JsMap.entries (gridLines g)) ->
                          getGridLine g (fst e) = Some (snd e)).
  { intros [id l] Hin. now apply GridShape_entry. }
  destruct (configured_scan nrows ncols g Hr Hc Hcfg Hsmall _ Hes)
    as [[Hscan Hnone]|(id & l & d & ds & c & g' & Hin & Hun & Hscan & Hbuild
                       & Hclosed & Hleft & Hused & _)].
  - left. split; [exact Hscan|]. intros id l Hl.
    apply (get_Some_in GridLineId_eqb_eq) in Hl. apply (Hnone (id, l) Hl).
  - right. exists c, g'.
    destruct (buildCurve_post _ _ _ _ _ _ _ Hbuild)
      as [_ _ Hhd _ _ Hmono _ _ Hopen].
    destruct (segmentsOf_hd c l d Hhd) as (Hl0 & Hd0).
    destruct (getUnusedDirections_first g id d ds Hun) as [Hd _].
    splits; auto.
    + apply (Hopen Hleft).
    + exists id, l, d. splits; auto. now apply Hes in Hin.
Qed.

Lemma findNextCurve_configured_witness :
  let g := setMirror (newGrid 2 2) (mkId tag_h 1 0) true in
  (findNextCurve g = Some (None, g)
   /\ forall id l, getGridLine g id = Some l -> getUnusedDirections g id = [])
  \/ (exists c g',
         findNextCurve g = Some (Some c, g')
         /\ isClosed c = true /\ leftGrid c = false /\ exitPoint c = None
         /\ (exists id l d,
                getGridLine g id = Some l
                /\ hd_error (curve_gridLines c) = Some l
                /\ hd_error (curve_directions c) = Some d
                /\ isDirectionUsed g id d = false
                /\ isDirectionUsed g' id d = true)
         /\ (forall id x,
                isDirectionUsed g id x = true ->
                isDirectionUsed g' id x = true)).
Proof.
  intros g. apply (findNextCurve_configured 2 2 g); [lia | lia | |].
  - apply config_setMirror; [apply config_new | reflexivity].
  - vm_compute. reflexivity.
Defined.

(** X14. [findAllCurves] can be repeated: on a grid as constructed (with
    any interior mirrors and any marks), a second call on the grid the
    first call leaves behind returns the same list of curves and leaves the
    same grid; what the first call marked is forgotten by the reset the
    second call starts with. *)
Theorem findAllCurves_repeatable :
  forall nrows ncols g fuel curves g',
    InteriorConfig nrows ncols g ->
    findAllCurves fuel g = Some (curves, g') ->
    findAllCurves fuel g' = Some (curves, g')
    /\ resetUsedDirections g' = resetUsedDirections g
    /\ gridLines g' = gridLines g.
Proof.
  intros nrows ncols g fuel curves g' Hcfg Hall.
  destruct (InteriorConfig_inv nrows ncols g Hcfg) as (R & C & W).
  pose proof W as (Hs & Hb & Hu).
  pose proof (findAllCurves_sameLines fuel g curves g' Hall) as Hsame.
  assert (Hu' : UsedShape g').
  { unfold findAllCurves in Hall.
    eapply findAllCurves_loop_usedShape; [|exact Hall].
    apply initializeUsedDirections_keys; auto. }
  assert (Hreset : resetUsedDirections g' = resetUsedDirections g)
    by (apply resetUsedDirections_eq; auto).
  splits; auto.
  - unfold findAllCurves in *. now rewrite Hreset.
  - apply Hsame.
Qed.

Lemma findAllCurves_repeatable_witness :
  let g := setMirror (newGrid 1 2) (mkId tag_v 0 1) true in
  match findAllCurves 10 g with
  | Some (curves, g') =>
      findAllCurves 10 g' = Some (curves, g')
      /\ resetUsedDirections g' = resetUsedDirections g
      /\ gridLines g' = gridLines g
  | None => False
  end.
Proof.
  intros g.
  assert (Hcfg : InteriorConfig 1 2 g)
    by (apply config_setMirror; [apply config_new | reflexivity]).
  destruct (findAllCurves 10 g) as [[curves g']|] eqn:E.
  - exact (findAllCurves_repeatable 1 2 g 10 curves g' Hcfg E).
  - vm_compute in E. discriminate E.
Defined.

(** ** The spline: size of the output, interpolation, closure *)

Lemma length_flat_map_const (A : Type) (f : nat -> list A) (s : nat) (l : list nat) :
  (forall k, length (f k) = s) -> length (flat_map f l) = length l * s.
Proof.
  intros H. induction l as [|a l IH]; simpl; auto.
  now rewrite length_app, H, IH.
Qed.

Lemma nth_flat_map_const (A : Type) (f : nat -> list A) (s : nat) (d : A) :
  (forall k, length (f k) = s) ->
  forall n a i j,
    i < n -> j < s ->
    nth (i * s + j) (flat_map f (seq a n)) d = nth j (f (a + i)) d.
Proof.
  intros H. induction n as [|n IH]; intros a i j Hi Hj; [lia|].
  cbn [seq flat_map]. destruct i as [|i].
  - rewrite app_nth1 by (rewrite H; simpl; lia).
    simpl. now rewrite Nat.add_0_r.
  - rewrite app_nth2 by (rewrite H; simpl; lia).
    rewrite H. replace (S i * s + j - s) with (i * s + j) by (simpl; lia).
    rewrite IH by lia. f_equal. f_equal. lia.
Qed.

Lemma nth_segmentSubdivision P0 P1 M0 M1 s j :
  j < s ->
  nth j (segmentSubdivision P0 P1 M0 M1 s) origin
  = hermiteAt P0 P1 M0 M1 (Q_of_nat j / Q_of_nat s).
Proof.
  intros H. unfold segmentSubdivision.
  rewrite (nth_indep _ origin
             ((fun j => hermiteAt P0 P1 M0 M1 (Q_of_nat j / Q_of_nat s)) 0))
    by (now rewrite length_map, length_seq).
  change (map _ (seq 0 s))
    with (map (fun j => hermiteAt P0 P1 M0 M1 (Q_of_nat j / Q_of_nat s))
            (seq 0 s)).
  rewrite (map_nth (fun j => hermiteAt P0 P1 M0 M1 (Q_of_nat j / Q_of_nat s))).
  now rewrite seq_nth by exact H.
Qed.

Lemma length_effectivePointsOf rawPoints :
  length (effectivePointsOf rawPoints)
  = if alreadyClosed rawPoints then length rawPoints - 1 else length rawPoints.
Proof.
  unfold effectivePointsOf. destruct (alreadyClosed rawPoints); auto.
  rewrite length_firstn. lia.
Qed.

Lemma alreadyClosed_length rawPoints :
  alreadyClosed rawPoints = true -> 2 <= length rawPoints.
Proof.
  unfold alreadyClosed. intros H.
  apply andb_true_iff in H. destruct H as [H _].
  apply andb_true_iff in H. destruct H as [H _].
  apply Nat.ltb_lt in H. lia.
Qed.

(** The samples of [getSplinePoints], before the closing point is added. *)
Lemma getSplinePoints_sample rawPoints tension subdivisions i j :
  2 <= length rawPoints ->
  i < length (effectivePointsOf rawPoints) -> j < subdivisions ->
  let eff := effectivePointsOf rawPoints in
  let tangents := tangentsOf eff tension in
  nth (i * subdivisions + j) (getSplinePoints rawPoints tension subdivisions)
    origin
  = hermiteAt (nth i eff origin) (nth ((i + 1) mod length eff) eff origin)
      (nth i tangents origin) (nth ((i + 1) mod length eff) tangents origin)
      (Q_of_nat j / Q_of_nat subdivisions).
Proof.
  intros HN Hi Hj eff tangents. unfold getSplinePoints.
  destruct (length rawPoints <? 2) eqn:E; [apply Nat.ltb_lt in E; lia|].
  fold eff. fold tangents.
  set (f := fun i0 : nat =>
              segmentSubdivision (nth i0 eff origin)
                (nth (index_mod i0 1 (length eff)) eff origin)
                (nth i0 tangents origin)
                (nth (index_mod i0 1 (length eff)) tangents origin)
                subdivisions).
  assert (Hlen : forall k, length (f k) = subdivisions)
    by (intros k; unfold f; apply length_segmentSubdivision).
  assert (Hbound : i * subdivisions + j < length (flat_map f (seq 0 (length eff)))).
  { rewrite (length_flat_map_const _ f subdivisions) by exact Hlen.
    rewrite length_seq. fold eff in Hi. nia. }
  assert (Hnth : nth (i * subdivisions + j) (flat_map f (seq 0 (length eff))) origin
                 = nth j (f i) origin).
  { fold eff in Hi.
    now rewrite (nth_flat_map_const _ f subdivisions origin Hlen
                   (length eff) 0 i j Hi Hj). }
  destruct (alreadyClosed rawPoints).
  - rewrite app_nth1 by exact Hbound. rewrite Hnth. unfold f.
    rewrite nth_segmentSubdivision by exact Hj.
    fold eff in Hi. now rewrite index_mod_next by exact Hi.
  - rewrite Hnth. unfold f.
    rewrite nth_segmentSubdivision by exact Hj.
    fold eff in Hi. now rewrite index_mod_next by exact Hi.
Qed.

Lemma hermiteAt_0 P0 P1 M0 M1 t :
  (t == 0)%Q -> pointEq (hermiteAt P0 P1 M0 M1 t) P0.
Proof.
  intros Ht. unfold pointEq, hermiteAt. simpl. rewrite Ht. split; ring.
Qed.

Lemma Q_of_nat_0_div s : (Q_of_nat 0 / Q_of_nat s == 0)%Q.
Proof. unfold Q_of_nat, Qdiv. simpl. ring. Qed.

(** X15. The size of the output of [getSplinePoints].  Fewer than two
    points are returned as they are.  Otherwise an input whose last point
    repeats the first (within 0.001 on both axes) gives [subdivisions]
    samples for each of its [N - 1] distinct points and one closing point;
    any other input gives [subdivisions] samples for each of its [N] points,
    the segment from the last point back to the first included. *)
Theorem getSplinePoints_length :
  forall rawPoints tension subdivisions,
    (length rawPoints < 2 ->
       getSplinePoints rawPoints tension subdivisions = rawPoints)
    /\ (2 <= length rawPoints ->
          length (getSplinePoints rawPoints tension subdivisions)
          = if alreadyClosed rawPoints
            then (length rawPoints - 1) * subdivisions + 1
            else length rawPoints * subdivisions).
Proof.
  intros rawPoints tension subdivisions. unfold getSplinePoints. split.
  - intros H. apply Nat.ltb_lt in H. now rewrite H.
  - intros H. destruct (length rawPoints <? 2) eqn:E;
      [apply Nat.ltb_lt in E; lia|].
    pose proof (length_effectivePointsOf rawPoints) as He.
    destruct (alreadyClosed rawPoints).
    + rewrite length_app, (length_flat_map_const _ _ subdivisions).
      * rewrite length_seq, He. simpl. lia.
      * intros k. apply length_segmentSubdivision.
    + rewrite (length_flat_map_const _ _ subdivisions).
      * now rewrite length_seq, He.
      * intros k. apply length_segmentSubdivision.
Qed.

(** X16. [getSplinePoints] interpolates its control points: with at least
    one sample per segment, the first sample of segment [i] is the [i]-th
    control point (the input points, without the repeated last point of a
    closed input), up to equality of the coordinates as rationals. *)
Theorem getSplinePoints_interpolates :
  forall rawPoints tension subdivisions i,
    2 <= length rawPoints -> 1 <= subdivisions ->
    i < length (effectivePointsOf rawPoints) ->
    pointEq
      (nth (i * subdivisions) (getSplinePoints rawPoints tension subdivisions)
         origin)
      (nth i (effectivePointsOf rawPoints) origin)
    /\ nth i (effectivePointsOf rawPoints) origin = nth i rawPoints origin.
Proof.
  intros rawPoints tension subdivisions i HN Hs Hi. split.
  - pose proof (getSplinePoints_sample rawPoints tension subdivisions i 0 HN Hi
                  ltac:(lia)) as H.
    cbv zeta in H. rewrite Nat.add_0_r in H. rewrite H.
    apply hermiteAt_0. apply Q_of_nat_0_div.
  - unfold effectivePointsOf in *. destruct (alreadyClosed rawPoints); auto.
    rewrite length_firstn in Hi. rewrite nth_firstn.
    destruct (i <? length rawPoints - 1) eqn:E; auto.
    apply Nat.ltb_ge in E. lia.
Qed.

Lemma getSplinePoints_interpolates_witness :
  let rawPoints := [mkPoint 0 0; mkPoint 1 0; mkPoint 3 1] in
  pointEq (nth (2 * 4) (getSplinePoints rawPoints (1 # 2) 4) origin)
    (nth 2 (effectivePointsOf rawPoints) origin)
  /\ nth 2 (effectivePointsOf rawPoints) origin = nth 2 rawPoints origin.
Proof.
  intros rawPoints.
  apply (getSplinePoints_interpolates rawPoints (1 # 2) 4 2);
    vm_compute; lia.
Defined.

Lemma point_eta (p : Point) : mkPoint (px p) (py p) = p.
Proof. destruct p; reflexivity. Qed.

(** X17. A closed input stays closed: when the last input point repeats the
    first (within 0.001 on both axes), the output of [getSplinePoints] ends
    exactly on the first input point and, with at least one sample per
    segment, starts on it (up to equality of the coordinates as
    rationals). *)
Theorem getSplinePoints_closes :
  forall rawPoints tension subdivisions,
    alreadyClosed rawPoints = true -> 1 <= subdivisions ->
    last (getSplinePoints rawPoints tension subdivisions) origin
    = nth 0 rawPoints origin
    /\ pointEq (nth 0 (getSplinePoints rawPoints tension subdivisions) origin)
         (nth 0 rawPoints origin).
Proof.
  intros rawPoints tension subdivisions Hc Hs.
  pose proof (alreadyClosed_length rawPoints Hc) as HN.
  assert (He0 : nth 0 (effectivePointsOf rawPoints) origin
                = nth 0 rawPoints origin).
  { unfold effectivePointsOf. rewrite Hc, nth_firstn.
    destruct (0 <? length rawPoints - 1) eqn:E; auto.
    apply Nat.ltb_ge in E. lia. }
  split.
  - unfold getSplinePoints.
    destruct (length rawPoints <? 2) eqn:E; [apply Nat.ltb_lt in E; lia|].
    rewrite Hc, last_last, point_eta. exact He0.
  - assert (Hi : 0 < length (effectivePointsOf rawPoints)).
    { rewrite length_effectivePointsOf, Hc. lia. }
    pose proof (getSplinePoints_sample rawPoints tension subdivisions 0 0 HN Hi
                  ltac:(lia)) as H.
    cbv zeta in H. change (0 * subdivisions + 0) with 0 in H. rewrite H, <- He0.
    apply hermiteAt_0. apply Q_of_nat_0_div.
Qed.

Lemma getSplinePoints_closes_witness :
  let rawPoints := [mkPoint 0 0; mkPoint 4 0; mkPoint 4 3; mkPoint 0 0] in
  last (getSplinePoints rawPoints (1 # 20) 10) origin = nth 0 rawPoints origin
  /\ pointEq (nth 0 (getSplinePoints rawPoints (1 # 20) 10) origin)
       (nth 0 rawPoints origin).
Proof.
  intros rawPoints.
  apply (getSplinePoints_closes rawPoints (1 # 20) 10).
  - vm_compute. reflexivity.
  - lia.
Defined.

(** X18. With tension 1 every tangent of [getSplinePoints] is zero, and the
    samples of segment [i] are blends of its two end points alone: sample
    [j] is [h00 * P_i + h01 * P_(i+1)] in both coordinates, with the weights
    [h00 = 2 t^3 - 3 t^2 + 1] and [h01 = -2 t^3 + 3 t^2] that
    [segmentSubdivision] computes at [t = j / subdivisions]; the two tangent
    terms of the sum are zero and no other control point enters. *)
Theorem getSplinePoints_tension_one :
  forall rawPoints tension subdivisions,
    2 <= length rawPoints -> (tension == 1)%Q ->
    let eff := effectivePointsOf rawPoints in
    Forall (fun m => pointEq m origin) (tangentsOf eff tension)
    /\ forall i j,
         i < length eff -> j < subdivisions ->
         let P0 := nth i eff origin in
         let P1 := nth ((i + 1) mod length eff) eff origin in
         let t := (Q_of_nat j / Q_of_nat subdivisions)%Q in
         let t2 := (t * t)%Q in
         let t3 := (t2 * t)%Q in
         let h00 := (2 * t3 - 3 * t2 + 1)%Q in
         let h01 := (- (2) * t3 + 3 * t2)%Q in
         pointEq
           (nth (i * subdivisions + j)
              (getSplinePoints rawPoints tension subdivisions) origin)
           (mkPoint (h00 * px P0 + h01 * px P1)%Q
                    (h00 * py P0 + h01 * py P1)%Q).
Proof.
  intros rawPoints tension subdivisions HN Ht eff. split.
  - unfold tangentsOf. apply Forall_forall. intros m Hm.
    apply in_map_iff in Hm. destruct Hm as (k & <- & _).
    unfold pointEq, origin. cbn [px py]. rewrite Ht. unfold Qdiv.
    split; ring.
  - intros i j Hi Hj P0 P1 t t2 t3 h00 h01.
    pose proof (getSplinePoints_sample rawPoints tension subdivisions i j
                  HN Hi Hj) as H.
    cbv zeta in H. fold eff in H. fold P0 in H. fold P1 in H. fold t in H.
    rewrite H.
    assert (Hi1 : (i + 1) mod length eff < length eff)
      by (apply Nat.mod_upper_bound; lia).
    rewrite (tangentsOf_cyclic eff tension i Hi).
    rewrite (tangentsOf_cyclic eff tension _ Hi1).
    unfold h00, h01, t3, t2. clearbody t P0 P1.
    unfold pointEq, hermiteAt, tangentFrom. cbn [px py].
    generalize (nth ((i + length eff - 1) mod length eff) eff origin).
    generalize (nth ((i + 1) mod length eff) eff origin).
    generalize (nth (((i + 1) mod length eff + length eff - 1) mod length eff)
                  eff origin).
    generalize (nth (((i + 1) mod length eff + 1) mod length eff) eff origin).
    intros a b c e. rewrite Ht. unfold Qdiv. split; ring.
Qed.

Lemma getSplinePoints_tension_one_witness :
  let rawPoints := [mkPoint 0 0; mkPoint 1 0; mkPoint 3 1] in
  Forall (fun m => pointEq m origin) (tangentsOf rawPoints 1)
  /\ pointEq (nth (1 * 2 + 1) (getSplinePoints rawPoints 1 2) origin)
       (mkPoint 2 (1 # 2)).
Proof.
  intros rawPoints.
  destruct (getSplinePoints_tension_one rawPoints 1 2) as [H1 H2].
  - vm_compute. lia.
  - reflexivity.
  - split; [exact H1|].
    assert (A : 1 < length (effectivePointsOf rawPoints)) by (vm_compute; lia).
    assert (B : 1 < 2) by lia.
    destruct (H2 1 1 A B) as [Hx Hy].
    split; (eapply Qeq_trans; [eassumption | vm_compute; reflexivity]).
Defined.

(** ** Arc-length sampling: bounds and the end of the path *)

Section SamplingFacts.

Variable sqrt : Q -> Q.
Variable points : list Point.

(** The length of the segment that ends at index [i]. *)
Let seg (i : nat) : Q :=
  segmentLengthOf sqrt (nth (i - 1) points origin) (nth i points origin).

Let sumFrom (indices : list nat) (d : Q) : Q :=
  fold_left (fun acc i => (acc + seg i)%Q) indices d.

Lemma loop_inl_index target indices :
  forall d s,
    getPointAtDistance_loop sqrt points target indices d = inl s ->
    exists i p, In i indices /\ point s = Some p /\ segmentIndex s = i - 1.
Proof.
  induction indices as [|i rest IH]; intros d s; cbn [getPointAtDistance_loop].
  - discriminate.
  - cbv zeta. destruct (Qle_bool _ _).
    + intros [= <-]. eexists i, _. simpl. auto.
    + intros H. destruct (IH _ _ H) as (i' & p & Hin & Hp & Hs).
      exists i', p. simpl. auto.
Qed.

Lemma sumFrom_ge indices :
  (forall i, In i indices -> (0 <= seg i)%Q) ->
  forall d, (d <= sumFrom indices d)%Q.
Proof.
  unfold sumFrom. induction indices as [|i rest IH]; intros Hpos d; simpl.
  - lra.
  - assert (H1 : (0 <= seg i)%Q) by (apply Hpos; now left).
    assert (H2 : (d + seg i <= fold_left (fun acc k => (acc + seg k)%Q) rest
                                 (d + seg i))%Q).
    { apply IH. intros k Hk. apply Hpos. now right. }
    lra.
Qed.

Lemma loop_past target indices :
  (forall i, In i indices -> (0 <= seg i)%Q) ->
  forall d,
    (sumFrom indices d < target)%Q ->
    getPointAtDistance_loop sqrt points target indices d
    = inr (sumFrom indices d).
Proof.
  induction indices as [|i rest IH]; intros Hpos d Hlt;
    cbn [getPointAtDistance_loop]; [reflexivity|].
  cbv zeta. fold (segmentLengthOf sqrt (nth (i - 1) points origin)
                    (nth i points origin)). fold (seg i).
  assert (Hge : (d + seg i <= sumFrom rest (d + seg i))%Q).
  { apply sumFrom_ge. intros k Hk. apply Hpos. now right. }
  change (sumFrom (i :: rest) d) with (sumFrom rest (d + seg i)) in *.
  destruct (Qle_bool target (d + seg i)) eqn:E.
  - apply Qle_bool_iff in E. lra.
  - apply IH; auto. intros k Hk. apply Hpos. now right.
Qed.



End SamplingFacts.

(** X19. [getPointAtDistance] on an empty list returns no point (undefined)
    with index 0; on a non-empty list it always returns a point, and the
    segment index it returns is an index of the list, so that
    [pathPoints.slice(0, segmentIndex + 1)] never runs past the end. *)
Theorem getPointAtDistance_in_bounds :
  forall (sqrt : Q -> Q) (points : list Point) (targetDistance : Q)
         (isClosed : bool),
    (points = [] ->
       getPointAtDistance sqrt points targetDistance isClosed
       = mkSample None 0)
    /\ (points <> [] ->
          exists p,
            point (getPointAtDistance sqrt points targetDistance isClosed)
            = Some p
            /\ segmentIndex
                 (getPointAtDistance sqrt points targetDistance isClosed)
               < length points).
Proof.
  intros sqrt points targetDistance isClosed. split.
  - intros ->. reflexivity.
  - intros Hne. destruct points as [|p0 rest]; [congruence|].
    unfold getPointAtDistance.
    destruct ((length (p0 :: rest) <? 2) || Qle_bool targetDistance 0).
    + exists p0. simpl. split; auto. lia.
    + destruct (getPointAtDistance_loop sqrt (p0 :: rest) targetDistance
                  (seq 1 (length (p0 :: rest) - 1)) 0) as [s|d] eqn:E.
      * destruct (loop_inl_index _ _ _ _ _ _ E) as (i & p & Hin & Hp & Hs).
        exists p. split; auto. apply in_seq in Hin. simpl in *. lia.
      * cbv zeta.
        destruct (isClosed && (1 <? length (p0 :: rest))
                  && Qle_bool targetDistance _);
          eexists; (split; [reflexivity|]); simpl; lia.
Qed.

Lemma calculatePathLength_open_le sqrt points isClosed :
  (forall q, (0 <= sqrt q)%Q) -> 2 <= length points ->
  (0 <= fold_left
          (fun acc i =>
             (acc + segmentLengthOf sqrt (nth (i - 1) points origin)
                      (nth i points origin))%Q)
          (seq 1 (length points - 1)) 0
   <= calculatePathLength sqrt points isClosed)%Q.
Proof.
  intros Hsqrt HN. unfold calculatePathLength.
  destruct (length points <? 2) eqn:E; [apply Nat.ltb_lt in E; lia|].
  pose proof (sumFrom_ge sqrt points (seq 1 (length points - 1))
                (fun i _ => Hsqrt _) 0) as Hge.
  destruct (isClosed && (1 <? length points)).
  - assert (Hc : (0 <= segmentLengthOf sqrt
                         (nth (length points - 1) points origin)
                         (nth 0 points origin))%Q)
      by (unfold segmentLengthOf; apply Hsqrt).
    split; [exact Hge|]. lra.
  - split; [exact Hge|]. lra.
Qed.

(** X20. Past the end of the path: for a square root that is never
    negative, at least two points and a target distance greater than
    [calculatePathLength(points)] (the closing segment included for a closed
    curve), [getPointAtDistance] returns the last point with the last index,
    or, for a closed curve, the first point with the last index. *)
Theorem getPointAtDistance_past_end :
  forall (sqrt : Q -> Q) (points : list Point) (targetDistance : Q)
         (isClosed : bool),
    (forall q, (0 <= sqrt q)%Q) ->
    2 <= length points ->
    (calculatePathLength sqrt points isClosed < targetDistance)%Q ->
    getPointAtDistance sqrt points targetDistance isClosed
    = mkSample
        (Some (if isClosed then nth 0 points origin
               else nth (length points - 1) points origin))
        (length points - 1).
Proof.
  intros sqrt points targetDistance isClosed Hsqrt HN Hlt.
  pose proof (calculatePathLength_open_le sqrt points isClosed Hsqrt HN)
    as [H0 Hle].
  unfold getPointAtDistance.
  destruct (length points <? 2) eqn:E; [apply Nat.ltb_lt in E; lia|].
  destruct (Qle_bool targetDistance 0) eqn:E0.
  { apply Qle_bool_iff in E0. lra. }
  cbn [orb].
  rewrite (loop_past sqrt points targetDistance (seq 1 (length points - 1))
             (fun i _ => Hsqrt _) 0) by lra.
  cbv zeta.
  assert (H1 : (1 <? length points) = true) by (apply Nat.ltb_lt; lia).
  rewrite H1. destruct isClosed; cbn [andb]; [|reflexivity].
  match goal with
  | |- context [Qle_bool ?a ?b] => destruct (Qle_bool a b) eqn:Ec
  end; [|reflexivity].
  apply Qle_bool_iff in Ec. exfalso.
  unfold calculatePathLength in Hlt. rewrite E, H1 in Hlt. cbn [andb] in Hlt.
  change (sqrt _) with (segmentLengthOf sqrt
                          (nth (length points - 1) points origin)
                          (nth 0 points origin)) in Ec.
  lra.
Qed.

Lemma sqrtQ_nonneg q : (0 <= sqrtQ q)%Q.
Proof.
  unfold sqrtQ, Qle. simpl. rewrite Z.mul_1_r. apply Z.sqrt_nonneg.
Qed.

Lemma getPointAtDistance_past_end_witness :
  let points := [mkPoint 0 0; mkPoint 3 4; mkPoint 3 10] in
  getPointAtDistance sqrtQ points 12 false
  = mkSample (Some (nth (length points - 1) points origin)) (length points - 1).
Proof.
  intros points.
  apply (getPointAtDistance_past_end sqrtQ points 12 false).
  - exact sqrtQ_nonneg.
  - simpl. lia.
  - vm_compute. reflexivity.
Defined.



(** ** The state container: toggling twice, and what an action leaves alone *)

Lemma isBoundaryGridLine_setMirror g id b l b' :
  isBoundaryGridLine (setMirror g id b) (Some (line_setMirror l b'))
  = isBoundaryGridLine g (Some l).
Proof.
  unfold isBoundaryGridLine. simpl. now rewrite setMirror_rows, setMirror_cols.
Qed.

(** X22. Dispatching [TOGGLE_MIRROR] twice for the same id restores the
    grid.  For a stored line that is not on the boundary the first dispatch
    flips the line's mirror flag and clears the curves, the second flips it
    back; for a boundary line or an unknown id both dispatches leave the
    state as it is. *)
Theorem dispatch_TOGGLE_MIRROR_twice :
  forall s id,
    exists s1 s2,
      dispatch (TOGGLE_MIRROR id) s = Some s1
      /\ dispatch (TOGGLE_MIRROR id) s1 = Some s2
      /\ grid s2 = grid s
      /\ (forall l,
             getGridLine (grid s) id = Some l ->
             isBoundaryGridLine (grid s) (Some l) = false ->
             (exists l1, getGridLine (grid s1) id = Some l1
                         /\ isMirror l1 = negb (isMirror l))
             /\ curves s1 = [] /\ curves s2 = [])
      /\ (getGridLine (grid s) id = None
          \/ (exists l, getGridLine (grid s) id = Some l
                        /\ isBoundaryGridLine (grid s) (Some l) = true) ->
          s1 = s /\ s2 = s).
Proof.
  intros s id. unfold dispatch at 1.
  destruct (getGridLine (grid s) id) as [l|] eqn:El.
  2:{ exists s, s. unfold dispatch. rewrite El. splits; auto. intros l [=]. }
  destruct (isBoundaryGridLine (grid s) (Some l)) eqn:Eb; cbn [negb].
  { exists s, s. unfold dispatch. rewrite El, Eb. cbn [negb].
    splits; auto. intros l' [= <-] H. congruence. }
  set (g1 := setMirror (grid s) id (negb (isMirror l))).
  set (s1 := with_curves (with_grid s g1) []).
  assert (El1 : getGridLine (grid s1) id
                = Some (line_setMirror l (negb (isMirror l)))).
  { cbn [s1 with_curves with_grid grid]. unfold g1.
    now rewrite setMirror_get, GridLineId_eqb_refl, El. }
  assert (Eb1 : isBoundaryGridLine (grid s1)
                  (Some (line_setMirror l (negb (isMirror l)))) = false).
  { cbn [s1 with_curves with_grid grid]. unfold g1.
    now rewrite isBoundaryGridLine_setMirror. }
  eexists s1, _. split; [reflexivity|]. split.
  { unfold dispatch. rewrite El1, Eb1. cbn [negb]. reflexivity. }
  splits.
  - cbn [s1 with_curves with_grid grid line_setMirror isMirror]. unfold g1.
    rewrite setMirror_setMirror, negb_involutive.
    now apply setMirror_current.
  - intros l' [= <-] _. splits; auto.
    exists (line_setMirror l (negb (isMirror l))). split; auto.
  - intros [H|(l' & [= <-] & H)]; congruence.
Qed.

(** X23. What [dispatch] leaves alone.  Only [UPDATE_GRID] changes the
    dimensions of the grid; only [UPDATE_GRID], [RANDOM] and
    [TOGGLE_MIRROR] change a grid line; [RANDOM] and [TOGGLE_MIRROR] do not
    touch the used directions; the settings actions, an unknown action and
    [NEXT_CURVE] with a payload change neither the grid nor the curves;
    [UPDATE_GRID], [RANDOM], [RESET] and [REDRAW] always clear the
    curves. *)
Theorem dispatch_frame :
  forall a s s',
    dispatch a s = Some s' ->
    match a with
    | UPDATE_GRID r c =>
        grid s' = newGrid r c /\ curves s' = []
    | RANDOM _ =>
        rows (grid s') = rows (grid s) /\ cols (grid s') = cols (grid s)
        /\ usedDirections (grid s') = usedDirections (grid s)
        /\ JsMap.keys (gridLines (grid s')) = JsMap.keys (gridLines (grid s))
        /\ curves s' = []
    | TOGGLE_MIRROR _ =>
        rows (grid s') = rows (grid s) /\ cols (grid s') = cols (grid s)
        /\ usedDirections (grid s') = usedDirections (grid s)
        /\ JsMap.keys (gridLines (grid s')) = JsMap.keys (gridLines (grid s))
    | RESET | REDRAW =>
        rows (grid s') = rows (grid s) /\ cols (grid s') = cols (grid s)
        /\ gridLines (grid s') = gridLines (grid s)
        /\ curves s' = []
    | NEXT_CURVE None | ALL_CURVES _ =>
        rows (grid s') = rows (grid s) /\ cols (grid s') = cols (grid s)
        /\ gridLines (grid s') = gridLines (grid s)
        /\ curves s' = curves s
    | _ => grid s' = grid s /\ curves s' = curves s
    end.
Proof.
  intros a s s' H. destruct a as [r c| | | | | | | |random|[payload|]|fuel
                                  | | |id|name]; cbn [dispatch] in H;
    try (injection H as <-; cbn; auto; fail).
  - destruct (randomizeMirrors (15 # 100) random (grid s)) as [cmp g'] eqn:E.
    injection H as <-. cbn [with_curves with_grid grid curves].
    unfold randomizeMirrors in E.
    destruct (Qlt_le_dec (15 # 100) 0); [injection E as _ <-; auto|].
    destruct (Qlt_le_dec 1 (15 # 100)); [injection E as _ <-; auto|].
    injection E as _ <-.
    destruct (randomizeMirrors_fold_inv (15 # 100) random
                (JsMap.entries (gridLines (grid s))) (grid s, 0))
      as (R & C & U & K & _).
    cbn [fst] in R, C, U, K. auto.
  - destruct (findNextCurve (grid s)) as [[r g']|] eqn:E; [|discriminate].
    injection H as <-. cbn [with_grid grid curves].
    destruct (findNextCurve_sameLines _ _ _ E) as (R & C & L). auto.
  - destruct (findAllCurves fuel (grid s)) as [[r g']|] eqn:E; [|discriminate].
    injection H as <-. cbn [with_grid grid curves].
    destruct (findAllCurves_sameLines _ _ _ _ E) as (R & C & L). auto.
  - destruct (getGridLine (grid s) id) as [l|]; [|injection H as <-; auto].
    destruct (negb (isBoundaryGridLine (grid s) (Some l)));
      injection H as <-; auto.
    cbn [with_curves with_grid grid].
    rewrite setMirror_rows, setMirror_cols, setMirror_used, setMirror_keys.
    auto.
Qed.

Lemma dispatch_frame_witness :
  let s := initialState (newGrid 2 2) in
  exists s',
    dispatch (TOGGLE_MIRROR (mkId tag_h 1 0)) s = Some s'
    /\ rows (grid s') = rows (grid s) /\ cols (grid s') = cols (grid s)
    /\ usedDirections (grid s') = usedDirections (grid s)
    /\ JsMap.keys (gridLines (grid s')) = JsMap.keys (gridLines (grid s)).
Proof.
  intros s.
  destruct (dispatch (TOGGLE_MIRROR (mkId tag_h 1 0)) s) as [s'|] eqn:E.
  - exists s'. split; [reflexivity|].
    exact (dispatch_frame (TOGGLE_MIRROR (mkId tag_h 1 0)) s s' E).
  - vm_compute in E. discriminate E.
Defined.

(** ** From the enumerator to the drawn path *)

Lemma findNextCurve_scan_built fuel es :
  forall g c g',
    findNextCurve_scan fuel es g = Some (Some c, g') ->
    exists id l d g0,
      In (id, l) es /\ sameLines g g0
      /\ buildCurve fuel (newMirrorCurve l d) g0 = (Returned true, c, g').
Proof.
  induction es as [|[id l] es IH]; intros g c g'; cbn [findNextCurve_scan].
  - discriminate.
  - assert (Hrest : forall g1,
               sameLines g g1 ->
               findNextCurve_scan fuel es g1 = Some (Some c, g') ->
               exists id0 l0 d0 g0,
                 In (id0, l0) ((id, l) :: es) /\ sameLines g g0
                 /\ buildCurve fuel (newMirrorCurve l0 d0) g0
                    = (Returned true, c, g')).
    { intros g1 Hs H. destruct (IH _ _ _ H) as (id0 & l0 & d0 & g0 & Hin & Hs0 & Hb).
      exists id0, l0, d0, g0. splits; auto.
      - now right.
      - eapply sameLines_trans; eauto. }
    destruct (getUnusedDirections g id) as [|d ds].
    + apply Hrest, sameLines_refl.
    + destruct (buildCurve fuel (newMirrorCurve l d) g) as [[out c1] g1] eqn:Eb.
      pose proof (buildCurve_sameLines _ _ _ _ _ _ Eb) as Hs1.
      destruct out as [[|]| |].
      * intros [= <- <-]. exists id, l, d, g. splits; auto.
        -- now left.
        -- apply sameLines_refl.
      * now apply Hrest.
      * now apply Hrest.
      * discriminate.
Qed.

Lemma nth_error_last (A : Type) (l : list A) (d : A) :
  l <> [] -> nth_error l (length l - 1) = Some (last l d).
Proof.
  induction l as [|a l IH]; [congruence|]. intros _.
  destruct l as [|b t]; [reflexivity|].
  replace (length (a :: b :: t) - 1) with (S (length (b :: t) - 1))
    by (simpl; lia).
  change (last (a :: b :: t) d) with (last (b :: t) d).
  cbn [nth_error]. apply IH. discriminate.
Qed.

Lemma nth_last (A : Type) (l : list A) (d : A) :
  nth (length l - 1) l d = last l d.
Proof.
  destruct l as [|a l]; [reflexivity|].
  apply nth_error_nth, nth_error_last. discriminate.
Qed.

Lemma last_map' (A B : Type) (f : A -> B) (l : list A) (d : A) :
  last (map f l) (f d) = f (last l d).
Proof.
  induction l as [|a l IH]; [reflexivity|].
  destruct l as [|b t]; [reflexivity|]. exact IH.
Qed.

Lemma last_nonempty_indep (A : Type) (l : list A) (d d' : A) :
  l <> [] -> last l d = last l d'.
Proof.
  induction l as [|a l IH]; [congruence|]. intros _.
  destruct l as [|b t]; [reflexivity|]. apply IH. discriminate.
Qed.

Lemma last_seq n : 1 <= n -> last (seq 0 n) 0 = n - 1.
Proof.
  intros H. destruct n as [|n]; [lia|].
  rewrite seq_S, last_last. lia.
Qed.

(** A closed curve ends on the line object and direction it started from. *)
Lemma closed_last_is_first g0 l d c g1 :
  GridShape g0 -> getGridLine g0 (line_id l) = Some l ->
  BuildPost g0 l d c g1 -> isClosed c = true ->
  last (curve_gridLines c) l = l /\ last (curve_directions c) d = d
  /\ 2 < length (curve_gridLines c)
  /\ length (curve_directions c) = length (curve_gridLines c)
  /\ hd_error (curve_gridLines c) = Some l
  /\ hd_error (curve_directions c) = Some d.
Proof.
  intros Hs Hl [_ Hlen Hhd Hchain _ _ _ Hclosed _] Hc.
  destruct (Hclosed Hc) as (_ & _ & _ & Hn & Hid & Hd).
  unfold segmentsOf in *. rewrite (last_combine _ _ _ _ l d Hlen) in Hid, Hd.
  cbn [fst snd] in Hid, Hd.
  destruct (segmentsOf_hd c l d Hhd) as (Hl0 & Hd0).
  splits; auto.
  set (segs := combine (curve_gridLines c) (curve_directions c)) in *.
  assert (Hsl : length segs = length (curve_gridLines c)).
  { unfold segs. rewrite length_combine, Hlen. lia. }
  assert (Hlast : nth_error segs (S (length segs - 2))
                  = Some (last (curve_gridLines c) l, last (curve_directions c) d)).
  { replace (S (length segs - 2)) with (length segs - 1) by lia.
    rewrite (nth_error_last _ segs (l, d)).
    - unfold segs. now rewrite (last_combine _ _ _ _ l d Hlen).
    - intros E. rewrite E in Hsl. simpl in Hsl. lia. }
  destruct (nth_error segs (length segs - 2)) as [a|] eqn:Ea.
  2:{ apply nth_error_None in Ea. lia. }
  destruct (chain_nth _ _ _ Hchain _ _ _ Ea Hlast) as (k & _ & Hk & _).
  cbn [fst] in Hk.
  destruct (shape_lines g0 Hs k _ Hk) as (Hidk & _).
  rewrite <- Hidk, Hid, Hl in Hk. congruence.
Qed.

Lemma Qabs_diff_self_small (x : Q) : (Qabs (x - x) < 1 # 1000)%Q.
Proof.
  assert (H : (x - x == 0)%Q) by ring. rewrite H. reflexivity.
Qed.

Lemma alreadyClosed_same_ends (pts : list Point) :
  2 <= length pts -> last pts origin = nth 0 pts origin ->
  alreadyClosed pts = true.
Proof.
  intros HN Hlast. unfold alreadyClosed. rewrite nth_last, Hlast.
  assert (H1 : (1 <? length pts) = true) by (apply Nat.ltb_lt; lia).
  rewrite H1. cbn [andb].
  destruct (Qlt_le_dec (Qabs (px (nth 0 pts origin) - px (nth 0 pts origin)))
              (1 # 1000)) as [_|H].
  2:{ pose proof (Qabs_diff_self_small (px (nth 0 pts origin))). lra. }
  destruct (Qlt_le_dec (Qabs (py (nth 0 pts origin) - py (nth 0 pts origin)))
              (1 # 1000)) as [_|H]; auto.
  pose proof (Qabs_diff_self_small (py (nth 0 pts origin))). lra.
Qed.

Lemma length_calculateCurvedPoints c cellW cellH :
  length (calculateCurvedPoints c cellW cellH) = length (curve_gridLines c).
Proof.
  unfold calculateCurvedPoints.
  destruct (length (curve_gridLines c) =? 0) eqn:E.
  - apply Nat.eqb_eq in E. now rewrite E.
  - rewrite length_map, length_combine, length_seq. lia.
Qed.

Lemma calculateCurvedPoints_ends c cellW cellH l d :
  hd_error (curve_gridLines c) = Some l ->
  hd_error (curve_directions c) = Some d ->
  length (curve_directions c) = length (curve_gridLines c) ->
  nth 0 (calculateCurvedPoints c cellW cellH) origin
  = helperPointOf (Qmin cellW cellH / 8) l (Some d) cellW cellH
  /\ last (calculateCurvedPoints c cellW cellH) origin
     = helperPointOf (Qmin cellW cellH / 8) (last (curve_gridLines c) l)
         (Some (last (curve_directions c) d)) cellW cellH.
Proof.
  intros Hl Hd Hlen. unfold calculateCurvedPoints.
  destruct (curve_gridLines c) as [|l0 ls] eqn:El; [discriminate|].
  destruct (curve_directions c) as [|d0 ds] eqn:Ed; [discriminate|].
  injection Hl as ->. injection Hd as ->.
  change (length (l :: ls) =? 0) with false. cbv iota. split.
  - reflexivity.
  - set (f := fun il : nat * GridLine =>
                helperPointOf (Qmin cellW cellH / 8) (snd il)
                  (nth_error (d :: ds) (fst il)) cellW cellH).
    rewrite (last_nonempty_indep _ _ origin (f (0, l)))
      by (simpl; discriminate).
    rewrite (last_map' _ _ f).
    rewrite (last_combine _ _ _ _ 0 l) by (now rewrite length_seq).
    rewrite last_seq by (simpl; lia).
    unfold f. cbn [fst snd]. f_equal.
    rewrite <- Hlen. apply nth_error_last. discriminate.
Qed.

Lemma calculatePathPoints_styles c cellW cellH :
  curve_gridLines c <> [] ->
  calculatePathPoints c cellW cellH "curved"
  = getSplinePoints (calculateCurvedPoints c cellW cellH) (5 # 100) 10
  /\ calculatePathPoints c cellW cellH "jagged"
     = map (fun line => midpointOf line cellW cellH) (curve_gridLines c).
Proof.
  intros H. unfold calculatePathPoints.
  destruct (curve_gridLines c) as [|l ls]; [congruence|].
  split; reflexivity.
Qed.

(** X24. The path drawn for a closed curve closes.  For a closed curve
    returned by [findNextCurve] on a grid as constructed (with any interior
    mirrors and any marks) and any cell size: [calculateCurvedPoints] gives
    one helper point per entry of the curve, the last equal to the first,
    so that [getSplinePoints] treats the path as closed; the curved path of
    [calculatePathPoints] has 10 samples for each entry but the last and one
    closing point, ends exactly on the first helper point and starts on it;
    and the jagged path, one midpoint per entry, ends on its first point. *)
Theorem closed_curve_path_closes :
  forall nrows ncols g c g' (cellW cellH : Q),
    InteriorConfig nrows ncols g ->
    findNextCurve g = Some (Some c, g') ->
    isClosed c = true ->
    let helpers := calculateCurvedPoints c cellW cellH in
    let curved := calculatePathPoints c cellW cellH "curved" in
    let jagged := calculatePathPoints c cellW cellH "jagged" in
    length helpers = length (curve_gridLines c)
    /\ last helpers origin = nth 0 helpers origin
    /\ alreadyClosed helpers = true
    /\ length curved = (length (curve_gridLines c) - 1) * 10 + 1
    /\ last curved origin = nth 0 helpers origin
    /\ pointEq (nth 0 curved origin) (nth 0 helpers origin)
    /\ length jagged = length (curve_gridLines c)
    /\ last jagged origin = nth 0 jagged origin.
Proof.
  intros nrows ncols g c g' cellW cellH Hcfg Hfind Hclosed helpers curved jagged.
  destruct (InteriorConfig_inv nrows ncols g Hcfg) as (R & C & Hs & Hb & Hu).
  destruct (findNextCurve_scan_built _ _ _ _ _ Hfind)
    as (id & l & d & g0 & Hin & Hsame & Hbuild).
  assert (Hs0 : GridShape g0) by (eapply sameLines_shape; eauto).
  assert (Hl : getGridLine g0 (line_id l) = Some l).
  { pose proof (GridShape_entry g id l Hs Hin) as Hl.
    destruct (shape_lines g Hs id l Hl) as (Hid & _).
    now rewrite (sameLines_get g g0 _ Hsame), Hid. }
  destruct (closed_last_is_first g0 l d c g' Hs0 Hl
              (buildCurve_post _ _ _ _ _ _ _ Hbuild) Hclosed)
    as (Hll & Hld & Hn & Hlen & Hhl & Hhd).
  destruct (calculateCurvedPoints_ends c cellW cellH l d Hhl Hhd Hlen)
    as (Hfirst & Hlast).
  rewrite Hll, Hld, <- Hfirst in Hlast. fold helpers in Hfirst, Hlast.
  assert (Hhlen : length helpers = length (curve_gridLines c))
    by apply length_calculateCurvedPoints.
  assert (Hac : alreadyClosed helpers = true).
  { apply alreadyClosed_same_ends; [lia | exact Hlast]. }
  assert (Hne : curve_gridLines c <> []).
  { intros E. rewrite E in Hn. simpl in Hn. lia. }
  destruct (calculatePathPoints_styles c cellW cellH Hne) as (Hcurved & Hjagged).
  fold curved in Hcurved. fold jagged in Hjagged. fold helpers in Hcurved.
  assert (He0 : nth 0 (effectivePointsOf helpers) origin = nth 0 helpers origin).
  { unfold effectivePointsOf. rewrite Hac, nth_firstn.
    destruct (0 <? length helpers - 1) eqn:E; auto.
    apply Nat.ltb_ge in E. lia. }
  splits; auto.
  - rewrite Hcurved. unfold getSplinePoints.
    destruct (length helpers <? 2) eqn:E; [apply Nat.ltb_lt in E; lia|].
    rewrite Hac, length_app, (length_flat_map_const _ _ 10).
    + rewrite length_seq, length_effectivePointsOf, Hac, Hhlen. simpl. lia.
    + intros k. apply length_segmentSubdivision.
  - rewrite Hcurved. unfold getSplinePoints.
    destruct (length helpers <? 2) eqn:E; [apply Nat.ltb_lt in E; lia|].
    rewrite Hac, last_last, point_eta. exact He0.
  - rewrite Hcurved.
    assert (Hi : 0 < length (effectivePointsOf helpers)).
    { rewrite length_effectivePointsOf, Hac. lia. }
    pose proof (getSplinePoints_sample helpers (5 # 100) 10 0 0
                  ltac:(lia) Hi ltac:(lia)) as H.
    cbv zeta in H. change (0 * 10 + 0) with 0 in H. rewrite H, <- He0.
    apply hermiteAt_0. apply Q_of_nat_0_div.
  - rewrite Hjagged. apply length_map.
  - rewrite Hjagged.
    rewrite (last_nonempty_indep _ _ origin (midpointOf l cellW cellH)).
    2:{ destruct (curve_gridLines c); [congruence | discriminate]. }
    rewrite (last_map' _ _ (fun line => midpointOf line cellW cellH)), Hll.
    destruct (curve_gridLines c) as [|l0 ls]; [congruence|].
    simpl in Hhl. injection Hhl as ->. reflexivity.
Qed.

Lemma closed_curve_path_closes_witness :
  let g := newGrid 1 1 in
  exists c g',
    findNextCurve g = Some (Some c, g')
    /\ isClosed c = true
    /\ let helpers := calculateCurvedPoints c 40 40 in
       let curved := calculatePathPoints c 40 40 "curved" in
       let jagged := calculatePathPoints c 40 40 "jagged" in
       length helpers = length (curve_gridLines c)
       /\ last helpers origin = nth 0 helpers origin
       /\ alreadyClosed helpers = true
       /\ length curved = (length (curve_gridLines c) - 1) * 10 + 1
       /\ last curved origin = nth 0 helpers origin
       /\ pointEq (nth 0 curved origin) (nth 0 helpers origin)
       /\ length jagged = length (curve_gridLines c)
       /\ last jagged origin = nth 0 jagged origin.
Proof.
  intros g.
  assert (E : exists c g',
             findNextCurve g = Some (Some c, g') /\ isClosed c = true).
  { vm_compute. eexists. eexists. split; reflexivity. }
  destruct E as (c & g' & E & Hc).
  exists c, g'. split; [exact E|]. split; [exact Hc|].
  exact (closed_curve_path_closes 1 1 g c g' 40 40 (config_new 1 1) E Hc).
Defined.

(** ** Counting the curves *)

Lemma list_prod_flat_map (A B : Type) (l : list A) (l' : list B) :
  list_prod l l' = flat_map (fun a => map (fun b => (a, b)) l') l.
Proof. induction l as [|a l IH]; simpl; congruence. Qed.

Lemma NoDup_allStates nrows ncols : NoDup (allStates nrows ncols).
Proof.
  unfold allStates. rewrite list_prod_flat_map.
  apply NoDup_flat_map_disjoint.
  - apply NoDup_allIds.
  - intros a _. apply Finite.Injective_map_NoDup.
    + intros x y [=]; auto.
    + repeat constructor; simpl; intuition discriminate.
  - intros a a' b _ _ H1 H2. apply in_map_iff in H1, H2.
    destruct H1 as (x & <- & _), H2 as (y & [=] & _). auto.
Qed.

Lemma length_filter_list_prod (A B : Type) (p : A * B -> bool)
  (l : list A) (l' : list B) :
  length (filter p (list_prod l l'))
  = list_sum (map (fun a => length (filter (fun b => p (a, b)) l')) l).
Proof.
  induction l as [|a l IH]; simpl; auto.
  now rewrite filter_app, length_app, length_filter_map, IH.
Qed.

Lemma unseeded_per_line nrows ncols id :
  1 <= nrows -> 1 <= ncols -> validId nrows ncols id ->
  length (filter (fun d => negb (seededb nrows ncols id d)) allDirections)
  = if boundaryId nrows ncols id then 2 else 4.
Proof.
  intros Hr Hc Hv. unfold validId in Hv.
  unfold seededb, boundaryId, allDirections.
  destruct (idTag id); simpl.
  - destruct (idRow id =? 0) eqn:E0; simpl; auto.
    destruct (idRow id =? nrows) eqn:E1; simpl; auto.
  - destruct (idCol id =? 0) eqn:E0; simpl; auto.
    destruct (idCol id =? ncols) eqn:E1; simpl; auto.
Qed.

Lemma length_boundary_ids nrows ncols :
  1 <= nrows -> 1 <= ncols ->
  length (filter (boundaryId nrows ncols) (allIds nrows ncols))
  = 2 * nrows + 2 * ncols.
Proof.
  intros Hr Hc.
  assert (Hperm : Permutation
                    (filter (boundaryId nrows ncols) (allIds nrows ncols))
                    (boundaryVisits nrows ncols)).
  { apply NoDup_Permutation.
    - apply NoDup_filter, NoDup_allIds.
    - now apply NoDup_boundaryVisits.
    - intros id. rewrite filter_In, in_allIds. split.
      + intros [Hv Hb]. now apply in_boundaryVisits.
      + intros H. pose proof (boundaryVisits_valid _ _ _ Hr Hc H) as Hv.
        split; auto. now apply in_boundaryVisits. }
  rewrite (Permutation_length Hperm). unfold boundaryVisits.
  rewrite !length_app, !length_map, !length_seq. lia.
Qed.

Lemma list_sum_two_four (A : Type) (b : A -> bool) (l : list A) :
  list_sum (map (fun x => if b x then 2 else 4) l) + 2 * length (filter b l)
  = 4 * length l.
Proof.
  induction l as [|a l IH]; simpl; auto.
  destruct (b a); simpl; lia.
Qed.

(** The (line, direction) pairs that are not pre-seeded: eight per cell. *)
Lemma length_unseeded nrows ncols :
  1 <= nrows -> 1 <= ncols ->
  length (filter (fun x => negb (seededb nrows ncols (fst x) (snd x)))
            (allStates nrows ncols))
  = 8 * nrows * ncols.
Proof.
  intros Hr Hc. unfold allStates.
  rewrite (length_filter_list_prod _ _
             (fun x => negb (seededb nrows ncols (fst x) (snd x)))).
  cbn [fst snd].
  rewrite (map_ext_in _ (fun id => if boundaryId nrows ncols id then 2 else 4)).
  2:{ intros id Hin. apply in_allIds in Hin. now apply unseeded_per_line. }
  pose proof (list_sum_two_four _ (boundaryId nrows ncols) (allIds nrows ncols))
    as H.
  rewrite length_boundary_ids, length_allIds in H by assumption. nia.
Qed.

Lemma length_reverseSidesOf steps :
  length (reverseSidesOf steps) = length steps - 1.
Proof.
  induction steps as [|s rest IH]; [reflexivity|].
  destruct rest as [|s1 rest]; [reflexivity|].
  rewrite reverseSidesOf_cons2. cbn [length]. unfold TraceState in *.
  rewrite IH. simpl. lia.
Qed.

Lemma length_marksOf c :
  length (marksOf c) = 2 * (length (stepsOf c) - 1).
Proof.
  unfold marksOf. rewrite length_app, length_reverseSidesOf.
  unfold TraceState. destruct (stepsOf c); cbn [tl length]; lia.
Qed.

Lemma InteriorConfig_markTwice nrows ncols g id d1 d2 :
  InteriorConfig nrows ncols g ->
  InteriorConfig nrows ncols
    (markDirectionUsed (markDirectionUsed g id d1) id d2).
Proof. intros H. now repeat apply config_mark. Qed.

Lemma InteriorConfig_loop nrows ncols fuel :
  forall g c l d out c' g',
    InteriorConfig nrows ncols g ->
    buildCurve_loop fuel g c l d = (out, c', g') ->
    InteriorConfig nrows ncols g'.
Proof.
  induction fuel as [|fuel IH]; intros g c l d out c' g' Hcfg;
    cbn [buildCurve_loop].
  - destruct (negb _); intros [= <- <- <-]; auto.
  - destruct (negb _); [intros [= <- <- <-]; auto|].
    unfold buildCurve_body.
    destruct (getAdjacentGridLine g (line_id l) d) as [[k|]|];
      try (intros [= <- <- <-]; auto; fail).
    destruct (getGridLine g k) as [l'|]; [|intros [= <- <- <-]; auto].
    match goal with
    | |- context [if ?b then _ else _] => destruct b
    end.
    + intros [= <- <- <-]. now apply InteriorConfig_markTwice.
    + apply IH. now apply InteriorConfig_markTwice.
Qed.

Lemma InteriorConfig_buildCurve nrows ncols fuel l d g out c' g' :
  InteriorConfig nrows ncols g ->
  buildCurve fuel (newMirrorCurve l d) g = (out, c', g') ->
  InteriorConfig nrows ncols g'.
Proof.
  intros Hcfg. unfold buildCurve.
  cbn [newMirrorCurve curve_gridLines curve_directions].
  apply InteriorConfig_loop. now apply config_mark.
Qed.

Lemma configured_loop nrows ncols :
  1 <= nrows -> 1 <= ncols ->
  (N.of_nat (4 * length (allIds nrows ncols)) < MAX_SEGMENTS)%N ->
  forall fuel g found curves g',
    InteriorConfig nrows ncols g -> Forall wellSized found ->
    findAllCurves_loop fuel g found = Some (curves, g') ->
    Forall wellSized curves.
Proof.
  intros Hr Hc Hsmall.
  induction fuel as [|fuel IH]; intros g found curves g' Hcfg Hfound;
    cbn [findAllCurves_loop]; [discriminate|].
  destruct (InteriorConfig_inv nrows ncols g Hcfg) as (R & C & Hs & Hb & Hu).
  assert (Hes : forall e, In e (JsMap.entries (gridLines g)) ->
                          getGridLine g (fst e) = Some (snd e)).
  { intros [id l] Hin. now apply GridShape_entry. }
  unfold findNextCurve.
  destruct (configured_scan nrows ncols g Hr Hc Hcfg Hsmall _ Hes)
    as [[Hscan _]|(id & l & d & ds & c & g1 & _ & _ & Hscan & Hbuild & _ & _
                   & _ & Hsize)]; rewrite Hscan.
  - intros [= <- <-]. exact Hfound.
  - apply IH.
    + eapply InteriorConfig_buildCurve; eauto.
    + apply Forall_app. split; auto.
Qed.

Lemma findAllCurves_enum nrows ncols g fuel :
  1 <= nrows -> 1 <= ncols ->
  InteriorConfig nrows ncols g ->
  (N.of_nat (4 * length (allIds nrows ncols)) < MAX_SEGMENTS)%N ->
  4 * length (allIds nrows ncols) < fuel ->
  exists curves g',
    findAllCurves fuel g = Some (curves, g')
    /\ Enum nrows ncols (resetUsedDirections g) g' curves
    /\ forall x, validId nrows ncols (fst x) -> usedState g' x = true.
Proof.
  intros Hrows Hcols Hcfg Hsmall Hfuel.
  destruct (InteriorConfig_inv nrows ncols g Hcfg) as (R & C & Hs & Hb & Hu).
  set (G := resetUsedDirections g).
  assert (HG : sameLines g G) by apply initializeUsedDirections_sameLines.
  destruct HG as (RG & CG & LG).
  assert (G_rows : rows G = nrows) by congruence.
  assert (G_cols : cols G = ncols) by congruence.
  assert (G_shape : GridShape G).
  { eapply sameLines_shape; [|exact Hs]. unfold sameLines; auto. }
  assert (G_boundary : BoundaryMirrors G).
  { eapply sameLines_boundary; [|exact Hb]. unfold sameLines; auto. }
  assert (G_used : UsedShape G).
  { apply initializeUsedDirections_keys; auto. }
  assert (Hseed : forall id d,
             validId nrows ncols id ->
             isDirectionUsed G id d = seededb nrows ncols id d).
  { intros id d Hv. destruct (valid_getGridLine g id Hs) as [l Hl].
    { now rewrite R, C. }
    unfold G, resetUsedDirections.
    rewrite (initializeUsedDirections_used g id l d Hs Hl). now rewrite R, C. }
  assert (He : Enum nrows ncols G G []).
  { constructor.
    - apply sameLines_refl.
    - exact G_used.
    - constructor.
    - intros x Hv. unfold usedState. rewrite (Hseed _ _ Hv). simpl. tauto.
    - intros x [].
    - intros x [].
    - intros x [].
    - constructor. }
  assert (Hcount : unusedCount nrows ncols G < fuel).
  { unfold unusedCount.
    pose proof (filter_length_le TraceState (fun _ => true)
                  (fun x => negb (usedState G x)) (allStates nrows ncols)
                  (fun _ _ => eq_refl)) as Hle.
    assert (Hall : filter (fun _ : TraceState => true) (allStates nrows ncols)
                   = allStates nrows ncols).
    { apply forallb_filter_id. apply forallb_forall. auto. }
    rewrite Hall, length_allStates in Hle by assumption. lia. }
  destruct (enum_loop nrows ncols Hrows Hcols G G_rows G_cols G_shape
              G_boundary Hsmall fuel G [] He Hcount)
    as (curves & g' & Hloop & He' & Hall).
  exists curves, g'. splits; auto.
Qed.

Lemma list_sum_double (A : Type) (f : A -> nat) (l : list A) :
  list_sum (map (fun x => 2 * f x) l) = 2 * list_sum (map f l).
Proof.
  induction l as [|a l IH]; [reflexivity|].
  change (list_sum (map (fun x => 2 * f x) (a :: l)))
    with (2 * f a + list_sum (map (fun x => 2 * f x) l)).
  change (list_sum (map f (a :: l))) with (f a + list_sum (map f l)).
  rewrite IH. lia.
Qed.

Lemma list_sum_at_least (A : Type) (f : A -> nat) (k : nat) (l : list A) :
  Forall (fun x => k <= f x) l -> k * length l <= list_sum (map f l).
Proof.
  induction 1 as [|a l Ha Hl IH]; [simpl; lia|].
  change (list_sum (map f (a :: l))) with (f a + list_sum (map f l)).
  cbn [length]. nia.
Qed.

(** X25. The number and the total size of the curves.  On a grid with
    [rows >= 1] and [cols >= 1] small enough for the cap, with any interior
    mirrors, [findAllCurves] returns curves with at least four segments
    each (five entries, the last repeating the first), whose segments add
    up to exactly [4 * rows * cols]: four per cell, however the mirrors are
    placed.  So there are at most [rows * cols] curves, and at least one. *)
Theorem findAllCurves_count :
  forall nrows ncols g,
    1 <= nrows -> 1 <= ncols ->
    InteriorConfig nrows ncols g ->
    (N.of_nat (4 * ((nrows + 1) * ncols + nrows * (ncols + 1)))
     < MAX_SEGMENTS)%N ->
    forall fuel,
      4 * ((nrows + 1) * ncols + nrows * (ncols + 1)) < fuel ->
      exists curves g',
        findAllCurves fuel g = Some (curves, g')
        /\ Forall (fun c => 5 <= length (curve_gridLines c)) curves
        /\ list_sum (map (fun c => length (curve_gridLines c) - 1) curves)
           = 4 * nrows * ncols
        /\ 1 <= length curves <= nrows * ncols.
Proof.
  intros nrows ncols g Hr Hc Hcfg Hsmall fuel Hfuel.
  rewrite <- length_allIds in Hsmall, Hfuel.
  destruct (findAllCurves_enum nrows ncols g fuel Hr Hc Hcfg Hsmall Hfuel)
    as (curves & g' & Hall & He & Hused).
  assert (Hsz : Forall wellSized curves).
  { unfold findAllCurves in Hall.
    apply (configured_loop nrows ncols Hr Hc Hsmall fuel
             (resetUsedDirections g) [] curves g'); auto.
    now apply config_reset. }
  set (marks := flat_map marksOf curves).
  set (unseeded := filter (fun x => negb (seededb nrows ncols (fst x) (snd x)))
                     (allStates nrows ncols)).
  assert (Hperm : Permutation marks unseeded).
  { apply NoDup_Permutation.
    - apply (enum_nodup _ _ _ _ _ He).
    - apply NoDup_filter, NoDup_allStates.
    - intros x. unfold unseeded. rewrite filter_In, negb_true_iff. split.
      + intros Hin. destruct (enum_inU _ _ _ _ _ He x Hin) as [Hv Hs].
        split; auto. destruct x as [id d]. apply in_prod.
        * now apply in_allIds.
        * destruct d; simpl; auto.
      + intros [Hin Hs]. destruct x as [id d]. apply in_prod_iff in Hin.
        destruct Hin as [Hin _]. apply in_allIds in Hin.
        pose proof (Hused (id, d) Hin) as Hu.
        apply (enum_used _ _ _ _ _ He (id, d) Hin) in Hu.
        cbn [fst snd] in *. destruct Hu as [Hu|Hu]; [congruence | exact Hu]. }
  pose proof (Permutation_length Hperm) as Hlen.
  unfold unseeded in Hlen. rewrite length_unseeded in Hlen by assumption.
  unfold marks in Hlen. rewrite length_flat_map in Hlen.
  assert (Hmarks : map (fun c => length (marksOf c)) curves
                   = map (fun c => 2 * (length (curve_gridLines c) - 1)) curves).
  { apply map_ext_in. intros c Hin. rewrite length_marksOf.
    rewrite Forall_forall in Hsz. destruct (Hsz c Hin) as [_ Hl].
    now rewrite (length_stepsOf c Hl). }
  rewrite Hmarks, list_sum_double in Hlen.
  assert (Hfour : Forall (fun c => 4 <= length (curve_gridLines c) - 1) curves).
  { eapply Forall_impl; [|exact Hsz]. intros c [H5 _]. lia. }
  pose proof (list_sum_at_least _ _ 4 curves Hfour) as Hge.
  exists curves, g'. splits; auto.
  - eapply Forall_impl; [|exact Hsz]. intros c [H5 _]. exact H5.
  - lia.
  - destruct curves; simpl in *; nia.
  - nia.
Qed.

Lemma findAllCurves_count_witness :
  let g := setMirror (newGrid 2 2) (mkId tag_h 1 0) true in
  exists curves g',
    findAllCurves 49 g = Some (curves, g')
    /\ Forall (fun c => 5 <= length (curve_gridLines c)) curves
    /\ list_sum (map (fun c => length (curve_gridLines c) - 1) curves)
       = 4 * 2 * 2
    /\ 1 <= length curves <= 2 * 2.
Proof.
  intros g.
  apply (findAllCurves_count 2 2 g).
  - lia.
  - lia.
  - apply config_setMirror; [apply config_new | reflexivity].
  - vm_compute. reflexivity.
  - vm_compute. lia.
Defined.

(** ** What [randomizeMirrors] does to each line *)

Lemma randomizeMirrors_step_boundary p random g k id l :
  randomizeMirrors_step p random (g, k) (id, l)
  = if boundaryId (rows g) (cols g) id then (g, k)
    else if Qlt_le_dec (random k) p
         then (setMirror g id (negb (isMirror l)), S k)
         else (g, S k).
Proof.
  unfold randomizeMirrors_step, parseGridLineId, boundaryId. cbn [fst snd].
  destruct (idTag id); cbn [IdTag_eqb andb orb]; rewrite ?orb_false_r;
    reflexivity.
Qed.

Lemma randomizeMirrors_fold_flags p random :
  forall es g k,
    NoDup (JsMap.keys es) ->
    (forall e, In e es -> getGridLine g (fst e) = Some (snd e)) ->
    forall id,
      getGridLine
        (fst (fold_left (randomizeMirrors_step p random) es (g, k))) id
      = match JsMap.get GridLineId_eqb es id with
        | Some l =>
            Some (line_setMirror l
                    (randomizedFlag (rows g) (cols g) p
                       (random (k + drawsBefore (rows g) (cols g)
                                      (JsMap.keys es) id))
                       id (isMirror l)))
        | None => getGridLine g id
        end.
Proof.
  induction es as [|[id0 l0] es IH]; intros g k Hnd Hes id.
  - reflexivity.
  - cbn [fold_left]. rewrite randomizeMirrors_step_boundary.
    inversion Hnd as [|? ? Hnotin Hnd']; subst.
    change (JsMap.keys ((id0, l0) :: es)) with (id0 :: JsMap.keys es).
    cbn [JsMap.get drawsBefore].
    assert (Hrest : forall g1,
               rows g1 = rows g -> cols g1 = cols g ->
               (forall id', id' <> id0 -> getGridLine g1 id' = getGridLine g id') ->
               forall e, In e es -> getGridLine g1 (fst e) = Some (snd e)).
    { intros g1 _ _ Hg1 e He. rewrite Hg1; [apply Hes; now right|].
      intros E. apply Hnotin. rewrite <- E. now apply in_map. }
    assert (Hnone : GridLineId_eqb id id0 = true ->
                    JsMap.get GridLineId_eqb es id = None).
    { intros E. apply GridLineId_eqb_eq in E. subst.
      now apply (get_None_notin GridLineId_eqb_eq). }
    assert (Hl0 : getGridLine g id0 = Some l0) by (apply (Hes (id0, l0)); now left).
    destruct (boundaryId (rows g) (cols g) id0) eqn:Eb.
    + rewrite (IH g k Hnd' (Hrest g eq_refl eq_refl (fun _ _ => eq_refl)) id).
      destruct (GridLineId_eqb id id0) eqn:E.
      * rewrite (Hnone eq_refl). apply GridLineId_eqb_eq in E. subst id.
        unfold randomizedFlag. rewrite Eb, line_setMirror_same. exact Hl0.
      * assert (E' : GridLineId_eqb id0 id = false).
        { apply GridLineId_eqb_neq. apply GridLineId_eqb_neq in E. congruence. }
        rewrite E'. reflexivity.
    + destruct (Qlt_le_dec (random k) p) as [Hlt|Hge].
      * set (g1 := setMirror g id0 (negb (isMirror l0))).
        assert (R1 : rows g1 = rows g) by apply setMirror_rows.
        assert (C1 : cols g1 = cols g) by apply setMirror_cols.
        rewrite (IH g1 (S k) Hnd').
        2:{ apply (Hrest g1 R1 C1). intros id' Hne. unfold g1.
            rewrite setMirror_get.
            apply GridLineId_eqb_neq in Hne. now rewrite Hne. }
        rewrite R1, C1.
        destruct (GridLineId_eqb id id0) eqn:E.
        -- rewrite (Hnone eq_refl). apply GridLineId_eqb_eq in E. subst id.
           rewrite GridLineId_eqb_refl, Nat.add_0_r.
           unfold g1. rewrite setMirror_get, GridLineId_eqb_refl, Hl0.
           unfold randomizedFlag. rewrite Eb.
           destruct (Qlt_le_dec (random k) p); [reflexivity|lra].
        -- assert (E' : GridLineId_eqb id0 id = false).
           { apply GridLineId_eqb_neq. apply GridLineId_eqb_neq in E.
             congruence. }
           rewrite E'.
           replace (S k + drawsBefore (rows g) (cols g) (JsMap.keys es) id)
             with (k + (1 + drawsBefore (rows g) (cols g) (JsMap.keys es) id))
             by lia.
           destruct (JsMap.get GridLineId_eqb es id); auto.
           unfold g1. rewrite setMirror_get, E. reflexivity.
      * rewrite (IH g (S k) Hnd' (Hrest g eq_refl eq_refl (fun _ _ => eq_refl)) id).
        destruct (GridLineId_eqb id id0) eqn:E.
        -- rewrite (Hnone eq_refl). apply GridLineId_eqb_eq in E. subst id.
           rewrite GridLineId_eqb_refl, Nat.add_0_r.
           unfold randomizedFlag. rewrite Eb.
           destruct (Qlt_le_dec (random k) p); [lra|].
           rewrite line_setMirror_same. exact Hl0.
        -- assert (E' : GridLineId_eqb id0 id = false).
           { apply GridLineId_eqb_neq. apply GridLineId_eqb_neq in E.
             congruence. }
           rewrite E'.
           replace (S k + drawsBefore (rows g) (cols g) (JsMap.keys es) id)
             with (k + (1 + drawsBefore (rows g) (cols g) (JsMap.keys es) id))
             by lia.
           reflexivity.
Qed.

(** X26. What [randomizeMirrors(p)] does for [0 <= p <= 1] on a grid as
    constructed (with any interior mirrors and any marks): it calls
    [Math.random()] once for every line that is not on the boundary, in the
    order of the lines, and flips the mirror flag of such a line exactly
    when its own draw is below [p]; boundary lines take no draw and keep
    their flag; nothing else of a line changes, and the dimensions, the
    order of the lines and the used directions stay as they are. *)
Theorem randomizeMirrors_flips :
  forall nrows ncols g (p : Q) (random : nat -> Q),
    InteriorConfig nrows ncols g ->
    (0 <= p)%Q -> (p <= 1)%Q ->
    let g' := snd (randomizeMirrors p random g) in
    (forall id l,
        getGridLine g id = Some l ->
        exists l',
          getGridLine g' id = Some l'
          /\ isMirror l'
             = (if isBoundaryGridLine g (Some l) then isMirror l
                else if Qlt_le_dec
                          (random (drawsBefore nrows ncols
                                     (JsMap.keys (gridLines g)) id)) p
                     then negb (isMirror l) else isMirror l)
          /\ line_id l' = line_id l /\ line_type l' = line_type l
          /\ line_row l' = line_row l /\ line_col l' = line_col l
          /\ connections l' = connections l)
    /\ (forall id, getGridLine g id = None -> getGridLine g' id = None)
    /\ rows g' = rows g /\ cols g' = cols g
    /\ usedDirections g' = usedDirections g
    /\ JsMap.keys (gridLines g') = JsMap.keys (gridLines g).
Proof.
  intros nrows ncols g p random Hcfg H0 H1 g'.
  destruct (InteriorConfig_inv nrows ncols g Hcfg) as (R & C & Hs & Hb & Hu).
  assert (Hg' : g' = fst (fold_left (randomizeMirrors_step p random)
                            (JsMap.entries (gridLines g)) (g, 0))).
  { unfold g', randomizeMirrors.
    destruct (Qlt_le_dec p 0); [lra|]. destruct (Qlt_le_dec 1 p) as [Hlt|_].
    - exfalso. lra.
    - reflexivity. }
  assert (Hget : forall id,
             getGridLine g' id
             = match getGridLine g id with
               | Some l =>
                   Some (line_setMirror l
                           (randomizedFlag nrows ncols p
                              (random (drawsBefore nrows ncols
                                         (JsMap.keys (gridLines g)) id))
                              id (isMirror l)))
               | None => None
               end).
  { intros id. rewrite Hg'. unfold JsMap.entries.
    rewrite randomizeMirrors_fold_flags.
    - rewrite R, C. unfold getGridLine. cbn [Nat.add].
      destruct (JsMap.get GridLineId_eqb (gridLines g) id); reflexivity.
    - now apply GridShape_NoDup.
    - intros [id0 l0] Hin. now apply GridShape_entry. }
  destruct (randomizeMirrors_fold_inv p random
              (JsMap.entries (gridLines g)) (g, 0)) as (R' & C' & U' & K' & _).
  cbn [fst] in R', C', U', K'. rewrite <- Hg' in R', C', U', K'.
  splits; auto.
  - intros id l Hl. rewrite Hget, Hl. eexists. split; [reflexivity|].
    cbn [line_setMirror isMirror line_id line_type line_row line_col
           connections].
    splits; auto. unfold randomizedFlag.
    now rewrite (isBoundary_shape g id l Hs Hl), R, C.
  - intros id Hn. now rewrite Hget, Hn.
Qed.

Lemma randomizeMirrors_flips_witness :
  let g := newGrid 2 2 in
  let random := fun k : nat => (Z.of_nat k # 4)%Q in
  let g' := snd (randomizeMirrors (1 # 2) random g) in
  (forall id l,
      getGridLine g id = Some l ->
      exists l',
        getGridLine g' id = Some l'
        /\ isMirror l'
           = (if isBoundaryGridLine g (Some l) then isMirror l
              else if Qlt_le_dec
                        (random (drawsBefore 2 2 (JsMap.keys (gridLines g)) id))
                        (1 # 2)
                   then negb (isMirror l) else isMirror l)
        /\ line_id l' = line_id l /\ line_type l' = line_type l
        /\ line_row l' = line_row l /\ line_col l' = line_col l
        /\ connections l' = connections l)
  /\ (forall id, getGridLine g id = None -> getGridLine g' id = None)
  /\ rows g' = rows g /\ cols g' = cols g
  /\ usedDirections g' = usedDirections g
  /\ JsMap.keys (gridLines g') = JsMap.keys (gridLines g).
Proof.
  intros g random g'.
  apply (randomizeMirrors_flips 2 2 g (1 # 2) random (config_new 2 2)).
  - vm_compute. discriminate.
  - vm_compute. discriminate.
Defined.

(** ** The animation queue *)










Lemma idle_call sqrt c a :
  idleAnimator a -> isEnqueue c = false ->
  exists a' sent,
    Anim.call sqrt c a = Some (a', sent)
    /\ idleAnimator a' /\ Forall quietEvent sent.
Proof.
  intros [Hq Hia] Hc. unfold idleAnimator.
  destruct c as [curve|h|t cs st h|cb|speed| |]; try discriminate;
    cbn [Anim.call].
  - unfold Anim.startAnimation. rewrite Hia, Hq. eexists _, _. splits; eauto.
  - unfold Anim.animationStep. rewrite Hia. eexists _, _. split; [reflexivity|].
    simpl. splits; auto. repeat constructor.
  - eexists _, _. split; [reflexivity|]. simpl. auto.
  - eexists _, _. split; [reflexivity|]. simpl. auto.
  - unfold Anim.cancelAnimation. eexists _, _. split; [reflexivity|]. simpl.
    splits; auto. destruct (Anim.truthyHandle _); repeat constructor.
  - unfold Anim.clearAllAnimations. eexists _, _. split; [reflexivity|]. simpl.
    splits; auto. destruct (Anim.truthyHandle _); repeat constructor.
Qed.

Lemma idle_calls sqrt cs :
  forall a,
    idleAnimator a -> existsb isEnqueue cs = false ->
    exists a' sent,
      Anim.calls sqrt cs a = Some (a', sent)
      /\ idleAnimator a' /\ Forall quietEvent sent.
Proof.
  induction cs as [|c cs IH]; intros a Hidle Hne; cbn [Anim.calls].
  - exists a, []. splits; auto.
  - cbn [existsb] in Hne. apply orb_false_iff in Hne. destruct Hne as [Hc Hcs].
    destruct (idle_call sqrt c a Hidle Hc) as (a1 & s1 & E1 & Hidle1 & Hq1).
    destruct (IH a1 Hidle1 Hcs)
      as (a2 & s2 & E2 & Hidle2 & Hq2).
    rewrite E1, E2. exists a2, (s1 ++ s2). splits; auto.
    apply Forall_app. auto.
Qed.

(** X28. After [cancelAnimation()] or [clearAllAnimations()] the module is
    idle, whatever it was doing: the queue is empty and nothing is
    animated (and [clearAllAnimations] forgets the current curve, keeps the
    speed and the completion callback, and ends by emitting
    [clearAnimationPath]).  From then on, until a curve is enqueued again,
    no call shows or completes a curve or calls the completion callback:
    a frame that arrives late only cancels, and [startAnimation] does
    nothing. *)
Theorem animation_stops :
  forall (sqrt : Q -> Q) (a : Anim.Animator) (c : Anim.Call)
         (cs : list Anim.Call),
    c = Anim.CancelAnimation \/ c = Anim.ClearAllAnimations ->
    existsb isEnqueue cs = false ->
    exists a1 sent1 a2 sent2,
      Anim.call sqrt c a = Some (a1, sent1)
      /\ Anim.queue a1 = [] /\ Anim.isAnimating a1 = false
      /\ Anim.animationSpeed a1 = Anim.animationSpeed a
      /\ Anim.completeCallback a1 = Anim.completeCallback a
      /\ Forall quietEvent sent1
      /\ (c = Anim.ClearAllAnimations ->
          Anim.currentCurve a1 = None
          /\ last sent1 Anim.requestAnimationFrame = Anim.clearAnimationPath)
      /\ Anim.calls sqrt cs a1 = Some (a2, sent2)
      /\ Anim.queue a2 = [] /\ Anim.isAnimating a2 = false
      /\ Forall quietEvent sent2
      /\ Anim.completedIn sent2 = [].
Proof.
  intros sqrt a c cs Hc Hcs.
  assert (H1 : exists a1 sent1,
             Anim.call sqrt c a = Some (a1, sent1)
             /\ Anim.queue a1 = [] /\ Anim.isAnimating a1 = false
             /\ Anim.animationSpeed a1 = Anim.animationSpeed a
             /\ Anim.completeCallback a1 = Anim.completeCallback a
             /\ Forall quietEvent sent1
             /\ (c = Anim.ClearAllAnimations ->
                 Anim.currentCurve a1 = None
                 /\ last sent1 Anim.requestAnimationFrame
                    = Anim.clearAnimationPath)).
  { destruct Hc as [-> | ->]; cbn [Anim.call].
    - unfold Anim.cancelAnimation. eexists _, _. split; [reflexivity|].
      simpl. splits; auto.
      + destruct (Anim.truthyHandle _); repeat constructor.
      + discriminate.
    - unfold Anim.clearAllAnimations. eexists _, _. split; [reflexivity|].
      simpl. splits; auto.
      + destruct (Anim.truthyHandle _); repeat constructor.
      + intros _. split; auto. destruct (Anim.truthyHandle _); reflexivity. }
  destruct H1 as (a1 & sent1 & E1 & Hq1 & Hia1 & Hs1 & Hcb1 & Hquiet1 & Hclear).
  destruct (idle_calls sqrt cs a1 (conj Hq1 Hia1) Hcs)
    as (a2 & sent2 & E2 & [Hq2 Hia2] & Hquiet2).
  exists a1, sent1, a2, sent2. splits; auto.
  clear E2. induction Hquiet2 as [|e sent2 He _ IH]; [reflexivity|].
  unfold Anim.completedIn in *. cbn [flat_map]. rewrite IH.
  destruct e; simpl in He; try contradiction; reflexivity.
Qed.

Lemma animation_stops_witness :
  let c1 := addSegment (newMirrorCurve (builtLine 1 1 (mkId tag_h 0 0)) SW)
              (builtLine 1 1 (mkId tag_v 0 0)) SE in
  let a := fst (Anim.startAnimation 1 (Anim.enqueueCurve c1 Anim.initial)) in
  let cs := [Anim.AnimationStep 5 (Some 40%Q) "jagged" 2;
             Anim.StartAnimation 3] in
  exists a1 sent1 a2 sent2,
    Anim.call sqrtQ Anim.ClearAllAnimations a = Some (a1, sent1)
    /\ Anim.queue a1 = [] /\ Anim.isAnimating a1 = false
    /\ Anim.animationSpeed a1 = Anim.animationSpeed a
    /\ Anim.completeCallback a1 = Anim.completeCallback a
    /\ Forall quietEvent sent1
    /\ (Anim.ClearAllAnimations = Anim.ClearAllAnimations ->
        Anim.currentCurve a1 = None
        /\ last sent1 Anim.requestAnimationFrame = Anim.clearAnimationPath)
    /\ Anim.calls sqrtQ cs a1 = Some (a2, sent2)
    /\ Anim.queue a2 = [] /\ Anim.isAnimating a2 = false
    /\ Forall quietEvent sent2
    /\ Anim.completedIn sent2 = [].
Proof.
  intros c1 a cs.
  apply (animation_stops sqrtQ a Anim.ClearAllAnimations cs).
  - right. reflexivity.
  - reflexivity.
Defined.


